(** * Lexsy: placeholder detection, context resolution and rendering

    A shallow embedding of the placeholder engine of the Lexsy document
    filler (FileUpload.extractPlaceholders, DocumentProcessor.extractValue and
    generateCompletedDocument, DocumentViewer.handleDownload) together with
    the properties its specification states about it.

    JavaScript strings are sequences of UTF-16 code units.  The embedding
    represents a string as a list of 8-bit code units, so it covers the
    texts whose code units lie in 0..255 (Latin-1); every regular
    expression of the source is transcribed as a matcher over that
    representation, next to the pattern it transcribes. *)

From Stdlib Require Import String Ascii List ZArith NArith Bool Lia Arith.
From Stdlib Require Import Sorting.Sorted Sorting.Permutation.
Import ListNotations.
Open Scope string_scope.
Open Scope list_scope.
Open Scope Z_scope.

(** ** JavaScript strings *)

Definition jsstring := list ascii.

Coercion list_ascii_of_string : string >-> list.

Definition code (c : ascii) : N := N_of_ascii c.

Definition inRange (lo hi : N) (c : ascii) : bool :=
  ((lo <=? code c) && (code c <=? hi))%N.

(** [\d], [\w] and [\s] of the regular expressions, and the line terminators
    that [^] and [$] look at under the [m] flag. *)
Definition isDigit (c : ascii) : bool := inRange 48 57 c.

Definition isWordChar (c : ascii) : bool :=
  isDigit c || inRange 65 90 c || inRange 97 122 c || (code c =? 95)%N.

Definition isLineTerminator (c : ascii) : bool :=
  ((code c =? 10) || (code c =? 13))%N.

Definition isWhiteSpace (c : ascii) : bool :=
  (inRange 9 13 c || (code c =? 32) || (code c =? 160))%N.

(** [String.prototype.toLowerCase] on one code unit. *)
Definition lowerChar (c : ascii) : ascii :=
  if inRange 65 90 c || (inRange 192 222 c && negb (code c =? 215)%N)
  then ascii_of_N (code c + 32) else c.

(** Canonicalisation of a code unit by a regular expression with the [i]
    flag: simple upper-casing, kept inside the code units represented. *)
Definition canonicalize (c : ascii) : ascii :=
  if inRange 97 122 c || (inRange 224 254 c && negb (code c =? 247)%N)
  then ascii_of_N (code c - 32) else c.

Definition toLowerCase (s : jsstring) : jsstring := map lowerChar s.

Definition len (s : jsstring) : Z := Z.of_nat (length s).

Definition isEmpty (s : jsstring) : bool :=
  match s with [] => true | _ => false end.

Fixpoint jsstring_eqb (a b : jsstring) : bool :=
  match a, b with
  | [], [] => true
  | x :: a', y :: b' => Ascii.eqb x y && jsstring_eqb a' b'
  | _, _ => false
  end.

Fixpoint startsWith (s p : jsstring) {struct p} : bool :=
  match p, s with
  | [], _ => true
  | x :: p', y :: s' => Ascii.eqb x y && startsWith s' p'
  | _ :: _, [] => false
  end.

(** A literal matched under the [i] flag at the head of [s]. *)
Fixpoint ciStartsWith (s p : jsstring) {struct p} : bool :=
  match p, s with
  | [], _ => true
  | x :: p', y :: s' =>
      Ascii.eqb (canonicalize x) (canonicalize y) && ciStartsWith s' p'
  | _ :: _, [] => false
  end.

Definition endsWith (s p : jsstring) : bool := startsWith (rev s) (rev p).

Fixpoint includes (s sub : jsstring) : bool :=
  startsWith s sub ||
  match s with
  | [] => false
  | _ :: s' => includes s' sub
  end.

Fixpoint indexOfFrom (i : Z) (s sub : jsstring) : Z :=
  if startsWith s sub then i
  else match s with
       | [] => -1
       | _ :: s' => indexOfFrom (i + 1) s' sub
       end.

Definition indexOf (s sub : jsstring) : Z := indexOfFrom 0 s sub.

Fixpoint lastIndexOfFrom (i best : Z) (s sub : jsstring) : Z :=
  let best' := if startsWith s sub then i else best in
  match s with
  | [] => best'
  | _ :: s' => lastIndexOfFrom (i + 1) best' s' sub
  end.

Definition lastIndexOf (s sub : jsstring) : Z := lastIndexOfFrom 0 (-1) s sub.

(** [s.substring(a, b)]: both ends are clamped to [0, s.length] and swapped
    when they come in the wrong order. *)
Definition clamp (s : jsstring) (a : Z) : Z := Z.min (Z.max 0 a) (len s).

Definition substring (s : jsstring) (a b : Z) : jsstring :=
  let a' := clamp s a in
  let b' := clamp s b in
  let lo := Z.min a' b' in
  let hi := Z.max a' b' in
  firstn (Z.to_nat (hi - lo)) (skipn (Z.to_nat lo) s).

Definition substringFrom (s : jsstring) (a : Z) : jsstring :=
  substring s a (len s).

Fixpoint takeWhile (p : ascii -> bool) (s : jsstring) : jsstring :=
  match s with
  | [] => []
  | c :: s' => if p c then c :: takeWhile p s' else []
  end.

Fixpoint dropWhile (p : ascii -> bool) (s : jsstring) : jsstring :=
  match s with
  | [] => []
  | c :: s' => if p c then dropWhile p s' else s
  end.

Definition trimStart (s : jsstring) : jsstring := dropWhile isWhiteSpace s.

Definition trim (s : jsstring) : jsstring :=
  rev (dropWhile isWhiteSpace (rev (trimStart s))).

(** [s.replace(/\s+/g, ' ')]: each maximal run of white space becomes one
    space. *)
Fixpoint collapseWhitespace (inRun : bool) (s : jsstring) : jsstring :=
  match s with
  | [] => []
  | c :: s' =>
      if isWhiteSpace c
      then (if inRun then collapseWhitespace true s'
            else " "%char :: collapseWhitespace true s')
      else c :: collapseWhitespace false s'
  end.

(** [s.split(':')[0]]. *)
Definition beforeFirstColon (s : jsstring) : jsstring :=
  takeWhile (fun c => negb (Ascii.eqb c ":"%char)) s.

(** ** [Map<string, V>] and [Set<string>]

    A JavaScript [Map] iterates in insertion order, and [set] on a key that
    is present replaces the value where the key already stands. *)

Definition JsMap (V : Type) := list (jsstring * V).

Fixpoint Map_get {V} (m : JsMap V) (k : jsstring) : option V :=
  match m with
  | [] => None
  | (k', v) :: m' => if jsstring_eqb k' k then Some v else Map_get m' k
  end.

Fixpoint Map_set {V} (m : JsMap V) (k : jsstring) (v : V) : JsMap V :=
  match m with
  | [] => [(k, v)]
  | (k', v') :: m' =>
      if jsstring_eqb k' k then (k', v) :: m' else (k', v') :: Map_set m' k v
  end.

Definition Map_has {V} (m : JsMap V) (k : jsstring) : bool :=
  match Map_get m k with Some _ => true | None => false end.

Definition Map_keys {V} (m : JsMap V) : list jsstring := map fst m.

Definition JsSet := list jsstring.

Definition Set_has (s : JsSet) (k : jsstring) : bool :=
  existsb (jsstring_eqb k) s.

Definition Set_add (s : JsSet) (k : jsstring) : JsSet :=
  if Set_has s k then s else s ++ [k].

Definition Set_size (s : JsSet) : Z := Z.of_nat (length s).

(** ** Regular-expression scans

    [index], [matched] and [group1] are [match.index], [match[0]] and
    [match[1]] of a [RegExpExecArray]. *)

Record RegExpMatch := mkMatch {
  index : Z;
  matched : jsstring;
  group1 : jsstring
}.

(** A matcher tries one pattern at one position: it sees the code unit
    before the position (for [\b] and [^]) and the text from the position on,
    and answers with [match[0]] and [match[1]]. *)
Definition Matcher := option ascii -> jsstring -> option (jsstring * jsstring).

(** The loop [while ((m = re.exec(text)) !== null)] of a [g] pattern: the
    leftmost match from [lastIndex], then on from the end of that match.
    [skip] counts the code units of the current match still to be passed.
    No pattern of the source matches the empty string. *)
Fixpoint execAllFrom (re : Matcher) (skip : nat) (i : Z) (prev : option ascii)
    (s : jsstring) : list RegExpMatch :=
  match s with
  | [] => []
  | c :: s' =>
      match skip with
      | S k => execAllFrom re k (i + 1) (Some c) s'
      | O =>
          match re prev s with
          | Some (m, g) =>
              mkMatch i m g :: execAllFrom re (length m - 1) (i + 1) (Some c) s'
          | None => execAllFrom re 0 (i + 1) (Some c) s'
          end
      end
  end.

Definition execAll (re : Matcher) (text : jsstring) : list RegExpMatch :=
  execAllFrom re 0 0 None text.

(** [re.test(text)] of a fresh pattern: is there a position where it
    matches. *)
Fixpoint testFrom (re : Matcher) (prev : option ascii) (s : jsstring) : bool :=
  match re prev s with
  | Some _ => true
  | None =>
      match s with
      | [] => false
      | c :: s' => testFrom re (Some c) s'
      end
  end.

Definition regexTest (re : Matcher) (text : jsstring) : bool :=
  testFrom re None text.

(** Patterns of the shape [open ([class]+) close], where the first code unit
    of [close] lies outside [class]: the greedy run of [class] is the only
    one that [close] can follow. *)
Definition delimited (op : jsstring) (inBody : ascii -> bool) (cl : jsstring)
  : Matcher :=
  fun _ s =>
    if startsWith s op then
      let rest := skipn (length op) s in
      let body := takeWhile inBody rest in
      let after := skipn (length body) rest in
      if negb (isEmpty body) && startsWith after cl
      then Some (op ++ body ++ cl, body)
      else None
    else None.

Definition isNot (c : string) (x : ascii) : bool :=
  negb (existsb (Ascii.eqb x) (list_ascii_of_string c)).

Definition isOneOf (c : string) (x : ascii) : bool :=
  existsb (Ascii.eqb x) (list_ascii_of_string c).

(** A literal under the [i] flag; it has no capture group. *)
Definition ciLiteral (p : jsstring) : Matcher :=
  fun _ s => if ciStartsWith s p then Some (firstn (length p) s, []) else None.

(** A literal without the [i] flag. *)
Definition literal (p : jsstring) : Matcher :=
  fun _ s => if startsWith s p then Some (p, []) else None.

(** [^] under the [m] flag. *)
Definition atLineStart (prev : option ascii) : bool :=
  match prev with
  | None => true
  | Some c => isLineTerminator c
  end.

(** [\b] between the code unit before the position and the one at it. *)
Definition atWordBoundary (prev : option ascii) (s : jsstring) : bool :=
  xorb (match prev with Some c => isWordChar c | None => false end)
       (match s with c :: _ => isWordChar c | [] => false end).

Fixpoint lastLineTerminator (i : nat) (best : option nat) (ws : jsstring)
  : option nat :=
  match ws with
  | [] => best
  | c :: ws' =>
      lastLineTerminator (S i) (if isLineTerminator c then Some i else best) ws'
  end.

(** [\s*$] under the [m] flag, tried on the text after the part of the
    pattern already matched: the greedy run of white space gives back code
    units until [$] holds, at the end of the text or before a line
    terminator.  The answer is the number of code units [\s*] keeps. *)
Definition spacesToLineEnd (s : jsstring) : option nat :=
  let ws := takeWhile isWhiteSpace s in
  if isEmpty (skipn (length ws) s) then Some (length ws)
  else lastLineTerminator 0 None ws.

(** [lit\s*$] with the [i] and [m] flags, optionally behind [^] or [\b]. *)
Definition ciLiteralToLineEnd (guard : option ascii -> jsstring -> bool)
    (p : jsstring) : Matcher :=
  fun prev s =>
    if guard prev s && ciStartsWith s p then
      match spacesToLineEnd (skipn (length p) s) with
      | Some k => Some (firstn (length p + k) s, [])
      | None => None
      end
    else None.

(** Alternation: the first alternative that matches wins. *)
Fixpoint alternatives (res : list Matcher) : Matcher :=
  fun prev s =>
    match res with
    | [] => None
    | re :: res' =>
        match re prev s with
        | Some r => Some r
        | None => alternatives res' prev s
        end
    end.

(** ** The data model (types/placeholders.ts) *)

Inductive PlaceholderType :=
| square | curly | double_curly | angle | currency_blank.

Inductive Party := company | investor.

Record PlaceholderInfo := mkInfo {
  key : jsstring;
  originalFormat : jsstring;
  prefix : jsstring;
  type : PlaceholderType;
  context : option Party;
  position : option Z
}.

Record PlaceholderData := mkData {
  info : PlaceholderInfo;
  value : jsstring
}.

Definition Party_eqb (a b : Party) : bool :=
  match a, b with
  | company, company | investor, investor => true
  | _, _ => false
  end.

Definition context_eqb (a b : option Party) : bool :=
  match a, b with
  | None, None => true
  | Some x, Some y => Party_eqb x y
  | _, _ => false
  end.

Definition isCurrencyBlank (t : PlaceholderType) : bool :=
  match t with currency_blank => true | _ => false end.

(** ** FileUpload.extractPlaceholders *)

(** The four literal-delimiter patterns, in the order of the [patterns]
    array:
    [/\{\{([^}]+)\}\}/g], [/<<([^>]+)>>/g], [/\[([^\]]+)\]/g],
    [/\{([^}]+)\}/g]. *)
Definition doubleCurlyRegex : Matcher := delimited "{{" (isNot "}") "}}".
Definition angleRegex : Matcher := delimited "<<" (isNot ">") ">>".
Definition squareRegex : Matcher := delimited "[" (isNot "]") "]".
Definition curlyRegex : Matcher := delimited "{" (isNot "}") "}".

Definition patterns : list (Matcher * PlaceholderType) :=
  [ (doubleCurlyRegex, double_curly);
    (angleRegex, angle);
    (squareRegex, square);
    (curlyRegex, curly) ].

(** [/\$\[([_ ]+)\]/g] *)
Definition currencyRegex : Matcher := delimited "$[" (isOneOf "_ ") "]".

(** First pass: every currency blank with the lower-cased text of the 100
    code units on either side of it. *)
Definition currencyContext (text : jsstring) (m : RegExpMatch) : jsstring :=
  let startPos := Z.max 0 (index m - 100) in
  let endPos := Z.min (len text) (index m + len (matched m) + 100) in
  toLowerCase (substring text startPos endPos).

Definition currencyBlanks (text : jsstring) : list (RegExpMatch * jsstring) :=
  map (fun m => (m, currencyContext text m)) (execAll currencyRegex text).

Definition currencyInfo (k originalFormat : jsstring) : PlaceholderInfo :=
  mkInfo k originalFormat "$" currency_blank None None.

Record CurrencyState := mkCurrencyState {
  c_placeholders : JsMap PlaceholderInfo;
  purchaseAmountSeen : JsSet;
  valuationCapSeen : JsSet
}.

Definition hasValuationKeyword (ctx : jsstring) : bool :=
  includes ctx "valuation" || includes ctx "cap" || includes ctx "post-money".

Definition hasPurchaseKeyword (ctx : jsstring) : bool :=
  includes ctx "purchase" || includes ctx "investment" || includes ctx "amount".

Definition processCurrencyBlank (st : CurrencyState)
    (b : RegExpMatch * jsstring) : CurrencyState :=
  let '(m, ctx) := b in
  let originalFormat := matched m in
  if hasValuationKeyword ctx then
    if negb (Set_has (valuationCapSeen st) originalFormat) then
      mkCurrencyState
        (Map_set (c_placeholders st) "Post-Money Valuation Cap"
           (currencyInfo "Post-Money Valuation Cap" originalFormat))
        (purchaseAmountSeen st)
        (Set_add (valuationCapSeen st) originalFormat)
    else st
  else if hasPurchaseKeyword ctx then
    if negb (Set_has (purchaseAmountSeen st) originalFormat) then
      mkCurrencyState
        (Map_set (c_placeholders st) "Purchase Amount"
           (currencyInfo "Purchase Amount" originalFormat))
        (Set_add (purchaseAmountSeen st) originalFormat)
        (valuationCapSeen st)
    else st
  else if Set_size (purchaseAmountSeen st) =? 0 then
    mkCurrencyState
      (Map_set (c_placeholders st) "Purchase Amount"
         (currencyInfo "Purchase Amount" originalFormat))
      (Set_add (purchaseAmountSeen st) originalFormat)
      (valuationCapSeen st)
  else if Set_size (valuationCapSeen st) =? 0 then
    mkCurrencyState
      (Map_set (c_placeholders st) "Post-Money Valuation Cap"
         (currencyInfo "Post-Money Valuation Cap" originalFormat))
      (purchaseAmountSeen st)
      (Set_add (valuationCapSeen st) originalFormat)
  else st.

Definition currencyPass (text : jsstring) : CurrencyState :=
  fold_left processCurrencyBlank (currencyBlanks text)
    (mkCurrencyState [] [] []).

(** [/^[_ ]+$/.test(key)] *)
Definition isBlankKey (k : jsstring) : bool :=
  negb (isEmpty k) && forallb (isOneOf "_ ") k.

(** [checkSignatureContext]: the markers looked for in the 1000 code units
    before the match and the 500 after it.
    [/\[COMPANY\]|COMPANY:|^COMPANY\s*$/gim], [/INVESTOR:|^INVESTOR\s*$/gim],
    [/by:\s*$/gim], [/in witness/gim]. *)
Definition companyMarkerRegex : Matcher :=
  alternatives [ ciLiteral "[COMPANY]"; ciLiteral "COMPANY:";
                 ciLiteralToLineEnd (fun prev _ => atLineStart prev) "COMPANY" ].

Definition investorMarkerRegex : Matcher :=
  alternatives [ ciLiteral "INVESTOR:";
                 ciLiteralToLineEnd (fun prev _ => atLineStart prev) "INVESTOR" ].

Definition byMarkerRegex : Matcher :=
  ciLiteralToLineEnd (fun _ _ => true) "by:".

Definition witnessRegex : Matcher := ciLiteral "in witness".

Record SignatureContext := mkSignatureContext {
  isInSignatureBlock : bool;
  hasCompanyMarker : bool;
  hasInvestorMarker : bool;
  beforeText : jsstring
}.

Definition checkSignatureContext (text : jsstring) (m : RegExpMatch)
  : SignatureContext :=
  let startPos := Z.max 0 (index m - 1000) in
  let endPos := Z.min (len text) (index m + len (matched m) + 500) in
  let surroundingText := substring text startPos endPos in
  let hasCompany := regexTest companyMarkerRegex surroundingText in
  let hasInvestor := regexTest investorMarkerRegex surroundingText in
  let hasBy := regexTest byMarkerRegex surroundingText in
  let hasWitness := regexTest witnessRegex surroundingText in
  mkSignatureContext (hasCompany || hasInvestor || hasBy || hasWitness)
    hasCompany hasInvestor
    (toLowerCase (substring text startPos (index m))).

Definition LiteralState := (JsMap PlaceholderInfo * JsSet)%type.

(** The body of the [while] loop of the second pass, for one match of one
    pattern. *)
Definition processLiteralMatch (text : jsstring) (ty : PlaceholderType)
    (st : LiteralState) (m : RegExpMatch) : LiteralState :=
  let '(placeholders, seenFormats) := st in
  let originalFormat := matched m in
  let k := trim (group1 m) in
  if isBlankKey k then st
  else if Set_has seenFormats originalFormat then st
  else
    let seenFormats := Set_add seenFormats originalFormat in
    let normalizedKey := trim (collapseWhitespace false k) in
    if isEmpty normalizedKey then (placeholders, seenFormats)
    else
      let lowerKey := toLowerCase normalizedKey in
      let sigContext := checkSignatureContext text m in
      let normalizedKey :=
        if jsstring_eqb normalizedKey "COMPANY" && isInSignatureBlock sigContext
        then ("Company Name" : jsstring) else normalizedKey in
      let normalizedKey :=
        if (jsstring_eqb lowerKey "name" || jsstring_eqb lowerKey "title")
           && isInSignatureBlock sigContext
        then
          let companyIndex := lastIndexOf (beforeText sigContext) "company" in
          let investorIndex := lastIndexOf (beforeText sigContext) "investor" in
          let isCompany :=
            if (companyIndex >? investorIndex) && (companyIndex >=? 0) then true
            else if (investorIndex >=? 0) && (investorIndex >? companyIndex)
                 then false
            else hasCompanyMarker sigContext
                 && negb (hasInvestorMarker sigContext) in
          if isCompany
          then (if jsstring_eqb lowerKey "name"
                then ("Company Name Field" : jsstring)
                else ("Company Title" : jsstring))
          else (if jsstring_eqb lowerKey "name"
                then ("Investor Name" : jsstring)
                else ("Investor Title" : jsstring))
        else normalizedKey in
      let newInfo := mkInfo normalizedKey originalFormat [] ty None None in
      if negb (jsstring_eqb normalizedKey "Company Name")
         || negb (jsstring_eqb originalFormat "[COMPANY]")
      then
        match Map_get placeholders normalizedKey with
        | Some _ => (placeholders, seenFormats)
        | None => (Map_set placeholders normalizedKey newInfo, seenFormats)
        end
      else (Map_set placeholders normalizedKey newInfo, seenFormats).

Definition literalPass (text : jsstring) (placeholders : JsMap PlaceholderInfo)
  : LiteralState :=
  fold_left
    (fun st p => fold_left (processLiteralMatch text (snd p))
                   (execAll (fst p) text) st)
    patterns (placeholders, []).

(** [Array.prototype.sort] with a comparator: a stable sort, an element
    going in front of the first one it does not compare greater than. *)
Fixpoint insertBy {A} (cmp : A -> A -> Z) (x : A) (l : list A) : list A :=
  match l with
  | [] => [x]
  | y :: l' => if cmp x y <=? 0 then x :: y :: l' else y :: insertBy cmp x l'
  end.

Definition sortBy {A} (cmp : A -> A -> Z) (l : list A) : list A :=
  fold_right (insertBy cmp) [] l.

(** Third pass: the labels [Address:], [Email:], [Name:], [Title:] at the
    end of a line, [/\bAddress:\s*$/gim] and its three siblings. *)
Definition labelFields : list (Matcher * jsstring) :=
  [ (ciLiteralToLineEnd atWordBoundary "Address:", "Address" : jsstring);
    (ciLiteralToLineEnd atWordBoundary "Email:", "Email" : jsstring);
    (ciLiteralToLineEnd atWordBoundary "Name:", "Name" : jsstring);
    (ciLiteralToLineEnd atWordBoundary "Title:", "Title" : jsstring) ].

(** [/(?:\[COMPANY\]|COMPANY|COMPANY:|INVESTOR|INVESTOR:|\[INVESTOR\]|^INVESTOR\s*$)/gim] *)
Definition signatureBlockRegex : Matcher :=
  alternatives
    [ ciLiteral "[COMPANY]"; ciLiteral "COMPANY"; ciLiteral "COMPANY:";
      ciLiteral "INVESTOR"; ciLiteral "INVESTOR:"; ciLiteral "[INVESTOR]";
      ciLiteralToLineEnd (fun prev _ => atLineStart prev) "INVESTOR" ].

Record SignatureMatch := mkSignature {
  sig_index : Z;
  sig_type : Party;
  sig_text : jsstring
}.

Definition signatureOf (m : RegExpMatch) : SignatureMatch :=
  let matchText := toLowerCase (matched m) in
  mkSignature (index m)
    (if includes matchText "company" then company else investor)
    (matched m).

Definition signatureMatches (text : jsstring) : list SignatureMatch :=
  sortBy (fun a b => sig_index a - sig_index b)
    (map signatureOf (execAll signatureBlockRegex text)).

Definition isParty (p : Party) (s : SignatureMatch) : bool :=
  Party_eqb (sig_type s) p.

(** [signatureMatches.filter(s => s.type === p).pop()] *)
Definition lastSignature (p : Party) (sigs : list SignatureMatch)
  : option SignatureMatch :=
  last (map Some (filter (isParty p) sigs)) None.

(** [list.reduce((closest, current) => ... )] of the label loop: the
    signature nearest to the label, the earlier one on a tie. *)
Definition closer (labelIndex : Z) (closest current : SignatureMatch)
  : SignatureMatch :=
  let closestDist := Z.abs (sig_index closest - labelIndex) in
  let currentDist := Z.abs (sig_index current - labelIndex) in
  if currentDist <? closestDist then current else closest.

Definition closestSignature (labelIndex : Z) (first : SignatureMatch)
    (rest : list SignatureMatch) : SignatureMatch :=
  fold_left (closer labelIndex) rest first.

(** The party of the label found at [labelIndex]: the nearest marker before
    it within 3000 code units, else the nearest marker within that range,
    else the position relative to the last markers, else none. *)
Definition nearbyContext (sigs : list SignatureMatch) (labelIndex : Z)
  : option Party :=
  let nearbySignatures :=
    filter (fun s => Z.abs (sig_index s - labelIndex) <? 3000) sigs in
  match nearbySignatures with
  | [] => None
  | n :: ns =>
      let beforeSignatures :=
        filter (fun s => sig_index s <? labelIndex) nearbySignatures in
      match beforeSignatures with
      | b :: bs => Some (sig_type (closestSignature labelIndex b bs))
      | [] =>
          let closest := closestSignature labelIndex n ns in
          if labelIndex <? sig_index closest + 500
          then Some (sig_type closest) else None
      end
  end.

Definition fallbackContext (sigs : list SignatureMatch) (labelIndex : Z)
  : option Party :=
  let near (s : SignatureMatch) :=
    (labelIndex >? sig_index s - 500) && (labelIndex <? sig_index s + 3000) in
  match lastSignature company sigs, lastSignature investor sigs with
  | Some lastCompanySignature, Some lastInvestorSignature =>
      if labelIndex >? sig_index lastInvestorSignature then Some investor
      else if (labelIndex >? sig_index lastCompanySignature)
              && (labelIndex <? sig_index lastInvestorSignature)
           then Some company
      else if near lastCompanySignature then Some company
      else None
  | None, Some lastInvestorSignature =>
      if near lastInvestorSignature then Some investor else None
  | Some lastCompanySignature, None =>
      if near lastCompanySignature then Some company else None
  | None, None => None
  end.

Definition resolveContext (sigs : list SignatureMatch) (labelIndex : Z)
  : option Party :=
  match nearbyContext sigs labelIndex with
  | Some p => Some p
  | None => fallbackContext sigs labelIndex
  end.

(** [uniqueKey] of a label in a party section. *)
Definition uniqueKey (p : Party) (label : jsstring) : jsstring :=
  match p with
  | company =>
      if jsstring_eqb label "Address" then ("Company Address" : jsstring)
      else if jsstring_eqb label "Email" then ("Company Email" : jsstring)
      else if jsstring_eqb label "Name" then ("Company Name Field" : jsstring)
      else if jsstring_eqb label "Title" then ("Company Title" : jsstring)
      else label
  | investor =>
      if jsstring_eqb label "Address" then ("Investor Address" : jsstring)
      else if jsstring_eqb label "Email" then ("Investor Email" : jsstring)
      else if jsstring_eqb label "Name" then ("Investor Name" : jsstring)
      else if jsstring_eqb label "Title" then ("Investor Title" : jsstring)
      else label
  end.

Definition samePosition (existing : PlaceholderInfo) (labelIndex : Z) : bool :=
  match position existing with
  | Some p => p =? labelIndex
  | None => false
  end.

(** The body of [allMatches.forEach] for one occurrence of one label. *)
Definition processLabelMatch (sigs : list SignatureMatch) (label : jsstring)
    (placeholders : JsMap PlaceholderInfo) (m : RegExpMatch)
  : JsMap PlaceholderInfo :=
  let labelIndex := index m in
  match resolveContext sigs labelIndex with
  | Some p =>
      let trimmedLabelText := trim (matched m) in
      let k := uniqueKey p label in
      let add :=
        Map_set placeholders k
          (mkInfo k trimmedLabelText [] square (Some p) (Some labelIndex)) in
      match Map_get placeholders k with
      | None => add
      | Some existing =>
          if negb (samePosition existing labelIndex) then add else placeholders
      end
  | None => placeholders
  end.

Definition labelPass (text : jsstring) (placeholders : JsMap PlaceholderInfo)
  : JsMap PlaceholderInfo :=
  let sigs := signatureMatches text in
  fold_left
    (fun pl lf => fold_left (processLabelMatch sigs (snd lf))
                    (execAll (fst lf) text) pl)
    labelFields placeholders.

Definition extractPlaceholders (text : jsstring) : JsMap PlaceholderInfo :=
  labelPass text
    (fst (literalPass text (c_placeholders (currencyPass text)))).

(** ** DocumentProcessor.extractValue *)

(** Numbers.  [parseFloat], [*], [toString] and [toLocaleString] are
    modelled where IEEE-754 double arithmetic is exact and the printed form
    has no fraction: [NaN] and the integers below 2^53.  A step that would
    leave that range (a fractional part, an exponent, a sign, an integer of
    2^53 or more) answers [None]. *)
Inductive JsNumber := NaN | Int (n : N).

Definition maxSafe : N := 9007199254740992.

Definition digitValue (c : ascii) : N := code c - 48.

Definition digitsValue (ds : jsstring) : N :=
  fold_left (fun acc c => acc * 10 + digitValue c)%N ds 0%N.

Definition isChar (c : string) (x : ascii) : bool :=
  match list_ascii_of_string c with
  | [y] => Ascii.eqb x y
  | _ => false
  end.

(** An exponent part [e], [E] with an optional sign and a digit. *)
Definition startsExponent (s : jsstring) : bool :=
  match s with
  | e :: r =>
      (isChar "e" e || isChar "E" e) &&
      match r with
      | d :: r' =>
          isDigit d ||
          ((isChar "+" d || isChar "-" d) &&
           match r' with d' :: _ => isDigit d' | [] => false end)
      | [] => false
      end
  | [] => false
  end.

Definition parseFloat (str : jsstring) : option JsNumber :=
  let s := trimStart str in
  match s with
  | c :: _ =>
      if isChar "+" c || isChar "-" c || startsWith s "Infinity" then None
      else
        let ds := takeWhile isDigit s in
        let rest := skipn (length ds) s in
        let frac :=
          match rest with
          | d :: r => if isChar "." d then takeWhile isDigit r else []
          | [] => []
          end in
        let hasDot :=
          match rest with d :: _ => isChar "." d | [] => false end in
        let afterMantissa :=
          if hasDot && negb (isEmpty ds && isEmpty frac)
          then skipn (S (length frac)) rest else rest in
        if isEmpty ds && isEmpty frac then Some NaN
        else if negb (forallb (isChar "0") frac) then None
        else if startsExponent afterMantissa then None
        else if (digitsValue ds <? maxSafe)%N then Some (Int (digitsValue ds))
        else None
  | [] => Some NaN
  end.

Definition times (x : JsNumber) (k : N) : option JsNumber :=
  match x with
  | NaN => Some NaN
  | Int n => if (n * k <? maxSafe)%N then Some (Int (n * k)) else None
  end.

(** Decimal digits of a natural number, [fuel] bounding their count. *)
Fixpoint digitsOf (fuel : nat) (n : N) (acc : jsstring) : jsstring :=
  match fuel with
  | O => acc
  | S f =>
      let acc' := ascii_of_N (48 + n mod 10) :: acc in
      if (n / 10 =? 0)%N then acc' else digitsOf f (n / 10) acc'
  end.

Definition decimal (n : N) : jsstring := digitsOf (S (N.to_nat (N.log2 n))) n [].

Definition numberToString (x : JsNumber) : jsstring :=
  match x with
  | NaN => "NaN"
  | Int n => decimal n
  end.

(** Groups of three digits from the right, for [toLocaleString('en-US')]. *)
Fixpoint groupThousands (k : nat) (rdigits : jsstring) : jsstring :=
  match rdigits with
  | [] => []
  | d :: r =>
      match k, r with
      | S (S O), _ :: _ => d :: ","%char :: groupThousands 0 r
      | _, _ => d :: groupThousands (S k) r
      end
  end.

Definition toLocaleString (x : JsNumber) : jsstring :=
  match x with
  | NaN => "NaN"
  | Int n => rev (groupThousands 0 (rev (decimal n)))
  end.

(** [/[\d,]+(?:\.\d+)?(?:k|K|thousand|million|M)?/i] *)
Definition numberRegex : Matcher :=
  fun _ s =>
    let ds := takeWhile (fun c => isDigit c || isChar "," c) s in
    if isEmpty ds then None
    else
      let rest := skipn (length ds) s in
      let frac :=
        match rest with
        | d :: r =>
            if isChar "." d && negb (isEmpty (takeWhile isDigit r))
            then d :: takeWhile isDigit r else []
        | [] => []
        end in
      let rest' := skipn (length frac) rest in
      let suffix :=
        match alternatives
                [ ciLiteral "k"; ciLiteral "K"; ciLiteral "thousand";
                  ciLiteral "million"; ciLiteral "M" ] None rest' with
        | Some (m, _) => m
        | None => []
        end in
      Some (ds ++ frac ++ suffix, []).

(** [str.match(re)] of a pattern without the [g] flag: the leftmost match. *)
Definition firstMatch (re : Matcher) (text : jsstring) : option RegExpMatch :=
  hd_error (execAll re text).

(** [/(\w+)\s+(\d{1,2}),?\s+(\d{4})|(\d{1,2})\/(\d{1,2})\/(\d{4})/]; only
    whether it matches is used. *)
Definition upToTwoDigits (s : jsstring) : option jsstring :=
  match s with
  | a :: b :: r => if isDigit a then Some (if isDigit b then r else b :: r)
                   else None
  | [a] => if isDigit a then Some [] else None
  | [] => None
  end.

Definition fourDigits (s : jsstring) : bool :=
  match s with
  | a :: b :: c :: d :: _ => isDigit a && isDigit b && isDigit c && isDigit d
  | _ => false
  end.

Definition monthDayYear : Matcher :=
  fun _ s =>
    let w := takeWhile isWordChar s in
    let s1 := skipn (length w) s in
    let ws1 := takeWhile isWhiteSpace s1 in
    let s2 := skipn (length ws1) s1 in
    if isEmpty w || isEmpty ws1 then None
    else
      match upToTwoDigits s2 with
      | Some s3 =>
          let s4 := match s3 with
                    | c :: r => if isChar "," c then r else s3
                    | [] => s3
                    end in
          let ws2 := takeWhile isWhiteSpace s4 in
          if negb (isEmpty ws2) && fourDigits (skipn (length ws2) s4)
          then Some ([], []) else None
      | None => None
      end.

Definition slashDate : Matcher :=
  fun _ s =>
    match upToTwoDigits s with
    | Some (c :: s1) =>
        if isChar "/" c then
          match upToTwoDigits s1 with
          | Some (c' :: s2) =>
              if isChar "/" c' && fourDigits s2 then Some ([], []) else None
          | _ => None
          end
        else None
    | _ => None
    end.

Definition dateRegex : Matcher := alternatives [ monthDayYear; slashDate ].

Definition removeCommas (s : jsstring) : jsstring :=
  filter (fun c => negb (isChar "," c)) s.

Definition optBind {A B} (x : option A) (f : A -> option B) : option B :=
  match x with Some a => f a | None => None end.

Definition isCurrencyKind (placeholder : PlaceholderInfo) : bool :=
  jsstring_eqb (prefix placeholder) "$"
  || includes (toLowerCase (key placeholder)) "amount"
  || includes (toLowerCase (key placeholder)) "valuation".

(** The branch for currency amounts: the number found in [value], scaled by
    its suffix and printed with thousands separators behind [$]. *)
Definition formatCurrency (value : jsstring) : option jsstring :=
  match firstMatch numberRegex value with
  | Some numberMatch =>
      let numStr := removeCommas (matched numberMatch) in
      let numStr : option jsstring :=
        if includes (toLowerCase numStr) "k" then
          optBind (parseFloat numStr) (fun x =>
          optBind (times x 1000) (fun y => Some (numberToString y)))
        else if includes (toLowerCase numStr) "m"
                || includes (toLowerCase numStr) "million" then
          optBind (parseFloat numStr) (fun x =>
          optBind (times x 1000000) (fun y => Some (numberToString y)))
        else Some numStr in
      optBind numStr (fun numStr =>
      optBind (parseFloat numStr) (fun x =>
      Some (("$" : jsstring) ++ toLocaleString x)))
  | None =>
      if negb (startsWith value "$") then Some (("$" : jsstring) ++ value)
      else Some value
  end.

Definition extractValue (input : jsstring) (placeholder : PlaceholderInfo)
  : option jsstring :=
  let value := trim input in
  let value : option jsstring :=
    if isCurrencyKind placeholder then formatCurrency value else Some value in
  optBind value (fun value =>
    if includes (toLowerCase (key placeholder)) "date" then
      if regexTest dateRegex value then Some value else Some value
    else Some value).

(** ** DocumentProcessor.generateCompletedDocument *)

(** [GetSubstitution] for a replacement string when the pattern has no
    capture group: [$$], [$&], [$`] and [$'] are expanded, any other [$]
    stands for itself. *)
Fixpoint getSubstitution (matched before after template : jsstring)
  : jsstring :=
  match template with
  | [] => []
  | c :: t =>
      if isChar "$" c then
        match t with
        | d :: t' =>
            if isChar "$" d
            then c :: getSubstitution matched before after t'
            else if isChar "&" d
            then matched ++ getSubstitution matched before after t'
            else if isChar "`" d
            then before ++ getSubstitution matched before after t'
            else if isChar "'" d
            then after ++ getSubstitution matched before after t'
            else c :: getSubstitution matched before after t
        | [] => [c]
        end
      else c :: getSubstitution matched before after t
  end.

(** [str.replace(pattern, replacement)] with a string pattern: the first
    occurrence only. *)
Definition replaceFirst (str pattern replacement : jsstring) : jsstring :=
  let i := indexOf str pattern in
  if i <? 0 then str
  else
    let before := substring str 0 i in
    let after := substringFrom str (i + len pattern) in
    before ++ getSubstitution pattern before after replacement ++ after.

(** [str.replace(re, replacement)] with a [g] pattern: every match, left to
    right, none overlapping another. *)
Fixpoint replaceAllFrom (re : Matcher) (replacement whole : jsstring)
    (skip i : nat) (prev : option ascii) (s : jsstring) : jsstring :=
  match s with
  | [] => []
  | c :: s' =>
      match skip with
      | S k => replaceAllFrom re replacement whole k (S i) (Some c) s'
      | O =>
          match re prev s with
          | Some (m, _) =>
              getSubstitution m (firstn i whole) (skipn (length m) s) replacement
                ++ replaceAllFrom re replacement whole (length m - 1) (S i)
                     (Some c) s'
          | None =>
              c :: replaceAllFrom re replacement whole 0 (S i) (Some c) s'
          end
      end
  end.

Definition replaceAll (re : Matcher) (str replacement : jsstring) : jsstring :=
  replaceAllFrom re replacement str 0 0 None str.

(** [value.replace(/^\$/, '')] *)
Definition stripDollar (v : jsstring) : jsstring :=
  match v with
  | c :: r => if isChar "$" c then r else v
  | [] => v
  end.

Definition formatValue (i : PlaceholderInfo) (v : jsstring) : jsstring :=
  if negb (isEmpty (prefix i)) && negb (startsWith v (prefix i))
  then prefix i ++ stripDollar v else v.

(** [key.replace(/_\d+$/, '')] *)
Definition displayKey (k : jsstring) : jsstring :=
  let r := rev k in
  let ds := takeWhile isDigit r in
  match skipn (length ds) r with
  | c :: rest => if negb (isEmpty ds) && isChar "_" c then rev rest else k
  | [] => k
  end.

Definition isLabelFormat (format : jsstring) : bool :=
  endsWith format ":" && negb (includes format "[").

Definition isSome {A} (x : option A) : bool :=
  match x with Some _ => true | None => false end.

Definition partyName (p : Party) : jsstring :=
  match p with company => "company" | investor => "investor" end.

(** Template-literal conversion of a position. *)
Definition integerToString (z : Z) : jsstring :=
  if z <? 0 then "-"%char :: decimal (Z.to_N (- z)) else decimal (Z.to_N z).

Definition groupKeyOf (data : PlaceholderData) : jsstring :=
  let format := originalFormat (info data) in
  match context (info data) with
  | Some p =>
      if isLabelFormat format
      then format ++ ":" ++ partyName p ++ ":" ++
           integerToString (match position (info data) with
                            | Some z => z
                            | None => 0
                            end)
      else format
  | None => format
  end.

Definition Entry := (jsstring * PlaceholderData)%type.

(** [formatGroups]: the entries of [filled] gathered under their group key,
    groups in the order their first entry arrives. *)
Definition addToGroup (groups : JsMap (list Entry)) (e : Entry)
  : JsMap (list Entry) :=
  let groupKey := groupKeyOf (snd e) in
  match Map_get groups groupKey with
  | Some g => Map_set groups groupKey (g ++ [e])
  | None => Map_set groups groupKey [e]
  end.

Definition formatGroups (filled : JsMap PlaceholderData) : JsMap (list Entry) :=
  fold_left addToGroup filled [].

(** The party a label occurrence of the rendered text is read to belong to,
    from the 2000 code units before it. *)
Definition labelContext (completed : jsstring) (labelIndex : Z) : option Party :=
  let beforeText :=
    toLowerCase (substring completed (Z.max 0 (labelIndex - 2000)) labelIndex) in
  let companyMarker := lastIndexOf beforeText "company" in
  let investorMarker := lastIndexOf beforeText "investor" in
  if (companyMarker >? investorMarker) && (companyMarker >=? 0) then Some company
  else if (investorMarker >=? 0) && (investorMarker >? companyMarker)
       then Some investor
  else if companyMarker >=? 0 then Some company
  else if investorMarker >=? 0 then Some investor
  else None.

(** [completed.substring(0, i) + originalFormat + ' ' + formattedValue +
     completed.substring(i + originalFormat.length)] *)
Definition appendAfterLabel (completed originalFormat formattedValue : jsstring)
    (i : Z) : jsstring :=
  substring completed 0 i ++ originalFormat ++ " " ++ formattedValue
    ++ substringFrom completed (i + len originalFormat).

(** [allLabels.find((label, idx) => ...)] *)
Fixpoint findMatchingLabel (ctx : Party) (pos : Z)
    (earlier rest : list (Z * option Party)) : option Z :=
  match rest with
  | [] => None
  | label :: rest' =>
      let ok :=
        context_eqb (snd label) (Some ctx) &&
        (let positionDiff := Z.abs (fst label - pos) in
         let isFirstOfContext :=
           forallb (fun l => negb (context_eqb (snd l) (Some ctx))
                             || (fst l >? fst label)) earlier in
         isFirstOfContext || (positionDiff <? 500)) in
      if ok then Some (fst label)
      else findMatchingLabel ctx pos (earlier ++ [label]) rest'
  end.

(** [/(?:\[COMPANY\]|COMPANY|COMPANY:)/gi] and [/(?:INVESTOR|INVESTOR:)/gi] *)
Definition contextMarker (ctx : Party) : Matcher :=
  match ctx with
  | company =>
      alternatives
        [ ciLiteral "[COMPANY]"; ciLiteral "COMPANY"; ciLiteral "COMPANY:" ]
  | investor => alternatives [ ciLiteral "INVESTOR"; ciLiteral "INVESTOR:" ]
  end.

(** [/^[_\s]*$/.test(s)] *)
Definition isBlankText (s : jsstring) : bool :=
  forallb (fun c => isChar "_" c || isWhiteSpace c) s.

(** The context-based search: the first label occurrence that lies within
    1000 code units after a marker of its party and has nothing but blanks
    in the 50 code units after it. *)
Definition contextSearch (completed originalFormat : jsstring) (ctx : Party)
  : option Z :=
  let contextMatches := execAll (contextMarker ctx) completed in
  let relevant (labelIndex : Z) (c : RegExpMatch) : bool :=
    (labelIndex >? index c) &&
    (labelIndex <? index c + len (matched c) + 1000) &&
    includes
      (toLowerCase (substring completed (index c) (index c + len (matched c))))
      (partyName ctx) in
  let free (labelIndex : Z) : bool :=
    isBlankText
      (trim (substring completed (labelIndex + len originalFormat)
               (labelIndex + len originalFormat + 50))) in
  option_map index
    (find (fun l => existsb (relevant (index l)) contextMatches
                    && free (index l))
          (execAll (literal originalFormat) completed)).

Definition replaceLabel (completed originalFormat formattedValue : jsstring)
    (i : PlaceholderInfo) : jsstring :=
  let firstOccurrence :=
    let firstIndex := indexOf completed originalFormat in
    if firstIndex >=? 0
    then appendAfterLabel completed originalFormat formattedValue firstIndex
    else completed in
  match context i, position i with
  | Some ctx, Some pos =>
      let allLabels :=
        map (fun l => (index l, labelContext completed (index l)))
            (execAll (literal originalFormat) completed) in
      match findMatchingLabel ctx pos [] allLabels with
      | Some labelIndex =>
          appendAfterLabel completed originalFormat formattedValue labelIndex
      | None =>
          match contextSearch completed originalFormat ctx with
          | Some labelIndex =>
              appendAfterLabel completed originalFormat formattedValue
                labelIndex
          | None => firstOccurrence
          end
      end
  | _, _ => firstOccurrence
  end.

Definition normalizedPatterns (k : jsstring) : list jsstring :=
  [ "[" ++ k ++ "]"; "{" ++ k ++ "}"; "{{" ++ k ++ "}}"; "<<" ++ k ++ ">>" ].

(** The replacements that follow the entry's own: [[COMPANY]] for the key
    [Company Name], then the four normalized spellings of the key, each a
    literal pattern with the [g] and [i] flags. *)
Definition replaceNormalized (completed k formattedValue : jsstring)
  : jsstring :=
  let dk := displayKey k in
  let completed :=
    if jsstring_eqb dk "Company Name"
    then replaceAll (ciLiteral "[COMPANY]") completed formattedValue
    else completed in
  fold_left (fun c pattern => replaceAll (ciLiteral pattern) c formattedValue)
    (normalizedPatterns dk) completed.

(** The body of [group.forEach] for one entry of the group [groupKey]. *)
Definition renderEntry (groupKey : jsstring) (completed : jsstring) (e : Entry)
  : jsstring :=
  let '(k, data) := e in
  let i := info data in
  let originalFormat :=
    if includes groupKey ":" && negb (includes groupKey "[")
       && isSome (context i)
    then beforeFirstColon groupKey ++ ":" else originalFormat i in
  let formattedValue := formatValue i (value data) in
  let completed :=
    if isLabelFormat originalFormat
    then replaceLabel completed originalFormat formattedValue i
    else replaceFirst completed originalFormat formattedValue in
  if negb (isCurrencyBlank (type i))
  then replaceNormalized completed k formattedValue
  else completed.

Definition renderGroup (completed : jsstring) (g : jsstring * list Entry)
  : jsstring :=
  fold_left (renderEntry (fst g)) (snd g) completed.

(** The text handed to [onDocumentCompleted]. *)
Definition generateCompletedDocument (documentContent : jsstring)
    (filled : JsMap PlaceholderData) : jsstring :=
  fold_left renderGroup (formatGroups filled) documentContent.

(** ** DocumentViewer.handleDownload

    The order in which the entries of [filledData] are written into the
    markup.  What is done to the markup for one entry (the bodies of the two
    [forEach] loops, which also thread [replacedPositions]) and the clean-up
    of trailing paragraphs do not bear on that order; they are the
    parameters of the section. *)

Definition isLabelField (data : PlaceholderData) : bool :=
  endsWith (originalFormat (info data)) ":"
  && negb (includes (originalFormat (info data)) "[").

Definition entryPosition (e : Entry) : Z :=
  match position (info (snd e)) with Some z => z | None => 0 end.

Definition goesToLabelFields (e : Entry) : bool :=
  isLabelField (snd e) && isSome (position (info (snd e))).

Definition labelFieldsOf (filledData : JsMap PlaceholderData) : list Entry :=
  filter goesToLabelFields filledData.

Definition otherFieldsOf (filledData : JsMap PlaceholderData) : list Entry :=
  filter (fun e => negb (goesToLabelFields e)) filledData.

(** [labelFields.sort((a, b) => b.position - a.position)] *)
Definition sortedLabelFields (filledData : JsMap PlaceholderData) : list Entry :=
  sortBy (fun a b => entryPosition b - entryPosition a)
    (labelFieldsOf filledData).

Definition processingOrder (filledData : JsMap PlaceholderData) : list Entry :=
  sortedLabelFields filledData ++ otherFieldsOf filledData.

Section HandleDownload.

Variable Markup : Type.
Variable processLabelField : Markup -> Entry -> Markup.
Variable processOtherField : Markup -> Entry -> Markup.
Variable cleanUp : Markup -> Markup.

Definition handleDownload (filledData : JsMap PlaceholderData)
    (docXml : Markup) : Markup :=
  let modifiedXml :=
    fold_left processLabelField (sortedLabelFields filledData) docXml in
  let modifiedXml :=
    fold_left processOtherField (otherFieldsOf filledData) modifiedXml in
  cleanUp modifiedXml.

Definition processField (xml : Markup) (e : Entry) : Markup :=
  if goesToLabelFields e then processLabelField xml e
  else processOtherField xml e.

End HandleDownload.

(** ** Vocabulary of the statements *)

Definition purchaseAmountKey : jsstring := "Purchase Amount".
Definition valuationCapKey : jsstring := "Post-Money Valuation Cap".

(** The entries of a catalog whose [originalFormat] is [token]. *)
Definition entriesWithFormat (token : jsstring) (catalog : JsMap PlaceholderInfo)
  : list (jsstring * PlaceholderInfo) :=
  filter (fun e => jsstring_eqb (originalFormat (snd e)) token) catalog.

Definition entriesWithKey {V} (k : jsstring) (m : JsMap V) : list (jsstring * V) :=
  filter (fun e => jsstring_eqb (fst e) k) m.

(** The occurrences of [sub] in [s], overlapping ones included. *)
Fixpoint countOccurrences (s sub : jsstring) : nat :=
  (if startsWith s sub then 1 else 0)%nat +
  match s with
  | [] => 0%nat
  | _ :: s' => countOccurrences s' sub
  end.

(** A placeholder of currency kind and one of date kind, as the scanner
    produces them. *)
Definition currencyPlaceholder : PlaceholderInfo :=
  currencyInfo purchaseAmountKey "$[_____]".

Definition datePlaceholder : PlaceholderInfo :=
  mkInfo "Date of Safe" "[Date of Safe]" [] square None None.

Definition lineFeed : jsstring := [ascii_of_nat 10].


(** Documents and maps on which the statements are tried. *)

(** Two labels of the company section at different offsets. *)
Definition twoCompanyAddresses : jsstring :=
  "COMPANY" ++ lineFeed ++ "Address:" ++ lineFeed ++ "Address:" ++ lineFeed.

(** The signature block of the specification: a company marker, a label,
    an investor marker, the label again. *)
Definition signaturePage : jsstring :=
  "COMPANY" ++ lineFeed ++ "Address:" ++ lineFeed
    ++ "INVESTOR" ++ lineFeed ++ "Address:" ++ lineFeed.

Definition labelEntry (k label : jsstring) (p : Party) (pos : Z) (v : jsstring)
  : Entry :=
  (k, mkData (mkInfo k label [] square (Some p) (Some pos)) v).

Definition literalEntry (k token v : jsstring) : Entry :=
  (k, mkData (mkInfo k token [] square None None) v).

Definition mixedEntries : JsMap PlaceholderData :=
  [ literalEntry "Company Name" "[Company Name]" "Acme";
    labelEntry "Company Address" "Address:" company 8 "1 Main St";
    labelEntry "Investor Address" "Address:" investor 26 "2 Side St" ].

(** The keys the third pass files labels under. *)
Definition labelKeys : list jsstring :=
  [ "Company Address" : jsstring; "Company Email" : jsstring;
    "Company Name Field" : jsstring; "Company Title" : jsstring;
    "Investor Address" : jsstring; "Investor Email" : jsstring;
    "Investor Name" : jsstring; "Investor Title" : jsstring ].

(** A blank that has a purchase keyword and a valuation keyword around it. *)
Definition purchaseNearCap : jsstring := "purchase $[___] cap".

(** Two blanks with no keyword around them. *)
Definition twoPlainBlanks : jsstring := "pay $[___] and $[__] later".

(** [c] is the signature marker nearest before a label at [labelIndex],
    fewer than 3000 code units before it; a marker at the same place
    names the same party. *)
Definition nearestMarkerBefore (sigs : list SignatureMatch) (labelIndex : Z)
    (c : SignatureMatch) : Prop :=
  In c sigs
  /\ sig_index c < labelIndex
  /\ labelIndex - sig_index c < 3000
  /\ forall s, In s sigs -> sig_index s < labelIndex ->
               sig_index s < sig_index c \/ sig_type s = sig_type c.

(** [/\bAddress:\s*$/gim], the first of [labelFields]. *)
Definition addressRegex : Matcher :=
  ciLiteralToLineEnd atWordBoundary "Address:".

(** The signature page with 2993 code units of text between the company
    marker and the first label. *)
Definition longCompanySection : jsstring :=
  "COMPANY" ++ repeat "x"%char 2993 ++ lineFeed ++ "Address:" ++ lineFeed
    ++ "INVESTOR" ++ lineFeed ++ "Address:" ++ lineFeed.

(** Text that holds none of the code units placeholders are written with:
    no delimiter, no [$], no colon. *)
Definition plainChar (c : ascii) : bool := isNot "[]{}<>$:" c.

Definition plainText (s : jsstring) : bool := forallb plainChar s.

(** The key the second pass derives from the text between the delimiters. *)
Definition normalizedKeyOf (captured : jsstring) : jsstring :=
  trim (collapseWhitespace false (trim captured)).

(** A literal-delimiter token of each kind around [body]. *)
Definition tokenOf (ty : PlaceholderType) (body : jsstring) : jsstring :=
  match ty with
  | double_curly => "{{" ++ body ++ "}}"
  | angle => "<<" ++ body ++ ">>"
  | square => "[" ++ body ++ "]"
  | curly => "{" ++ body ++ "}"
  | currency_blank => "$[" ++ body ++ "]"
  end.

(** The code unit before the position reached after passing [m]. *)
Definition lastOf (prev : option ascii) (m : jsstring) : option ascii :=
  last (map Some m) prev.

(** [s] holds no code unit [o]. *)
Definition lacks (o : ascii) (s : jsstring) : bool :=
  forallb (fun c => negb (Ascii.eqb c o)) s.

(** The label [label] is written, in any case, at offset [z] of [text]. *)
Definition labelAt (text label : jsstring) (z : Z) : bool :=
  ciStartsWith (skipn (Z.to_nat z) text) (label ++ ":").

Definition labelNames : list jsstring := map snd labelFields.

(** An entry that records a position was filed by the third pass, for a
    label written at that position; [ok] says which labels and positions are
    possible. *)
Definition recordedBy (text : jsstring) (ok : jsstring -> Z -> Prop)
    (e : jsstring * PlaceholderInfo) : Prop :=
  forall z, position (snd e) = Some z ->
    exists label p,
      fst e = uniqueKey p label /\ labelAt text label z = true /\ ok label z.

(** No two keys of a catalog record the same position. *)
Definition distinctPositions (placeholders : JsMap PlaceholderInfo) : Prop :=
  forall e1 e2 z,
    In e1 placeholders -> In e2 placeholders ->
    position (snd e1) = Some z -> position (snd e2) = Some z ->
    fst e1 = fst e2.

(** The descriptors of a filled map are those of a catalog. *)
Definition describedBy (catalog : JsMap PlaceholderInfo)
    (filledData : JsMap PlaceholderData) : Prop :=
  forall e, In e filledData -> In (fst e, info (snd e)) catalog.

(** A text that begins as a literal-delimiter token does. *)
Definition opensToken (token : jsstring) : bool :=
  match token with
  | c :: _ => isOneOf "[{<" c
  | [] => false
  end.

(** A document with two tokens that share a key. *)
Definition sameKeyTwice : jsstring := "[Name] {Name}".

(** A replacement string in which no [$] starts one of the patterns [$$],
    [$&], [$`], [$']: it is inserted as it stands. *)
Fixpoint plainReplacement (template : jsstring) : bool :=
  match template with
  | [] => true
  | c :: t =>
      (if isChar "$" c then
         match t with
         | d :: _ => negb (isChar "$" d || isChar "&" d || isChar "`" d
                           || isChar "'" d)
         | [] => true
         end
       else true)
      && plainReplacement t
  end.

(** A value that cannot take part in a new occurrence of [token] when it is
    written into a text: it is not empty, it is inserted as it stands, it
    holds no delimiter, and it does not occur inside the token. *)
Definition safeValue (token v : jsstring) : bool :=
  negb (isEmpty v) && plainReplacement v
  && forallb (isNot "[]{}<>") v && negb (includes token v).

(** The entries in the order [generateCompletedDocument] renders them, each
    with the key of its group. *)
Definition renderSteps (filled : JsMap PlaceholderData)
  : list (jsstring * Entry) :=
  flat_map (fun g => map (fun e => (fst g, e)) (snd g)) (formatGroups filled).

(** [s'] comes from [s] by replacing segments with strings taken from [W];
    [K] holds of the rest of [s] at every code unit that is kept. *)
Inductive Edit (K W : jsstring -> Prop) : jsstring -> jsstring -> Prop :=
| Edit_nil : Edit K W [] []
| Edit_keep (c : ascii) (s s' : jsstring) :
    K (c :: s) -> Edit K W s s' -> Edit K W (c :: s) (c :: s')
| Edit_subst (m w s s' : jsstring) :
    W w -> Edit K W s s' -> Edit K W (m ++ s) (w ++ s').

(** What the insertion of [w] needs so that no occurrence of [token] can
    run into it. *)
Definition Safe (token w : jsstring) : Prop :=
  w <> []
  /\ (forall c, In c w -> hd_error token <> Some c)
  /\ (forall c, In c w -> last (map Some token) None <> Some c)
  /\ includes token w = false.

(** The kept places and the inserted strings of the edits the renderer
    makes: any place, the places where a literal does not match, and the
    one string inserted. *)
Definition anywhere (x : jsstring) : Prop := True.

Definition noMatchOf (p x : jsstring) : Prop := ciStartsWith x p = false.

Definition exactly (v w : jsstring) : Prop := w = v.

(** Every entry of the groups, in rendering order. *)
Definition groupedEntries (groups : JsMap (list Entry)) : list Entry :=
  flat_map snd groups.

(** A map that gives every key of a catalog the same value. *)
Definition fillWith (v : jsstring) (catalog : JsMap PlaceholderInfo)
  : JsMap PlaceholderData :=
  map (fun p => (fst p, mkData (snd p) v)) catalog.

(** A token with blanks inside the brackets, twice. *)
Definition paddedTwice : jsstring := "[ A ] [ A ]".

(** A token and its spellings in other cases and delimiters. *)
Definition manySpellings : jsstring :=
  "[Company Name], [company name] and {{Company Name}}".

Definition acme : JsMap PlaceholderData :=
  [ literalEntry "Company Name" "[Company Name]" "Acme Corp";
    labelEntry "Company Address" "Address:" company 8 "1 Main St" ].

(** An entry that records no position, as every entry before the third
    pass. *)
Definition noPosition (e : jsstring * PlaceholderInfo) : Prop :=
  position (snd e) = None.

(** The matches of the second pass in the order it visits them, pattern by
    pattern, each with the kind of its pattern. *)
Definition literalMatches (text : jsstring)
  : list (PlaceholderType * RegExpMatch) :=
  flat_map (fun p => map (fun m => (snd p, m)) (execAll (fst p) text))
    patterns.

(** The key the second pass gives a match: that of the entry the match puts
    into an empty catalog, and none for a match it passes over. *)
Definition keyOfMatch (text : jsstring) (tm : PlaceholderType * RegExpMatch)
  : option jsstring :=
  option_map fst
    (hd_error (fst (processLiteralMatch text (fst tm) ([], []) (snd tm)))).

(** The key [k] of the token [token] is free when the second pass reaches
    it: the first pass has not taken it and no match visited earlier has
    the text of the token or its key. *)
Definition notTaken (text k token : jsstring)
    (earlier : list (PlaceholderType * RegExpMatch)) : Prop :=
  Map_get (c_placeholders (currencyPass text)) k = None
  /\ forall tm, In tm earlier ->
       matched (snd tm) <> token /\ keyOfMatch text tm <> Some k.

(** Nothing files another entry under the key [k] of the token afterwards:
    no [[COMPANY]] visited later, which is filed under [Company Name]
    whether or not that key is taken, and no label of the third pass. *)
Definition notOverwritten (text k token : jsstring)
    (later : list (PlaceholderType * RegExpMatch)) : Prop :=
  (k = ("Company Name" : jsstring) ->
   forall tm, In tm later -> keyOfMatch text tm = Some k ->
     matched (snd tm) = ("[COMPANY]" : jsstring) ->
     token = ("[COMPANY]" : jsstring))
  /\ (forall lf m p,
        In lf labelFields -> In m (execAll (fst lf) text) ->
        resolveContext (signatureMatches text) (index m) = Some p ->
        uniqueKey p (snd lf) <> k).

(** A letter with two tokens of the same kind. *)
Definition twoTokens : jsstring := "Dear [Investor Name], pay [Sum].".

(** A double-curly token between two single-curly tokens. *)
Definition amongTokens : jsstring := "{A} {{X}} {B}".

(** A text that ends as a literal-delimiter token does, and one that both
    begins and ends as such a token. *)
Definition closesToken (token : jsstring) : bool :=
  match rev token with
  | c :: _ => isOneOf "]}>" c
  | [] => false
  end.

Definition delimitedToken (token : jsstring) : bool :=
  opensToken token && closesToken token.

(** A token with blanks inside the brackets, once. *)
Definition paddedOnce : jsstring := "Dear [ Investor Name ], welcome.".

(** Three blanks with a valuation keyword near, the first and the third
    with the same text. *)
Definition repeatedBlank : jsstring := "cap $[_] cap $[__] cap $[_]".

(** A token whose key is the key of a label of the company section. *)
Definition tokenUnderLabel : jsstring :=
  "[Company Address]" ++ lineFeed ++ "COMPANY" ++ lineFeed
    ++ "Address:" ++ lineFeed.

(** A double-curly token and a square token with the key [{X]. *)
Definition braceKeyTaken : jsstring := "{{X}} [{X]".

(** * The rest of the placeholder engine *)

(** ** DocumentProcessor.generateFallbackPrompt *)

Definition quote : ascii := "034"%char.

(** The rule-based question for a placeholder; the tests are those of the
    source, in its order. *)
Definition generateFallbackPrompt (placeholder : PlaceholderInfo) : jsstring :=
  let dk := displayKey (key placeholder) in
  let k := toLowerCase dk in
  if includes k "company" || includes k "company name" then
    "What is the Company Name?"
  else if jsstring_eqb dk "COMPANY" then
    "What is the Company Name (for signature block)?"
  else if includes k "investor" || includes k "investor name" then
    "What is the Investor's Name?"
  else if includes k "purchase" || includes k "amount" || includes k "value" then
    "What is the Purchase Amount (in USD)?"
  else if includes k "date" || includes k "safe" then
    "On what Date was the SAFE executed?"
  else if includes k "state" || includes k "incorporation" then
    "What is the State of Incorporation for the company?"
  else if includes k "valuation" || includes k "cap" then
    "What is the Post-Money Valuation Cap?"
  else if includes k "governing" || includes k "law"
          || includes k "jurisdiction" then
    "Which State's laws will govern this agreement?"
  else if includes k "title" && includes k "company" then
    "What is the Company Signatory's Title?"
  else if includes k "address" && includes k "company" then
    "Please provide the Company Address."
  else if includes k "email" && includes k "company" then
    "Please provide the Company Email."
  else if includes k "name" && includes k "company" && includes k "field" then
    "What is the Company Signatory's Name?"
  else if includes k "address" && includes k "investor" then
    "What is the Investor's Address?"
  else if includes k "email" && includes k "investor" then
    "What is the Investor's Email?"
  else if includes k "title" && includes k "investor" then
    "What is the Investor's Title (if any)?"
  else if includes k "name" && includes k "investor" then
    "What is the Investor's Name?"
  else
    "I found a placeholder: " ++ quote :: dk ++ quote
      :: ". What value should I use for this?".

(** The questions [generateFallbackPrompt] can ask. *)
Definition fallbackPrompts (dk : jsstring) : list jsstring :=
  [ "What is the Company Name?" : jsstring;
    "What is the Investor's Name?" : jsstring;
    "What is the Purchase Amount (in USD)?" : jsstring;
    "On what Date was the SAFE executed?" : jsstring;
    "What is the State of Incorporation for the company?" : jsstring;
    "What is the Post-Money Valuation Cap?" : jsstring;
    "Which State's laws will govern this agreement?" : jsstring;
    "I found a placeholder: " ++ quote :: dk ++ quote
      :: ". What value should I use for this?" ].

(** ** DocumentProcessor: the order of the questions *)

(** [getPlaceholderOrder]; the source's numbers 1 .. 7, 8.1 .. 8.4,
    9.1 .. 9.4 and 999 are written in tenths. *)
Definition getPlaceholderOrder (k : jsstring) : Z :=
  let lowerKey := toLowerCase k in
  if jsstring_eqb lowerKey "company name" || jsstring_eqb lowerKey "company"
  then 10
  else if jsstring_eqb lowerKey "investor name" then 20
  else if jsstring_eqb lowerKey "purchase amount"
          || (includes lowerKey "purchase" && includes lowerKey "amount")
  then 30
  else if includes lowerKey "date"
          && (includes lowerKey "safe" || includes lowerKey "agreement")
  then 40
  else if jsstring_eqb lowerKey "date" || jsstring_eqb lowerKey "date of safe"
  then 40
  else if includes lowerKey "state" && includes lowerKey "incorporation"
  then 50
  else if jsstring_eqb lowerKey "state of incorporation"
          || jsstring_eqb lowerKey "state"
  then 50
  else if includes lowerKey "valuation" || includes lowerKey "cap"
          || jsstring_eqb lowerKey "post-money valuation cap"
  then 60
  else if includes lowerKey "governing" || includes lowerKey "jurisdiction"
          || includes lowerKey "law"
  then 70
  else
    let companyField :=
      if includes lowerKey "company"
         && negb (jsstring_eqb lowerKey "company name")
         && negb (jsstring_eqb lowerKey "company")
      then
        if includes lowerKey "name" && negb (includes lowerKey "investor")
        then Some 81
        else if includes lowerKey "title" then Some 82
        else if includes lowerKey "address" then Some 83
        else if includes lowerKey "email" then Some 84
        else None
      else None in
    match companyField with
    | Some order => order
    | None =>
        let investorField :=
          if includes lowerKey "investor" then
            if includes lowerKey "name" then Some 91
            else if includes lowerKey "title" then Some 92
            else if includes lowerKey "address" then Some 93
            else if includes lowerKey "email" then Some 94
            else None
          else None in
        match investorField with
        | Some order => order
        | None => 9990
        end
    end.

(** [order.indexOf(order.find(field => lower.includes(field)) || '')] *)
Fixpoint fieldIndexFrom (i : Z) (fields : list jsstring) (lower : jsstring) : Z :=
  match fields with
  | [] => -1
  | field :: rest =>
      if includes lower field then i else fieldIndexFrom (i + 1) rest lower
  end.

Definition signatoryFields : list jsstring :=
  [ "name" : jsstring; "title" : jsstring; "address" : jsstring;
    "email" : jsstring ].

Definition fieldIndex (lower : jsstring) : Z :=
  fieldIndexFrom 0 signatoryFields lower.

Section PlaceholderKeys.

(** [String.prototype.localeCompare] follows the collation of the host; it
    is a parameter here. *)
Variable localeCompare : jsstring -> jsstring -> Z.

(** The comparator handed to [keys.sort]. *)
Definition compareKeys (a b : jsstring) : Z :=
  let aOrder := getPlaceholderOrder a in
  let bOrder := getPlaceholderOrder b in
  if negb (aOrder =? bOrder) then aOrder - bOrder
  else
    let aLower := toLowerCase a in
    let bLower := toLowerCase b in
    let bySubOrder (lo hi : Z) : option Z :=
      if (aOrder >=? lo) && (aOrder <? hi) && (bOrder >=? lo) && (bOrder <? hi)
      then
        let aFieldIndex := fieldIndex aLower in
        let bFieldIndex := fieldIndex bLower in
        if negb (aFieldIndex =? -1) && negb (bFieldIndex =? -1)
           && negb (aFieldIndex =? bFieldIndex)
        then Some (aFieldIndex - bFieldIndex) else None
      else None in
    match bySubOrder 80 90 with
    | Some r => r
    | None =>
        match bySubOrder 90 100 with
        | Some r => r
        | None => localeCompare a b
        end
    end.

(** [placeholderKeys]: the keys of the catalog as [keys.sort(compareKeys)]
    leaves them.  The sort is stable; with a comparator that is a
    consistent ordering its result is the one of a stable insertion
    sort. *)
Definition placeholderKeys (placeholders : JsMap PlaceholderInfo)
  : list jsstring :=
  sortBy compareKeys (Map_keys placeholders).

End PlaceholderKeys.

(** ** DocumentViewer: values written into the markup *)

(** [formattedValue.replace(/&/g, '&amp;').replace(/</g, '&lt;')
      .replace(/>/g, '&gt;')] *)
Definition escapedValue (formattedValue : jsstring) : jsstring :=
  replaceAll (literal ">")
    (replaceAll (literal "<")
       (replaceAll (literal "&") formattedValue "&amp;") "&lt;") "&gt;".

(** ** DocumentViewer.formatContent *)

(** [text.split(sep)] for a separator of one code unit. *)
Fixpoint split (sep : ascii) (text : jsstring) : list jsstring :=
  match text with
  | [] => [[]]
  | c :: rest =>
      if Ascii.eqb c sep then [] :: split sep rest
      else
        match split sep rest with
        | piece :: pieces => (c :: piece) :: pieces
        | [] => [[c]]
        end
  end.

(** [pieces.join(sep)] *)
Fixpoint join (sep : ascii) (pieces : list jsstring) : jsstring :=
  match pieces with
  | [] => []
  | [piece] => piece
  | piece :: rest => piece ++ sep :: join sep rest
  end.

(** The elements [formatContent] returns: a line break or a paragraph, with
    the [key] it is given. *)
Inductive Block :=
| lineBreak (key : nat)
| paragraph (key : nat) (para : jsstring).

Definition blockText (b : Block) : jsstring :=
  match b with
  | lineBreak _ => []
  | paragraph _ para => para
  end.

Definition blockKey (b : Block) : nat :=
  match b with
  | lineBreak k => k
  | paragraph k _ => k
  end.

Fixpoint mapWithIndex {A B} (f : A -> nat -> B) (i : nat) (l : list A) : list B :=
  match l with
  | [] => []
  | x :: rest => f x i :: mapWithIndex f (S i) rest
  end.

Definition formatContent (text : jsstring) : list Block :=
  let paragraphs :=
    filter (fun p => negb (isEmpty (trim p)) || isEmpty p)
      (split "010"%char text) in
  mapWithIndex
    (fun para index =>
       if isEmpty (trim para) then lineBreak index else paragraph index para)
    0 paragraphs.

(** What becomes of one code unit of a value in [escapedValue]. *)
Definition escapedCodeUnit (x : ascii) : jsstring :=
  if Ascii.eqb "&" x then "&amp;"
  else if Ascii.eqb "<" x then "&lt;"
  else if Ascii.eqb ">" x then "&gt;"
  else [x].

(** ** The entries of a catalog *)

(** An entry of the first pass. *)
Definition currencyShape (e : jsstring * PlaceholderInfo) : Prop :=
  type (snd e) = currency_blank /\ prefix (snd e) = ("$" : jsstring)
  /\ context (snd e) = None /\ position (snd e) = None
  /\ (fst e = purchaseAmountKey \/ fst e = valuationCapKey).

(** An entry of the second pass. *)
Definition tokenShape (e : jsstring * PlaceholderInfo) : Prop :=
  In (type (snd e)) (map snd patterns) /\ prefix (snd e) = []
  /\ context (snd e) = None /\ position (snd e) = None.

(** An entry of the third pass: it records the party the label was resolved
    to and the offset at which the label is written. *)
Definition labelShape (text : jsstring) (e : jsstring * PlaceholderInfo)
  : Prop :=
  type (snd e) = square /\ prefix (snd e) = []
  /\ exists p label z,
       In label labelNames /\ fst e = uniqueKey p label
       /\ context (snd e) = Some p /\ position (snd e) = Some z
       /\ 0 <= z /\ labelAt text label z = true
       /\ resolveContext (signatureMatches text) z = Some p.

Definition wellFormed (text : jsstring) (e : jsstring * PlaceholderInfo)
  : Prop :=
  key (snd e) = fst e
  /\ includes text (originalFormat (snd e)) = true
  /\ (currencyShape e \/ tokenShape e \/ labelShape text e).

(** ** FileUpload.processFile *)

(** What [processFile] ends in: an alert, or the call of
    [onDocumentParsed]. *)
Inductive FileOutcome :=
| alerted (message : jsstring)
| documentParsed (content : jsstring) (placeholders : JsMap PlaceholderInfo).

(** [rawText] is what [mammoth.extractRawText] gives for the file, none
    when it throws. *)
Definition processFile (fileName : jsstring) (rawText : option jsstring)
  : FileOutcome :=
  if negb (endsWith fileName ".docx") then
    alerted "Please upload a .docx file"
  else
    match rawText with
    | Some content =>
        let placeholders := extractPlaceholders content in
        if Z.of_nat (length placeholders) =? 0 then
          alerted
            "No placeholders found in the document. Make sure your document contains placeholders like [Name], {Name}, {{Name}}, or <<Name>>"
        else documentParsed content placeholders
    | None =>
        alerted
          "Error processing file. Please make sure it is a valid .docx file."
    end.

(** ** DocumentProcessor: the conversation

    The state of the component and its handlers.  What the calls to the
    assistant resolve to is an argument of each handler: [reply] is the
    result of [processUserResponse] and [prompt] that of [generatePrompt],
    or of [generateFallbackPrompt] where the handler falls back on it.  A
    handler returns the state it leaves and the map it schedules
    [generateCompletedDocument] with, if it does. *)

Inductive Role := user | assistant.

Record Message := mkMessage {
  role : Role;
  message : jsstring
}.

Record ProcessorState := mkProcessorState {
  filledPlaceholders : JsMap PlaceholderData;
  currentPlaceholderKey : option jsstring;
  conversation : list Message;
  inputValue : jsstring;
  skippedPlaceholders : JsSet;
  isAIThinking : bool
}.

Definition initialState : ProcessorState :=
  mkProcessorState [] None [] [] [] false.

(** [/Next, I'll need|Next, I will need|Can you please provide|Would you like to continue/i] *)
Definition nextHintRegex : Matcher :=
  alternatives
    [ ciLiteral "Next, I'll need"; ciLiteral "Next, I will need";
      ciLiteral "Can you please provide";
      ciLiteral "Would you like to continue" ].

(** [aiResponse.split(nextHintRegex)[0].trim()] *)
Definition cleanedResponse (aiResponse : jsstring) : jsstring :=
  trim (match firstMatch nextHintRegex aiResponse with
        | Some m => substring aiResponse 0 (index m)
        | None => aiResponse
        end).

Section Conversation.

Variable localeCompare : jsstring -> jsstring -> Z.
Variable placeholders : JsMap PlaceholderInfo.

Definition keys : list jsstring := placeholderKeys localeCompare placeholders.

Definition size {V} (m : JsMap V) : Z := Z.of_nat (length m).

(** [placeholderKeys.find(key => !filled.has(key) && !skipped.has(key)
      && key !== current)] *)
Definition nextPlaceholderKey (filled : JsMap PlaceholderData)
    (skipped : JsSet) (current : jsstring) : option jsstring :=
  find (fun k => negb (Map_has filled k) && negb (Set_has skipped k)
                 && negb (jsstring_eqb k current)) keys.

(** The effect that opens the conversation.  Where [placeholders.get]
    finds nothing, [generatePrompt] and the fallback in the handler of the
    rejection both throw on reading the key of the placeholder, and the
    state stays as the statements before them left it; so in the handlers
    below. *)
Definition initialize (st : ProcessorState) (prompt : jsstring)
  : ProcessorState :=
  if (Z.of_nat (length keys) >? 0)
     && match currentPlaceholderKey st with
        | Some (_ :: _) => false
        | _ => true
        end
     && (Z.of_nat (length (conversation st)) =? 0)
  then
    match find (fun k => negb (Map_has (filledPlaceholders st) k)
                         && negb (Set_has (skippedPlaceholders st) k)) keys with
    | Some (c :: firstUnfilled) =>
        match Map_get placeholders (c :: firstUnfilled) with
        | Some _ =>
            mkProcessorState (filledPlaceholders st)
              (Some (c :: firstUnfilled))
              [mkMessage assistant (trim prompt)] (inputValue st)
              (skippedPlaceholders st) false
        | None =>
            mkProcessorState (filledPlaceholders st)
              (Some (c :: firstUnfilled)) (conversation st) (inputValue st)
              (skippedPlaceholders st) true
        end
    | _ => st
    end
  else st.

Definition handleSubmit (st : ProcessorState)
    (reply : jsstring * option jsstring) (prompt : jsstring)
  : ProcessorState * option (JsMap PlaceholderData) :=
  match currentPlaceholderKey st with
  | Some (c :: k) =>
      let current := c :: k in
      if isEmpty (trim (inputValue st)) || isAIThinking st then (st, None)
      else
        match Map_get placeholders current with
        | None =>
            (mkProcessorState (filledPlaceholders st)
               (currentPlaceholderKey st) (conversation st) (inputValue st)
               (skippedPlaceholders st) true, None)
        | Some placeholder =>
            let '(extractedValue, aiResponse) := reply in
            let newConversation :=
              conversation st ++ [mkMessage user (inputValue st)] in
            let newConversation :=
              match aiResponse with
              | Some (r :: response) =>
                  let cleaned := cleanedResponse (r :: response) in
                  if isEmpty cleaned then newConversation
                  else newConversation ++ [mkMessage assistant cleaned]
              | _ => newConversation
              end in
            let updated :=
              Map_set (filledPlaceholders st) current
                (mkData placeholder extractedValue) in
            match nextPlaceholderKey updated (skippedPlaceholders st) current with
            | Some (n :: next) =>
                match Map_get placeholders (n :: next) with
                | Some _ =>
                    (mkProcessorState updated (Some (n :: next))
                       (newConversation
                          ++ [mkMessage assistant (trim prompt)])
                       [] (skippedPlaceholders st) false, None)
                | None =>
                    (mkProcessorState updated (Some (n :: next))
                       (conversation st) (inputValue st)
                       (skippedPlaceholders st) true, None)
                end
            | _ =>
                let remainingCount := Z.of_nat (length keys) - size updated in
                if remainingCount >? 0 then
                  (mkProcessorState updated None
                     (newConversation ++
                        [mkMessage assistant
                           ("Great! You've filled "
                              ++ integerToString (size updated)
                              ++ " placeholder(s). We still have "
                              ++ integerToString remainingCount
                              ++ " remaining. Would you like to continue?")])
                     [] (skippedPlaceholders st) false, None)
                else
                  (mkProcessorState updated None
                     (newConversation ++
                        [mkMessage assistant
                           "All placeholders have been filled! Generating your completed document..."])
                     [] (skippedPlaceholders st) false, Some updated)
            end
        end
  | _ => (st, None)
  end.

Definition handleSkip (st : ProcessorState) (prompt : jsstring)
  : ProcessorState * option (JsMap PlaceholderData) :=
  match currentPlaceholderKey st with
  | Some (c :: k) =>
      let current := c :: k in
      if isAIThinking st then (st, None)
      else
        let skipped := Set_add (skippedPlaceholders st) current in
        let newConversation :=
          conversation st ++ [mkMessage user "[Skipped]"] in
        match nextPlaceholderKey (filledPlaceholders st)
                (skippedPlaceholders st) current with
        | Some (n :: next) =>
            match Map_get placeholders (n :: next) with
            | Some _ =>
                (mkProcessorState (filledPlaceholders st) (Some (n :: next))
                   (newConversation ++
                      [mkMessage assistant ("Skipped. " ++ trim prompt)])
                   [] skipped false, None)
            | None =>
                (mkProcessorState (filledPlaceholders st) (Some (n :: next))
                   (conversation st) (inputValue st) skipped false, None)
            end
        | _ =>
            let remainingCount :=
              Z.of_nat (length keys) - size (filledPlaceholders st) in
            if remainingCount >? 0 then
              (mkProcessorState (filledPlaceholders st) None
                 (newConversation ++
                    [mkMessage assistant
                       ("We still have " ++ integerToString remainingCount
                          ++ " placeholder(s) remaining. Would you like to continue?")])
                 [] skipped false, None)
            else
              (mkProcessorState (filledPlaceholders st) None
                 (newConversation ++
                    [mkMessage assistant
                       "All placeholders have been processed! Generating your completed document..."])
                 [] skipped false, Some (filledPlaceholders st))
        end
  | _ => (st, None)
  end.

(** [handleFillSpecific] for a key of [placeholders]; the component offers
    it for the keys of [filledPlaceholders] and for those of
    [placeholderKeys].  (For another key the render that follows would
    throw; no state is given for it.) *)
Definition handleFillSpecific (st : ProcessorState) (k : jsstring)
    (prompt : jsstring) : option ProcessorState :=
  match Map_get placeholders k with
  | Some _ =>
      Some (mkProcessorState (filledPlaceholders st) (Some k)
              (conversation st ++ [mkMessage assistant (trim prompt)])
              (inputValue st) (skippedPlaceholders st) false)
  | None => None
  end.

(** The states the component reaches from [initialState]: by the opening
    effect, by typing, and by the three handlers. *)
Inductive reachable : ProcessorState -> Prop :=
| reach_initial : reachable initialState
| reach_initialize st prompt :
    reachable st -> reachable (initialize st prompt)
| reach_input st v :
    reachable st ->
    reachable (mkProcessorState (filledPlaceholders st)
                 (currentPlaceholderKey st) (conversation st) v
                 (skippedPlaceholders st) (isAIThinking st))
| reach_submit st reply prompt :
    reachable st -> reachable (fst (handleSubmit st reply prompt))
| reach_skip st prompt :
    reachable st -> reachable (fst (handleSkip st prompt))
| reach_fill st k prompt st' :
    reachable st -> handleFillSpecific st k prompt = Some st' ->
    reachable st'.

End Conversation.

(** A catalog with one question, and the conversation that answers it. *)
Definition oneQuestion : JsMap PlaceholderInfo :=
  [ ("Company Name" : jsstring,
     mkInfo "Company Name" "[Company Name]" [] square None None) ].

Definition byOrderOnly (a b : jsstring) : Z := 0.

Definition askedState : ProcessorState :=
  mkProcessorState [] (Some ("Company Name" : jsstring))
    [mkMessage assistant "What is the Company Name?"] "Acme" [] false.

Definition answeredState : ProcessorState :=
  mkProcessorState
    [literalEntry "Company Name" "[Company Name]" "Acme"] None
    [ mkMessage assistant "What is the Company Name?";
      mkMessage user "Acme";
      mkMessage assistant
        "All placeholders have been filled! Generating your completed document..." ]
    [] [] false.

(** The state after the value [v] is typed and submitted, when the
    assistant does not answer. *)
Definition answer (localeCompare : jsstring -> jsstring -> Z)
    (placeholders : JsMap PlaceholderInfo) (st : ProcessorState)
    (v : jsstring) : ProcessorState :=
  fst (handleSubmit localeCompare placeholders
         (mkProcessorState (filledPlaceholders st) (currentPlaceholderKey st)
            (conversation st) v (skippedPlaceholders st) (isAIThinking st))
         (v, None) []).

(** The conversation over the signature page, both addresses given. *)
Definition signatureConversation : ProcessorState :=
  answer byOrderOnly (extractPlaceholders signaturePage)
    (answer byOrderOnly (extractPlaceholders signaturePage)
       (initialize byOrderOnly (extractPlaceholders signaturePage)
          initialState [])
       "1 Main St")
    "2 Side St".

(** [s'] is [s] with [w] written right after one occurrence of [label]. *)
Definition writtenAfter (label w s s' : jsstring) : Prop :=
  exists pre post,
    s = pre ++ label ++ post /\ s' = pre ++ label ++ w ++ post.

(** [n] is the first key of [keys] that is neither filled nor skipped. *)
Definition firstOpenKey (keys : list jsstring) (filled : JsMap PlaceholderData)
    (skipped : JsSet) (n : jsstring) : Prop :=
  exists before after,
    keys = before ++ n :: after
    /\ Map_has filled n = false /\ Set_has skipped n = false
    /\ forall k, In k before ->
         Map_has filled k = true \/ Set_has skipped k = true.
(** * Properties *)

(** ** Strings, maps and sets *)

Lemma jsstring_eqb_eq (a b : jsstring) : jsstring_eqb a b = true <-> a = b.
Proof.
  revert b; induction a as [|x a IH]; intros [|y b]; simpl;
    try (split; [discriminate | discriminate]); try tauto.
  rewrite andb_true_iff, Ascii.eqb_eq, IH.
  split; [intros [-> ->]; reflexivity | intros H; inversion H; auto].
Qed.

Lemma jsstring_eqb_refl (a : jsstring) : jsstring_eqb a a = true.
Proof. apply jsstring_eqb_eq; reflexivity. Qed.

Lemma jsstring_eqb_neq (a b : jsstring) : jsstring_eqb a b = false <-> a <> b.
Proof.
  rewrite <- jsstring_eqb_eq.
  destruct (jsstring_eqb a b); split; congruence.
Qed.

Lemma jsstring_eqb_sym (a b : jsstring) : jsstring_eqb a b = jsstring_eqb b a.
Proof.
  destruct (jsstring_eqb a b) eqn:E.
  - apply jsstring_eqb_eq in E; subst; symmetry; apply jsstring_eqb_refl.
  - symmetry; apply jsstring_eqb_neq; apply jsstring_eqb_neq in E; congruence.
Qed.

Section MapFacts.

Context {V : Type}.
Implicit Types (m : JsMap V) (k : jsstring) (v : V).

Lemma Map_get_set_same m k v : Map_get (Map_set m k v) k = Some v.
Proof.
  induction m as [|[k' v'] m IH]; simpl.
  - now rewrite jsstring_eqb_refl.
  - destruct (jsstring_eqb k' k) eqn:E; simpl; rewrite E; auto.
Qed.

Lemma Map_get_set_other m k k' v :
  k <> k' -> Map_get (Map_set m k v) k' = Map_get m k'.
Proof.
  intros Hne; induction m as [|[k0 v0] m IH]; simpl.
  - apply jsstring_eqb_neq in Hne; now rewrite Hne.
  - destruct (jsstring_eqb k0 k) eqn:E; simpl.
    + apply jsstring_eqb_eq in E; subst k0.
      apply jsstring_eqb_neq in Hne; now rewrite Hne.
    + now rewrite IH.
Qed.

Lemma Map_keys_set_absent m k v :
  Map_get m k = None -> Map_keys (Map_set m k v) = Map_keys m ++ [k].
Proof.
  induction m as [|[k0 v0] m IH]; simpl; auto.
  destruct (jsstring_eqb k0 k); [discriminate|].
  intros H; simpl; now rewrite (IH H).
Qed.

Lemma Map_keys_set_present m k v v0 :
  Map_get m k = Some v0 -> Map_keys (Map_set m k v) = Map_keys m.
Proof.
  induction m as [|[k1 v1] m IH]; simpl; [discriminate|].
  destruct (jsstring_eqb k1 k) eqn:E; simpl; auto.
  intros H; now rewrite (IH H).
Qed.

Lemma Map_get_None_keys m k : Map_get m k = None -> ~ In k (Map_keys m).
Proof.
  induction m as [|[k0 v0] m IH]; simpl; auto.
  destruct (jsstring_eqb k0 k) eqn:E; [discriminate|].
  intros H [Hk | Hin]; [|now apply IH].
  subst; now rewrite jsstring_eqb_refl in E.
Qed.

(** A map never holds two entries under one key. *)
Lemma Map_set_NoDup m k v :
  NoDup (Map_keys m) -> NoDup (Map_keys (Map_set m k v)).
Proof.
  intros Hnd; destruct (Map_get m k) eqn:G.
  - now rewrite (Map_keys_set_present _ _ _ _ G).
  - rewrite (Map_keys_set_absent _ _ _ G).
    apply NoDup_app; repeat split; auto.
    + constructor; [intros [] | constructor].
    + intros x Hx [<- | []]. now apply (Map_get_None_keys _ _ G).
Qed.

Lemma entriesWithKey_absent m k :
  ~ In k (Map_keys m) -> entriesWithKey k m = [].
Proof.
  induction m as [|[k0 v0] m IH]; simpl; auto.
  intros H; destruct (jsstring_eqb k0 k) eqn:E.
  - apply jsstring_eqb_eq in E; subst; exfalso; apply H; now left.
  - apply IH; intros Hin; apply H; now right.
Qed.

Lemma entriesWithKey_NoDup m k v :
  NoDup (Map_keys m) -> Map_get m k = Some v -> entriesWithKey k m = [(k, v)].
Proof.
  induction m as [|[k0 v0] m IH]; simpl; [discriminate|].
  intros Hnd; inversion Hnd as [|? ? Hnot Hnd']; subst.
  destruct (jsstring_eqb k0 k) eqn:E.
  - apply jsstring_eqb_eq in E; subst k0.
    intros H; injection H as ->.
    now rewrite (entriesWithKey_absent _ _ Hnot).
  - intros H; now apply IH.
Qed.

End MapFacts.

(** ** extractValue *)

Lemma extractValue_currency (input : jsstring) (p : PlaceholderInfo) :
  isCurrencyKind p = true ->
  extractValue input p = formatCurrency (trim input).
Proof.
  intros H; unfold extractValue; rewrite H.
  destruct (formatCurrency (trim input)); simpl; auto.
  destruct (includes _ _); auto; destruct (regexTest _ _); auto.
Qed.

Lemma extractValue_other (input : jsstring) (p : PlaceholderInfo) :
  isCurrencyKind p = false ->
  extractValue input p = Some (trim input).
Proof.
  intros H; unfold extractValue; rewrite H; simpl.
  destruct (includes _ _); auto; destruct (regexTest _ _); auto.
Qed.

Lemma prefix_dollar_isCurrencyKind k fmt ty ctx pos :
  isCurrencyKind (mkInfo k fmt "$" ty ctx pos) = true.
Proof. reflexivity. Qed.

(** What the claim promises for the suffix [k] holds. *)
Example extractValue_100k :
  extractValue "100k" currencyPlaceholder = Some ("$100,000" : jsstring).
Proof. vm_compute; reflexivity. Qed.

(** A suffix [M] or [million] written against the number scales by
    1,000,000. *)
Example extractValue_5M :
  extractValue "5M" currencyPlaceholder = Some ("$5,000,000" : jsstring)
  /\ extractValue "5million" currencyPlaceholder
     = Some ("$5,000,000" : jsstring).
Proof. split; vm_compute; reflexivity. Qed.

(** The pattern accepts [thousand] as a suffix, the scaling never looks for
    it. *)
Example extractValue_5thousand :
  extractValue "5thousand" currencyPlaceholder = Some ("$5" : jsstring).
Proof. vm_compute; reflexivity. Qed.

(** A date answer for a date placeholder comes back as typed. *)
Example extractValue_date :
  extractValue "October 31, 2025" datePlaceholder
  = Some ("October 31, 2025" : jsstring)
  /\ regexTest dateRegex "October 31, 2025" = true.
Proof. split; vm_compute; reflexivity. Qed.

(** C1: for a placeholder of currency kind, [extractValue] takes the first
    number, scales it by its suffix and prints it with thousands separators
    behind [$]; the claim gives ["5 million"] as an instance, with
    ["$5,000,000"] as the result.  The number pattern lets a suffix follow
    the digits only directly, so on ["5 million"] the match is ["5"], nothing
    is scaled, and the result is ["$5"] for every placeholder with the
    prefix [$]. *)
Theorem extractValue_5_million_unscaled :
  forall k fmt ty ctx pos,
    extractValue "5 million" (mkInfo k fmt "$" ty ctx pos)
    = Some ("$5" : jsstring).
Proof.
  intros; rewrite extractValue_currency by apply prefix_dollar_isCurrencyKind.
  vm_compute; reflexivity.
Qed.

(** ** generateCompletedDocument with nothing filled *)

(** C9: rendering with an empty map of filled placeholders hands the
    document text on unchanged. *)
Theorem generateCompletedDocument_empty :
  forall documentContent : jsstring,
    generateCompletedDocument documentContent [] = documentContent.
Proof. intros; reflexivity. Qed.

(** ** Sorting with a comparator *)

Section SortFacts.

Context {A : Type}.
Variable cmp : A -> A -> Z.

Lemma insertBy_Permutation (x : A) (l : list A) :
  Permutation (insertBy cmp x l) (x :: l).
Proof.
  induction l as [|y l IH]; simpl; auto.
  destruct (cmp x y <=? 0); auto.
  eapply perm_trans; [apply perm_skip, IH | apply perm_swap].
Qed.

Lemma sortBy_Permutation (l : list A) : Permutation (sortBy cmp l) l.
Proof.
  induction l as [|x l IH]; simpl; auto.
  eapply perm_trans; [apply insertBy_Permutation | now apply perm_skip].
Qed.

Lemma In_sortBy (x : A) (l : list A) : In x (sortBy cmp l) <-> In x l.
Proof.
  split; apply Permutation_in;
    [apply sortBy_Permutation | apply Permutation_sym, sortBy_Permutation].
Qed.

Lemma Forall_sortBy (P : A -> Prop) (l : list A) :
  Forall P l -> Forall P (sortBy cmp l).
Proof.
  rewrite !Forall_forall; intros H x Hx; apply H; now apply In_sortBy.
Qed.

(** The comparator of the source orders by a measure, greatest first. *)
Variable measure : A -> Z.
Hypothesis cmp_descending : forall a b, cmp a b = measure b - measure a.

Lemma insertBy_descending (x : A) (l : list A) :
  StronglySorted (fun a b => measure a >= measure b) l ->
  StronglySorted (fun a b => measure a >= measure b) (insertBy cmp x l).
Proof.
  induction l as [|y l IH]; simpl; intros Hs.
  - constructor; auto.
  - inversion Hs as [|? ? Hs' Hall]; subst.
    destruct (cmp x y <=? 0) eqn:E.
    + rewrite cmp_descending in E; apply Z.leb_le in E.
      constructor; auto. constructor; [lia|].
      eapply Forall_impl; [|exact Hall]; simpl; intros; lia.
    + rewrite cmp_descending in E; apply Z.leb_gt in E.
      constructor; auto.
      rewrite Forall_forall; intros z Hz.
      apply (Permutation_in _ (insertBy_Permutation x l)) in Hz.
      destruct Hz as [<- | Hz]; [lia|].
      rewrite Forall_forall in Hall; now apply Hall.
Qed.

Lemma sortBy_descending (l : list A) :
  StronglySorted (fun a b => measure a >= measure b) (sortBy cmp l).
Proof.
  induction l as [|x l IH]; simpl; [constructor | now apply insertBy_descending].
Qed.

Lemma descending_strict (l : list A) :
  StronglySorted (fun a b => measure a >= measure b) l ->
  NoDup (map measure l) ->
  StronglySorted (fun a b => measure a > measure b) l.
Proof.
  induction 1 as [|x l Hs IH Hall]; simpl; intros Hnd; [constructor|].
  inversion Hnd as [|? ? Hnot Hnd']; subst.
  constructor; auto.
  rewrite Forall_forall in *; intros y Hy.
  specialize (Hall y Hy).
  assert (measure x <> measure y) by (intros Heq; apply Hnot; rewrite Heq; now apply in_map).
  lia.
Qed.

End SortFacts.

Lemma fold_left_Forall_ext {A B} (f g : A -> B -> A) (P : B -> Prop)
    (l : list B) (a : A) :
  Forall P l -> (forall a b, P b -> f a b = g a b) ->
  fold_left f l a = fold_left g l a.
Proof.
  intros Hall Hfg; revert a; induction Hall as [|x l Hx Hall IH]; simpl; auto.
  intros a; rewrite (Hfg a x Hx); apply IH.
Qed.

Lemma filter_partition_Permutation {A} (p : A -> bool) (l : list A) :
  Permutation (filter p l ++ filter (fun x => negb (p x)) l) l.
Proof.
  induction l as [|x l IH]; simpl; auto.
  destruct (p x); simpl.
  - now apply perm_skip.
  - eapply perm_trans; [apply Permutation_sym, Permutation_middle|].
    now apply perm_skip.
Qed.

(** ** handleDownload: the order of processing *)

Lemma labelFieldsOf_Forall (filledData : JsMap PlaceholderData) :
  Forall (fun e => goesToLabelFields e = true) (labelFieldsOf filledData).
Proof. apply Forall_forall; intros e He; now apply filter_In in He. Qed.

Lemma otherFieldsOf_Forall (filledData : JsMap PlaceholderData) :
  Forall (fun e => goesToLabelFields e = false) (otherFieldsOf filledData).
Proof.
  apply Forall_forall; intros e He; apply filter_In in He.
  now apply negb_true_iff.
Qed.


(** ** Labels without a party *)

Lemma resolveContext_no_signature (labelIndex : Z) :
  resolveContext [] labelIndex = None.
Proof. reflexivity. Qed.

Lemma processLabelMatch_unresolved sigs label placeholders m :
  resolveContext sigs (index m) = None ->
  processLabelMatch sigs label placeholders m = placeholders.
Proof. intros H; unfold processLabelMatch; now rewrite H. Qed.

(** C8: a label occurrence for which [resolveContext] finds no party (no
    marker within range and no fallback on the last markers) leaves the
    catalog as it was: no entry is added for it, under any party, and none
    is changed; the scan goes on with the next occurrence. *)
Theorem unresolved_label_is_dropped :
  forall (sigs : list SignatureMatch) (label : jsstring)
         (placeholders : JsMap PlaceholderInfo) (m : RegExpMatch)
         (later : list RegExpMatch),
    resolveContext sigs (index m) = None ->
    processLabelMatch sigs label placeholders m = placeholders
    /\ fold_left (processLabelMatch sigs label) (m :: later) placeholders
       = fold_left (processLabelMatch sigs label) later placeholders.
Proof.
  intros sigs label placeholders m later H.
  cbn [fold_left]; now rewrite processLabelMatch_unresolved.
Qed.

Lemma unresolved_label_is_dropped_witness :
  execAll (ciLiteralToLineEnd atWordBoundary "Address:") ("Address:" ++ lineFeed)
  = [mkMatch 0 ("Address:" ++ lineFeed) []]
  /\ signatureMatches ("Address:" ++ lineFeed) = []
  /\ processLabelMatch [] "Address" [] (mkMatch 0 ("Address:" ++ lineFeed) []) = [].
Proof.
  split; [reflexivity|]; split; [reflexivity|].
  apply (unresolved_label_is_dropped [] "Address" []
           (mkMatch 0 ("Address:" ++ lineFeed) []) []).
  reflexivity.
Defined.

(** With no label resolved, the third pass adds nothing. *)
Lemma labelPass_all_unresolved (text : jsstring)
    (placeholders : JsMap PlaceholderInfo) :
  (forall lf m, In lf labelFields -> In m (execAll (fst lf) text) ->
                resolveContext (signatureMatches text) (index m) = None) ->
  labelPass text placeholders = placeholders.
Proof.
  unfold labelPass; intros H.
  induction labelFields as [|lf lfs IH]; simpl; auto.
  assert (Hlf : fold_left (processLabelMatch (signatureMatches text) (snd lf))
                  (execAll (fst lf) text) placeholders = placeholders).
  { assert (Hm : forall m, In m (execAll (fst lf) text) ->
                  resolveContext (signatureMatches text) (index m) = None)
      by (intros m Hm; apply (H lf m); [now left | exact Hm]).
    induction (execAll (fst lf) text) as [|m ms IHm]; simpl; auto.
    rewrite processLabelMatch_unresolved by (apply Hm; now left).
    apply IHm; intros m' Hm'; apply Hm; now right. }
  rewrite Hlf; apply IH; intros lf' m Hin; apply H; now right.
Qed.

(** ** Label occurrences under one key *)

Lemma processLabelMatch_NoDup sigs label placeholders m :
  NoDup (Map_keys placeholders) ->
  NoDup (Map_keys (processLabelMatch sigs label placeholders m)).
Proof.
  intros Hnd; unfold processLabelMatch.
  destruct (resolveContext sigs (index m)); auto.
  destruct (Map_get placeholders _); [destruct (negb _)|]; auto using Map_set_NoDup.
Qed.

Lemma processLabelMatch_resolved sigs label placeholders m p :
  resolveContext sigs (index m) = Some p ->
  exists e, Map_get (processLabelMatch sigs label placeholders m)
              (uniqueKey p label) = Some e
            /\ position e = Some (index m).
Proof.
  intros H; unfold processLabelMatch; rewrite H.
  destruct (Map_get placeholders (uniqueKey p label)) as [existing|] eqn:G.
  - destruct (samePosition existing (index m)) eqn:S; simpl.
    + exists existing; split; auto.
      unfold samePosition in S; destruct (position existing); [|discriminate].
      apply Z.eqb_eq in S; now subst.
    + eexists; split; [apply Map_get_set_same | reflexivity].
  - eexists; split; [apply Map_get_set_same | reflexivity].
Qed.

(** C2: two [Address:] labels of the company section, at offsets 8 and 17.
    Both resolve to the company, and the third pass lets the second one in
    because its position differs from the recorded one; but it files it
    with [placeholders.set] under the same key, so the catalog holds one
    entry, that of offset 17, and none of offset 8: the two occurrences are
    not both kept. *)
Lemma same_key_labels_are_not_both_kept :
  map index (execAll (ciLiteralToLineEnd atWordBoundary "Address:")
               twoCompanyAddresses) = [8; 17]
  /\ resolveContext (signatureMatches twoCompanyAddresses) 8 = Some company
  /\ resolveContext (signatureMatches twoCompanyAddresses) 17 = Some company
  /\ extractPlaceholders twoCompanyAddresses
     = [ ("Company Address" : jsstring,
          mkInfo "Company Address" "Address:" [] square (Some company)
            (Some 17)) ]
  /\ ~ (exists e, In e (extractPlaceholders twoCompanyAddresses)
                  /\ position (snd e) = Some 8).
Proof.
  assert (H : extractPlaceholders twoCompanyAddresses
              = [ ("Company Address" : jsstring,
                   mkInfo "Company Address" "Address:" [] square (Some company)
                     (Some 17)) ]) by (vm_compute; reflexivity).
  repeat split; try (vm_compute; reflexivity); auto.
  rewrite H; intros [e [[<- | []] Hp]]; discriminate.
Qed.


(** ** The second pass, one match at a time *)

(** A match of the second pass leaves the catalog alone or sets one key,
    which was free unless the key is [Company Name] set for [[COMPANY]]. *)
Lemma processLiteralMatch_cases text ty placeholders seenFormats m :
  exists seenFormats',
    processLiteralMatch text ty (placeholders, seenFormats) m
    = (placeholders, seenFormats')
    \/ exists normalizedKey,
         processLiteralMatch text ty (placeholders, seenFormats) m
         = (Map_set placeholders normalizedKey
              (mkInfo normalizedKey (matched m) [] ty None None),
            seenFormats')
         /\ (Map_get placeholders normalizedKey = None
             \/ normalizedKey = ("Company Name" : jsstring)).
Proof.
  unfold processLiteralMatch; cbv beta iota zeta.
  destruct (isBlankKey _); [eexists; left; reflexivity|].
  destruct (Set_has _ _); [eexists; left; reflexivity|].
  destruct (isEmpty _); [eexists; left; reflexivity|].
  match goal with |- context [Map_set placeholders ?k _] => set (nk := k) end.
  destruct (negb (jsstring_eqb nk "Company Name")
            || negb (jsstring_eqb (matched m) "[COMPANY]")) eqn:E.
  - destruct (Map_get placeholders nk) eqn:G.
    + eexists; left; reflexivity.
    + eexists; right; exists nk; split; [reflexivity | now left].
  - apply orb_false_iff in E; destruct E as [E _].
    apply negb_false_iff, jsstring_eqb_eq in E.
    eexists; right; exists nk; split; [reflexivity | now right].
Qed.

(** An entry under a key other than [Company Name] survives the second
    pass. *)
Lemma processLiteralMatch_keeps text ty st m k e :
  k <> ("Company Name" : jsstring) ->
  Map_get (fst st) k = Some e ->
  Map_get (fst (processLiteralMatch text ty st m)) k = Some e.
Proof.
  destruct st as [pl seen]; intros Hk G; simpl in G.
  destruct (processLiteralMatch_cases text ty pl seen m)
    as [seen' [-> | [nk [-> [Hn | Hn]]]]]; simpl; auto.
  - rewrite Map_get_set_other; auto; intros ->; congruence.
  - rewrite Map_get_set_other; auto; congruence.
Qed.

(** What every match of the second pass preserves, the pass preserves. *)
Lemma literalPass_invariant (text : jsstring) (P : LiteralState -> Prop) :
  (forall ty st m, P st -> P (processLiteralMatch text ty st m)) ->
  forall placeholders, P (placeholders, []) -> P (literalPass text placeholders).
Proof.
  intros Hstep placeholders; unfold literalPass.
  generalize ((placeholders, []) : LiteralState) as st.
  generalize patterns as ps.
  induction ps as [|p ps IH]; cbn [fold_left]; auto.
  intros st Hst; apply IH.
  revert st Hst; induction (execAll (fst p) text) as [|m ms IHm];
    cbn [fold_left]; auto.
Qed.

Lemma literalPass_keeps text placeholders k e :
  k <> ("Company Name" : jsstring) ->
  Map_get placeholders k = Some e ->
  Map_get (fst (literalPass text placeholders)) k = Some e.
Proof.
  intros Hk G.
  apply (literalPass_invariant text (fun st => Map_get (fst st) k = Some e));
    auto.
  intros ty st m; now apply processLiteralMatch_keeps.
Qed.

(** ** The third pass and the keys it touches *)

Lemma uniqueKey_labelKeys p lf :
  In lf labelFields -> In (uniqueKey p (snd lf)) labelKeys.
Proof.
  intros H; simpl in H.
  destruct H as [<- | [<- | [<- | [<- | []]]]]; destruct p; vm_compute; tauto.
Qed.

Lemma processLabelMatch_frame sigs label placeholders m k :
  (forall p, uniqueKey p label <> k) ->
  Map_get (processLabelMatch sigs label placeholders m) k
  = Map_get placeholders k.
Proof.
  intros Hk; unfold processLabelMatch.
  destruct (resolveContext sigs (index m)) as [p|]; auto.
  destruct (Map_get placeholders (uniqueKey p label));
    [destruct (negb _)|]; auto; now apply Map_get_set_other.
Qed.

Lemma fold_processLabelMatch_frame sigs label ms placeholders k :
  (forall p, uniqueKey p label <> k) ->
  Map_get (fold_left (processLabelMatch sigs label) ms placeholders) k
  = Map_get placeholders k.
Proof.
  intros Hk; revert placeholders; induction ms as [|m ms IH]; simpl; auto.
  intros pl; rewrite IH; now apply processLabelMatch_frame.
Qed.

Lemma labelPass_frame text placeholders k :
  ~ In k labelKeys ->
  Map_get (labelPass text placeholders) k = Map_get placeholders k.
Proof.
  intros Hk; unfold labelPass.
  assert (H : forall lf, In lf labelFields -> forall p, uniqueKey p (snd lf) <> k)
    by (intros lf Hlf p <-; apply Hk; now apply uniqueKey_labelKeys).
  revert placeholders; induction labelFields as [|lf lfs IH]; simpl; auto.
  intros pl; rewrite IH by (intros; apply H; now right).
  apply fold_processLabelMatch_frame, H; now left.
Qed.

(** ** Currency blanks *)

(** A step of the first pass leaves the state as it is or files the blank
    under one of the two keys. *)
Lemma processCurrencyBlank_cases st m ctx :
  processCurrencyBlank st (m, ctx) = st
  \/ exists k, (k = purchaseAmountKey \/ k = valuationCapKey)
       /\ c_placeholders (processCurrencyBlank st (m, ctx))
          = Map_set (c_placeholders st) k (currencyInfo k (matched m)).
Proof.
  unfold processCurrencyBlank.
  destruct (hasValuationKeyword ctx).
  { destruct (negb _); cbn [c_placeholders]; eauto. }
  destruct (hasPurchaseKeyword ctx).
  { destruct (negb _); cbn [c_placeholders]; eauto. }
  destruct (Set_size (purchaseAmountSeen st) =? 0); cbn [c_placeholders]; eauto.
  destruct (Set_size (valuationCapSeen st) =? 0); cbn [c_placeholders]; eauto.
Qed.

Lemma Set_has_add (s : JsSet) (k token : jsstring) :
  Set_has (Set_add s k) token = Set_has s token || jsstring_eqb token k.
Proof.
  unfold Set_add, Set_has.
  destruct (existsb (jsstring_eqb k) s) eqn:E.
  - destruct (jsstring_eqb token k) eqn:E2; [|now rewrite orb_false_r].
    apply jsstring_eqb_eq in E2; subst; now rewrite E.
  - rewrite existsb_app; simpl; now rewrite orb_false_r.
Qed.

Lemma Set_add_nonempty (s : JsSet) (k : jsstring) : Set_add s k <> [].
Proof.
  unfold Set_add; destruct (Set_has s k) eqn:E.
  - destruct s; [discriminate E | discriminate].
  - destruct s; discriminate.
Qed.

Lemma Set_has_add_same (s : JsSet) (k : jsstring) :
  Set_has (Set_add s k) k = true.
Proof. now rewrite Set_has_add, jsstring_eqb_refl, orb_true_r. Qed.

Lemma Set_has_add_keeps (s : JsSet) (k f : jsstring) :
  Set_has s f = true -> Set_has (Set_add s k) f = true.
Proof. intros H; now rewrite Set_has_add, H. Qed.

Lemma Set_has_nonempty (s : JsSet) (k : jsstring) :
  Set_has s k = true -> s <> [].
Proof. destruct s; [discriminate | discriminate]. Qed.

(** The sets of seen formats only grow. *)
Lemma processCurrencyBlank_seen st b f :
  (Set_has (valuationCapSeen st) f = true ->
   Set_has (valuationCapSeen (processCurrencyBlank st b)) f = true)
  /\ (Set_has (purchaseAmountSeen st) f = true ->
      Set_has (purchaseAmountSeen (processCurrencyBlank st b)) f = true).
Proof.
  destruct b as [m ctx]; unfold processCurrencyBlank.
  destruct (hasValuationKeyword ctx).
  { destruct (negb _); cbn [valuationCapSeen purchaseAmountSeen];
      auto using Set_has_add_keeps. }
  destruct (hasPurchaseKeyword ctx).
  { destruct (negb _); cbn [valuationCapSeen purchaseAmountSeen];
      auto using Set_has_add_keeps. }
  destruct (Set_size (purchaseAmountSeen st) =? 0);
    cbn [valuationCapSeen purchaseAmountSeen]; auto using Set_has_add_keeps.
  destruct (Set_size (valuationCapSeen st) =? 0);
    cbn [valuationCapSeen purchaseAmountSeen]; auto using Set_has_add_keeps.
Qed.

Lemma currencyBlanks_seen bs : forall st f,
  (Set_has (valuationCapSeen st) f = true ->
   Set_has (valuationCapSeen (fold_left processCurrencyBlank bs st)) f = true)
  /\ (Set_has (purchaseAmountSeen st) f = true ->
      Set_has (purchaseAmountSeen (fold_left processCurrencyBlank bs st)) f
      = true).
Proof.
  induction bs as [|b bs IH]; intros st f; cbn [fold_left]; auto.
  destruct (IH (processCurrencyBlank st b) f) as [H1 H2].
  destruct (processCurrencyBlank_seen st b f) as [G1 G2]; split; auto.
Qed.

(** Once a set of seen formats is not empty, its key has an entry, with the
    format of a blank of the document. *)
Lemma processCurrencyBlank_filed (ms : list RegExpMatch) st m ctx :
  In m ms ->
  ((valuationCapSeen st <> [] ->
    exists m', In m' ms
               /\ Map_get (c_placeholders st) valuationCapKey
                  = Some (currencyInfo valuationCapKey (matched m')))
   /\ (purchaseAmountSeen st <> [] ->
       exists m', In m' ms
                  /\ Map_get (c_placeholders st) purchaseAmountKey
                     = Some (currencyInfo purchaseAmountKey (matched m')))) ->
  let st' := processCurrencyBlank st (m, ctx) in
  (valuationCapSeen st' <> [] ->
   exists m', In m' ms
              /\ Map_get (c_placeholders st') valuationCapKey
                 = Some (currencyInfo valuationCapKey (matched m')))
  /\ (purchaseAmountSeen st' <> [] ->
      exists m', In m' ms
                 /\ Map_get (c_placeholders st') purchaseAmountKey
                    = Some (currencyInfo purchaseAmountKey (matched m'))).
Proof.
  intros Hm [Hv Hp]; cbv zeta.
  assert (V : forall pl seen,
             let st' := mkCurrencyState
                          (Map_set pl valuationCapKey
                             (currencyInfo valuationCapKey (matched m)))
                          (purchaseAmountSeen st) seen in
             Map_get pl purchaseAmountKey
             = Map_get (c_placeholders st) purchaseAmountKey ->
             (valuationCapSeen st' <> [] ->
              exists m', In m' ms
                /\ Map_get (c_placeholders st') valuationCapKey
                   = Some (currencyInfo valuationCapKey (matched m')))
             /\ (purchaseAmountSeen st' <> [] ->
                 exists m', In m' ms
                   /\ Map_get (c_placeholders st') purchaseAmountKey
                      = Some (currencyInfo purchaseAmountKey (matched m')))).
  { intros pl seen st' E; subst st';
      cbn [valuationCapSeen purchaseAmountSeen c_placeholders]; split.
    - intros _; exists m; split; auto; apply Map_get_set_same.
    - intros H; rewrite Map_get_set_other by discriminate.
      rewrite E; auto. }
  assert (P : forall pl seen,
             let st' := mkCurrencyState
                          (Map_set pl purchaseAmountKey
                             (currencyInfo purchaseAmountKey (matched m)))
                          seen (valuationCapSeen st) in
             Map_get pl valuationCapKey
             = Map_get (c_placeholders st) valuationCapKey ->
             (valuationCapSeen st' <> [] ->
              exists m', In m' ms
                /\ Map_get (c_placeholders st') valuationCapKey
                   = Some (currencyInfo valuationCapKey (matched m')))
             /\ (purchaseAmountSeen st' <> [] ->
                 exists m', In m' ms
                   /\ Map_get (c_placeholders st') purchaseAmountKey
                      = Some (currencyInfo purchaseAmountKey (matched m')))).
  { intros pl seen st' E; subst st';
      cbn [valuationCapSeen purchaseAmountSeen c_placeholders]; split.
    - intros H; rewrite Map_get_set_other by discriminate.
      rewrite E; auto.
    - intros _; exists m; split; auto; apply Map_get_set_same. }
  unfold processCurrencyBlank.
  destruct (hasValuationKeyword ctx).
  { destruct (negb _); [apply V; reflexivity | split; auto]. }
  destruct (hasPurchaseKeyword ctx).
  { destruct (negb _); [apply P; reflexivity | split; auto]. }
  destruct (Set_size (purchaseAmountSeen st) =? 0); [apply P; reflexivity|].
  destruct (Set_size (valuationCapSeen st) =? 0); [apply V; reflexivity|].
  split; auto.
Qed.

Lemma currencyBlanks_filed (ms : list RegExpMatch) bs : forall st,
  (forall b, In b bs -> In (fst b) ms) ->
  ((valuationCapSeen st <> [] ->
    exists m', In m' ms
               /\ Map_get (c_placeholders st) valuationCapKey
                  = Some (currencyInfo valuationCapKey (matched m')))
   /\ (purchaseAmountSeen st <> [] ->
       exists m', In m' ms
                  /\ Map_get (c_placeholders st) purchaseAmountKey
                     = Some (currencyInfo purchaseAmountKey (matched m')))) ->
  let st' := fold_left processCurrencyBlank bs st in
  (valuationCapSeen st' <> [] ->
   exists m', In m' ms
              /\ Map_get (c_placeholders st') valuationCapKey
                 = Some (currencyInfo valuationCapKey (matched m')))
  /\ (purchaseAmountSeen st' <> [] ->
      exists m', In m' ms
                 /\ Map_get (c_placeholders st') purchaseAmountKey
                    = Some (currencyInfo purchaseAmountKey (matched m'))).
Proof.
  induction bs as [|[m ctx] bs IH]; intros st Hin Hst; cbn [fold_left]; auto.
  apply IH; [intros b Hb; apply Hin; now right|].
  apply processCurrencyBlank_filed; auto.
  apply (Hin (m, ctx)); now left.
Qed.

(** An entry of the first pass is in the catalog of the document. *)
Lemma currency_entry_in_catalog text k e :
  k = purchaseAmountKey \/ k = valuationCapKey ->
  Map_get (c_placeholders (currencyPass text)) k = Some e ->
  Map_get (extractPlaceholders text) k = Some e.
Proof.
  intros Hk H; unfold extractPlaceholders.
  rewrite labelPass_frame
    by (destruct Hk as [-> | ->]; vm_compute; intuition discriminate).
  apply literalPass_keeps; auto.
  destruct Hk as [-> | ->]; discriminate.
Qed.

(** C4, as amended: when the first pass reaches a currency blank with
    [valuation], [cap] or [post-money] in the 100 code units around it, it
    files the blank under [Post-Money Valuation Cap], with its text as
    [originalFormat], and leaves the entry of [Purchase Amount] alone; a
    blank with [purchase], [investment] or [amount] there, and none of the
    valuation keywords, is filed under [Purchase Amount] in the same way.
    A blank whose text was filed under that key before changes nothing.
    Either way the catalog of the document then has an entry of currency
    kind under that key, with the text of a blank of the document.  And
    when the blanks of the document are two blanks with no keyword around
    them, the catalog has the first under [Purchase Amount] and the second
    under [Post-Money Valuation Cap]. *)
Theorem currency_blank_keys :
  forall (text : jsstring) (before after : list (RegExpMatch * jsstring))
         (m : RegExpMatch) (ctx : jsstring),
    currencyBlanks text = before ++ (m, ctx) :: after ->
    let st := fold_left processCurrencyBlank before (mkCurrencyState [] [] []) in
    let st' := processCurrencyBlank st (m, ctx) in
    ctx = currencyContext text m
    /\ (hasValuationKeyword ctx = true ->
        Map_get (c_placeholders st') purchaseAmountKey
        = Map_get (c_placeholders st) purchaseAmountKey
        /\ (Set_has (valuationCapSeen st) (matched m) = false ->
            Map_get (c_placeholders st') valuationCapKey
            = Some (currencyInfo valuationCapKey (matched m)))
        /\ (Set_has (valuationCapSeen st) (matched m) = true -> st' = st)
        /\ exists m', In m' (execAll currencyRegex text)
             /\ Map_get (extractPlaceholders text) valuationCapKey
                = Some (currencyInfo valuationCapKey (matched m')))
    /\ (hasValuationKeyword ctx = false -> hasPurchaseKeyword ctx = true ->
        Map_get (c_placeholders st') valuationCapKey
        = Map_get (c_placeholders st) valuationCapKey
        /\ (Set_has (purchaseAmountSeen st) (matched m) = false ->
            Map_get (c_placeholders st') purchaseAmountKey
            = Some (currencyInfo purchaseAmountKey (matched m)))
        /\ (Set_has (purchaseAmountSeen st) (matched m) = true -> st' = st)
        /\ exists m', In m' (execAll currencyRegex text)
             /\ Map_get (extractPlaceholders text) purchaseAmountKey
                = Some (currencyInfo purchaseAmountKey (matched m')))
    /\ (forall b2,
          before = [] -> after = [b2] ->
          hasValuationKeyword ctx = false -> hasPurchaseKeyword ctx = false ->
          hasValuationKeyword (snd b2) = false ->
          hasPurchaseKeyword (snd b2) = false ->
          Map_get (extractPlaceholders text) purchaseAmountKey
          = Some (currencyInfo purchaseAmountKey (matched m))
          /\ Map_get (extractPlaceholders text) valuationCapKey
             = Some (currencyInfo valuationCapKey (matched (fst b2)))).
Proof.
  intros text before after m ctx Hbs; cbv zeta.
  set (st := fold_left processCurrencyBlank before (mkCurrencyState [] [] [])).
  assert (Hall : forall b, In b (currencyBlanks text) ->
            In (fst b) (execAll currencyRegex text)
            /\ snd b = currencyContext text (fst b)).
  { intros b Hb; unfold currencyBlanks in Hb; apply in_map_iff in Hb.
    destruct Hb as [m' [<- H]]; auto. }
  assert (Hm : In m (execAll currencyRegex text)
               /\ ctx = currencyContext text m).
  { apply (Hall (m, ctx)); rewrite Hbs; apply in_or_app; right; now left. }
  assert (Hst : (valuationCapSeen st <> [] ->
                 exists m', In m' (execAll currencyRegex text)
                   /\ Map_get (c_placeholders st) valuationCapKey
                      = Some (currencyInfo valuationCapKey (matched m')))
                /\ (purchaseAmountSeen st <> [] ->
                    exists m', In m' (execAll currencyRegex text)
                      /\ Map_get (c_placeholders st) purchaseAmountKey
                         = Some (currencyInfo purchaseAmountKey (matched m')))).
  { apply currencyBlanks_filed.
    - intros b Hb; apply Hall; rewrite Hbs; apply in_or_app; now left.
    - split; intros H; now contradiction H. }
  assert (Hend : currencyPass text
                 = fold_left processCurrencyBlank after
                     (processCurrencyBlank st (m, ctx)))
    by (unfold currencyPass; rewrite Hbs, fold_left_app; reflexivity).
  assert (Hfin : (valuationCapSeen (currencyPass text) <> [] ->
                  exists m', In m' (execAll currencyRegex text)
                    /\ Map_get (c_placeholders (currencyPass text))
                         valuationCapKey
                       = Some (currencyInfo valuationCapKey (matched m')))
                 /\ (purchaseAmountSeen (currencyPass text) <> [] ->
                     exists m', In m' (execAll currencyRegex text)
                       /\ Map_get (c_placeholders (currencyPass text))
                            purchaseAmountKey
                          = Some (currencyInfo purchaseAmountKey (matched m')))).
  { rewrite Hend; apply currencyBlanks_filed.
    - intros b Hb; apply Hall; rewrite Hbs; apply in_or_app; right; now right.
    - apply processCurrencyBlank_filed; tauto. }
  split; [tauto|]; split; [|split].
  - intros V.
    assert (Hseen : Set_has (valuationCapSeen (processCurrencyBlank st (m, ctx)))
                      (matched m) = true).
    { unfold processCurrencyBlank; rewrite V.
      destruct (Set_has (valuationCapSeen st) (matched m)) eqn:E;
        cbn [negb valuationCapSeen]; auto using Set_has_add_same. }
    repeat split.
    + unfold processCurrencyBlank; rewrite V.
      destruct (negb _); cbn [c_placeholders]; auto.
      now rewrite Map_get_set_other by discriminate.
    + intros E; unfold processCurrencyBlank; rewrite V, E.
      cbn [negb c_placeholders]; apply Map_get_set_same.
    + intros E; unfold processCurrencyBlank; now rewrite V, E.
    + destruct Hfin as [Hv _].
      destruct Hv as [m' [Hin G]].
      { rewrite Hend.
        apply (Set_has_nonempty _ (matched m)).
        now apply currencyBlanks_seen. }
      exists m'; split; auto.
      apply currency_entry_in_catalog; auto.
  - intros V P.
    assert (Hseen : Set_has (purchaseAmountSeen
                               (processCurrencyBlank st (m, ctx)))
                      (matched m) = true).
    { unfold processCurrencyBlank; rewrite V, P.
      destruct (Set_has (purchaseAmountSeen st) (matched m)) eqn:E;
        cbn [negb purchaseAmountSeen]; auto using Set_has_add_same. }
    repeat split.
    + unfold processCurrencyBlank; rewrite V, P.
      destruct (negb _); cbn [c_placeholders]; auto.
      now rewrite Map_get_set_other by discriminate.
    + intros E; unfold processCurrencyBlank; rewrite V, P, E.
      cbn [negb c_placeholders]; apply Map_get_set_same.
    + intros E; unfold processCurrencyBlank; now rewrite V, P, E.
    + destruct Hfin as [_ Hp].
      destruct Hp as [m' [Hin G]].
      { rewrite Hend.
        apply (Set_has_nonempty _ (matched m)).
        now apply currencyBlanks_seen. }
      exists m'; split; auto.
      apply currency_entry_in_catalog; auto.
  - intros [m2 c2] -> -> V1 P1 V2 P2; cbn [snd fst] in *.
    assert (Hpass : c_placeholders (currencyPass text)
                    = [ (purchaseAmountKey,
                         currencyInfo purchaseAmountKey (matched m));
                        (valuationCapKey,
                         currencyInfo valuationCapKey (matched m2)) ]).
    { rewrite Hend; subst st; cbn [fold_left].
      unfold processCurrencyBlank at 2; rewrite V1, P1; cbn.
      unfold processCurrencyBlank; rewrite V2, P2; reflexivity. }
    split; apply currency_entry_in_catalog; auto; rewrite Hpass; reflexivity.
Qed.

(** C4, counterexample: a blank with [purchase] before it and [cap] after
    it has a purchase keyword within 100 code units; the catalog files it
    under [Post-Money Valuation Cap] and has no [Purchase Amount].  And of
    three blanks with a valuation keyword near, the third, whose text was
    filed before, is not filed again: the catalog keeps the text of the
    second. *)
Lemma purchase_keyword_does_not_decide :
  (execAll currencyRegex purchaseNearCap = [mkMatch 9 "$[___]" "___"]
   /\ hasPurchaseKeyword
        (currencyContext purchaseNearCap (mkMatch 9 "$[___]" "___")) = true
   /\ extractPlaceholders purchaseNearCap
      = [(valuationCapKey, currencyInfo valuationCapKey "$[___]")]
   /\ Map_get (extractPlaceholders purchaseNearCap) purchaseAmountKey = None)
  /\ (map (fun m => (matched m,
                     hasValuationKeyword (currencyContext repeatedBlank m)))
        (execAll currencyRegex repeatedBlank)
      = [ ("$[_]" : jsstring, true); ("$[__]" : jsstring, true);
          ("$[_]" : jsstring, true) ]
      /\ extractPlaceholders repeatedBlank
         = [(valuationCapKey, currencyInfo valuationCapKey "$[__]")]).
Proof. repeat split; vm_compute; reflexivity. Qed.

Lemma currency_blank_keys_witness :
  Map_get (extractPlaceholders twoPlainBlanks) purchaseAmountKey
  = Some (currencyInfo purchaseAmountKey "$[___]")
  /\ Map_get (extractPlaceholders twoPlainBlanks) valuationCapKey
     = Some (currencyInfo valuationCapKey "$[__]").
Proof.
  apply (proj2 (proj2 (proj2
           (currency_blank_keys twoPlainBlanks []
              [(mkMatch 15 "$[__]" "__",
                currencyContext twoPlainBlanks (mkMatch 15 "$[__]" "__"))]
              (mkMatch 4 "$[___]" "___")
              (currencyContext twoPlainBlanks (mkMatch 4 "$[___]" "___"))
              eq_refl)))
           (mkMatch 15 "$[__]" "__",
            currencyContext twoPlainBlanks (mkMatch 15 "$[__]" "__")));
    reflexivity.
Defined.

(** ** Context resolution *)

Lemma closestSignature_spec labelIndex first rest :
  let r := closestSignature labelIndex first rest in
  In r (first :: rest)
  /\ forall y, In y (first :: rest) ->
       Z.abs (sig_index r - labelIndex) <= Z.abs (sig_index y - labelIndex).
Proof.
  unfold closestSignature; revert first.
  induction rest as [|x rest IH]; intros first; simpl.
  - split; [now left | intros y [<- | []]; lia].
  - destruct (IH (closer labelIndex first x)) as [Hin Hmin]; split.
    + destruct Hin as [Hin | Hin]; [|now right; right].
      rewrite <- Hin; unfold closer; destruct (_ <? _); auto.
    + intros y Hy.
      assert (Hc : Z.abs (sig_index (closer labelIndex first x) - labelIndex)
                   <= Z.abs (sig_index first - labelIndex)
                   /\ Z.abs (sig_index (closer labelIndex first x) - labelIndex)
                      <= Z.abs (sig_index x - labelIndex)).
      { unfold closer; destruct (_ <? _) eqn:E;
          [apply Z.ltb_lt in E | apply Z.ltb_ge in E]; lia. }
      specialize (Hmin (closer labelIndex first x) (or_introl eq_refl)).
      destruct Hy as [<- | [<- | Hy]]; try lia.
      apply IH; now right.
Qed.

(** The nearest marker before a label, within range, decides its party. *)
Lemma resolveContext_nearest sigs labelIndex c :
  nearestMarkerBefore sigs labelIndex c ->
  resolveContext sigs labelIndex = Some (sig_type c).
Proof.
  intros (Hin & Hlt & Hnear & Hbest).
  unfold resolveContext, nearbyContext.
  set (nearby := filter (fun s => Z.abs (sig_index s - labelIndex) <? 3000) sigs).
  assert (Hc : In c nearby)
    by (apply filter_In; split; auto; apply Z.ltb_lt; lia).
  destruct nearby as [|n ns] eqn:En; [destruct Hc|].
  set (before := filter (fun s => sig_index s <? labelIndex) (n :: ns)).
  assert (Hb : In c before)
    by (apply filter_In; split; auto; apply Z.ltb_lt; lia).
  destruct before as [|b bs] eqn:Eb; [destruct Hb|].
  destruct (closestSignature_spec labelIndex b bs) as [Hr Hmin].
  set (r := closestSignature labelIndex b bs) in *.
  rewrite <- Eb in Hr, Hmin; subst before.
  apply filter_In in Hr; destruct Hr as [Hr Hrlt]; apply Z.ltb_lt in Hrlt.
  assert (Hrs : In r sigs).
  { rewrite <- En in Hr; subst nearby; now apply filter_In in Hr. }
  rewrite Eb in Hmin; specialize (Hmin c Hb).
  destruct (Hbest r Hrs Hrlt) as [Hlt' | ->]; [lia | reflexivity].
Qed.

(** Where no nearby marker lies before the label, the nearest one lies at
    or after it, so the test [labelIndex < closestSignature.index + 500]
    that follows always holds: the label is given the party of that marker,
    however far after the label the marker lies, and the fallback on the
    last markers is not reached. *)
Lemma later_marker_always_decides sigs labelIndex n ns :
  filter (fun s => Z.abs (sig_index s - labelIndex) <? 3000) sigs = n :: ns ->
  filter (fun s => sig_index s <? labelIndex) (n :: ns) = [] ->
  (labelIndex <? sig_index (closestSignature labelIndex n ns) + 500) = true
  /\ resolveContext sigs labelIndex
     = Some (sig_type (closestSignature labelIndex n ns)).
Proof.
  intros Hn Hb.
  destruct (closestSignature_spec labelIndex n ns) as [Hin _].
  assert (Hge : labelIndex <= sig_index (closestSignature labelIndex n ns)).
  { destruct (Z.ltb_spec (sig_index (closestSignature labelIndex n ns))
                labelIndex) as [Hlt | Hle]; auto.
    assert (H : In (closestSignature labelIndex n ns)
                  (filter (fun s => sig_index s <? labelIndex) (n :: ns)))
      by (apply filter_In; split; auto; now apply Z.ltb_lt).
    rewrite Hb in H; destruct H. }
  assert (Ht : (labelIndex <? sig_index (closestSignature labelIndex n ns) + 500)
               = true) by (apply Z.ltb_lt; lia).
  split; auto.
  unfold resolveContext, nearbyContext; rewrite Hn, Hb, Ht; reflexivity.
Qed.

Lemma Map_set_Forall {V} (P : jsstring * V -> Prop) (m : JsMap V) k v :
  (forall k', P (k', v)) -> Forall P m -> Forall P (Map_set m k v).
Proof.
  intros Hv; induction 1 as [|[k0 v0] m Hx Hall IH]; simpl.
  - constructor; auto.
  - destruct (jsstring_eqb k0 k); constructor; auto.
Qed.

Lemma Map_get_Forall {V} (P : jsstring * V -> Prop) (m : JsMap V) k v :
  Forall P m -> Map_get m k = Some v -> exists k', P (k', v).
Proof.
  induction 1 as [|[k0 v0] m Hx Hall IH]; simpl; [discriminate|].
  destruct (jsstring_eqb k0 k); auto.
  intros H; injection H as <-; eauto.
Qed.

Lemma currencyPass_noPosition text :
  Forall noPosition (c_placeholders (currencyPass text)).
Proof.
  unfold currencyPass.
  assert (H0 : Forall noPosition (c_placeholders (mkCurrencyState [] [] [])))
    by constructor.
  revert H0; generalize (mkCurrencyState [] [] []) as st.
  induction (currencyBlanks text) as [|[m ctx] bs IH]; cbn [fold_left]; auto.
  intros st Hst; apply IH.
  destruct (processCurrencyBlank_cases st m ctx) as [-> | [k [_ ->]]]; auto.
  apply Map_set_Forall; auto; intros; reflexivity.
Qed.

Lemma literalPass_noPosition text placeholders :
  Forall noPosition placeholders ->
  Forall noPosition (fst (literalPass text placeholders)).
Proof.
  intros H.
  apply (literalPass_invariant text (fun st => Forall noPosition (fst st)));
    auto.
  intros ty [pl seen] m Hst; cbn [fst] in Hst.
  destruct (processLiteralMatch_cases text ty pl seen m)
    as [seen' [-> | [nk [-> _]]]]; auto.
  apply Map_set_Forall; auto; intros; reflexivity.
Qed.

Lemma processLabelMatch_sets sigs label placeholders m p :
  (forall e, Map_get placeholders (uniqueKey p label) = Some e ->
             position e = None) ->
  resolveContext sigs (index m) = Some p ->
  processLabelMatch sigs label placeholders m
  = Map_set placeholders (uniqueKey p label)
      (mkInfo (uniqueKey p label) (trim (matched m)) [] square (Some p)
         (Some (index m))).
Proof.
  intros Hall H; unfold processLabelMatch; rewrite H.
  destruct (Map_get placeholders (uniqueKey p label)) as [existing|] eqn:G; auto.
  unfold samePosition; now rewrite (Hall existing eq_refl).
Qed.

Lemma noPosition_get placeholders k e :
  Forall noPosition placeholders -> Map_get placeholders k = Some e ->
  position e = None.
Proof.
  intros Hall G; destruct (Map_get_Forall _ _ _ _ Hall G) as [k' Hp]; exact Hp.
Qed.

Lemma labelPass_unfold text placeholders :
  labelPass text placeholders
  = fold_left
      (fun pl lf => fold_left (processLabelMatch (signatureMatches text) (snd lf))
                      (execAll (fst lf) text) pl)
      (tl labelFields)
      (fold_left (processLabelMatch (signatureMatches text) "Address")
         (execAll addressRegex text) placeholders).
Proof. reflexivity. Qed.

Lemma tail_labels_frame text placeholders k :
  k = ("Company Address" : jsstring) \/ k = ("Investor Address" : jsstring) ->
  Map_get
    (fold_left
       (fun pl lf => fold_left (processLabelMatch (signatureMatches text) (snd lf))
                       (execAll (fst lf) text) pl)
       (tl labelFields) placeholders) k
  = Map_get placeholders k.
Proof.
  intros Hk.
  assert (H : forall lf, In lf (tl labelFields) ->
                forall p, uniqueKey p (snd lf) <> k).
  { intros lf Hlf p; simpl in Hlf.
    destruct Hlf as [<- | [<- | [<- | []]]]; destruct p, Hk as [-> | ->];
      vm_compute; discriminate. }
  revert placeholders; induction (tl labelFields) as [|lf lfs IH]; simpl; auto.
  intros pl; rewrite IH by (intros; apply H; now right).
  apply fold_processLabelMatch_frame, H; now left.
Qed.

(** Where the marker nearest before each of two [Address:] labels lies
    fewer than 3000 code units before it, a company marker for the first
    and an investor marker for the second, the catalog files the first
    label under [Company Address] with the party company and the second
    under [Investor Address] with the party investor, each with its own
    offset. *)
Lemma signature_page_addresses :
  forall (text : jsstring) (m1 m2 : RegExpMatch) (c i : SignatureMatch),
    execAll addressRegex text = [m1; m2] ->
    nearestMarkerBefore (signatureMatches text) (index m1) c ->
    sig_type c = company ->
    nearestMarkerBefore (signatureMatches text) (index m2) i ->
    sig_type i = investor ->
    Map_get (extractPlaceholders text) "Company Address"
    = Some (mkInfo "Company Address" (trim (matched m1)) [] square
              (Some company) (Some (index m1)))
    /\ Map_get (extractPlaceholders text) "Investor Address"
       = Some (mkInfo "Investor Address" (trim (matched m2)) [] square
                 (Some investor) (Some (index m2))).
Proof.
  intros text m1 m2 c i Hms Hc Tc Hi Ti.
  apply resolveContext_nearest in Hc, Hi; rewrite Tc in Hc; rewrite Ti in Hi.
  unfold extractPlaceholders; rewrite labelPass_unfold.
  rewrite !tail_labels_frame by auto.
  rewrite Hms; cbn [fold_left].
  set (pl := fst (literalPass text (c_placeholders (currencyPass text)))).
  assert (Hpl : Forall noPosition pl)
    by apply literalPass_noPosition, currencyPass_noPosition.
  rewrite (processLabelMatch_sets _ _ pl _ company)
    by (auto; intros e; apply noPosition_get, Hpl).
  rewrite (processLabelMatch_sets _ _ _ _ investor)
    by (auto; intros e; rewrite Map_get_set_other by discriminate;
        apply noPosition_get, Hpl).
  split.
  - rewrite Map_get_set_other by discriminate. apply Map_get_set_same.
  - apply Map_get_set_same.
Qed.

Lemma signature_page_addresses_witness :
  Map_get (extractPlaceholders signaturePage) "Company Address"
  = Some (mkInfo "Company Address" "Address:" [] square (Some company) (Some 8))
  /\ Map_get (extractPlaceholders signaturePage) "Investor Address"
     = Some (mkInfo "Investor Address" "Address:" [] square (Some investor)
               (Some 26)).
Proof.
  apply (signature_page_addresses signaturePage
           (mkMatch 8 "Address:" []) (mkMatch 26 ("Address:" ++ lineFeed) [])
           (mkSignature 0 company "COMPANY")
           (mkSignature 17 investor "INVESTOR")).
  - reflexivity.
  - split; [vm_compute; tauto|]; split; [reflexivity|]; split; [reflexivity|].
    intros s Hs; vm_compute in Hs.
    destruct Hs as [<- | [<- | []]]; simpl; intros H;
      first [right; reflexivity | lia].
  - reflexivity.
  - split; [vm_compute; tauto|]; split; [reflexivity|]; split; [reflexivity|].
    intros s Hs; vm_compute in Hs.
    destruct Hs as [<- | [<- | []]]; simpl; intros H;
      first [right; reflexivity | lia].
  - reflexivity.
Defined.

(** C5: with 2993 code units between the company marker and the first
    label, the document still has the company marker, a label, the investor
    marker and a label again, in that order.  The company marker is 3001
    code units before the first label, out of the range of the nearby
    markers; the investor marker after the label is the only one near, the
    test that follows lets it decide, and the first label is read as the
    investor's: the catalog has no [Company Address]. *)
Lemma distant_company_marker_is_ignored :
  map (fun s => (sig_index s, sig_type s)) (signatureMatches longCompanySection)
  = [(0, company); (3010, investor)]
  /\ map index (execAll addressRegex longCompanySection) = [3001; 3019]
  /\ resolveContext (signatureMatches longCompanySection) 3001 = Some investor
  /\ Map_get (extractPlaceholders longCompanySection) "Company Address" = None
  /\ Map_get (extractPlaceholders longCompanySection) "Investor Address"
     = Some (mkInfo "Investor Address" "Address:" [] square (Some investor)
               (Some 3019)).
Proof. repeat split; vm_compute; reflexivity. Qed.

(** ** Scans of a text around one token *)

Lemma startsWith_app (p s : jsstring) : startsWith (p ++ s) p = true.
Proof.
  induction p as [|x p IH]; simpl; auto.
  now rewrite Ascii.eqb_refl.
Qed.

Lemma startsWith_head (s p : jsstring) (o : ascii) :
  startsWith s (o :: p) = true -> exists s', s = o :: s'.
Proof.
  destruct s as [|y s]; simpl; [discriminate|].
  rewrite andb_true_iff, Ascii.eqb_eq; intros [-> _]; eauto.
Qed.

Lemma skipn_length_app (p s : jsstring) : skipn (length p) (p ++ s) = s.
Proof. induction p; simpl; auto. Qed.

Lemma takeWhile_app_stop (f : ascii -> bool) (body rest : jsstring) (c : ascii) :
  forallb f body = true -> f c = false ->
  takeWhile f (body ++ c :: rest) = body.
Proof.
  intros Hb Hc; induction body as [|x body IH]; simpl in *.
  - now rewrite Hc.
  - apply andb_true_iff in Hb; destruct Hb as [-> Hb]; now rewrite IH.
Qed.

(** The match of a delimited pattern where a token stands. *)
Lemma delimited_at_token op inBody c0 cl body rest prev :
  body <> [] -> forallb inBody body = true -> inBody c0 = false ->
  delimited op inBody (c0 :: cl) prev (op ++ body ++ (c0 :: cl) ++ rest)
  = Some (op ++ body ++ c0 :: cl, body).
Proof.
  intros Hne Hb Hc; unfold delimited.
  rewrite startsWith_app, skipn_length_app.
  change ((c0 :: cl) ++ rest) with (c0 :: cl ++ rest).
  rewrite (takeWhile_app_stop _ _ _ _ Hb Hc), skipn_length_app.
  change (c0 :: cl ++ rest) with ((c0 :: cl) ++ rest).
  rewrite startsWith_app.
  destruct body; [congruence | reflexivity].
Qed.

Lemma delimited_needs_opener o op inBody cl prev c s :
  Ascii.eqb c o = false -> delimited (o :: op) inBody cl prev (c :: s) = None.
Proof.
  intros H; unfold delimited; simpl.
  now rewrite Ascii.eqb_sym, H.
Qed.

(** A scan finds nothing in a text on whose code units the pattern cannot
    start. *)
Lemma execAllFrom_nil (re : Matcher) (Q : ascii -> bool) :
  (forall prev c s, Q c = true -> re prev (c :: s) = None) ->
  forall s skip i prev,
    forallb Q s = true -> execAllFrom re skip i prev s = [].
Proof.
  intros Hre; induction s as [|c s IH]; simpl; auto.
  intros skip i prev H; apply andb_true_iff in H; destruct H as [Hc Hs].
  destruct skip; [rewrite (Hre _ _ _ Hc)|]; now apply IH.
Qed.

Lemma lastOf_cons (prev : option ascii) (c : ascii) (m : jsstring) :
  lastOf prev (c :: m) = lastOf (Some c) m.
Proof.
  revert prev c; induction m as [|a m IH]; intros prev c; [reflexivity|].
  transitivity (lastOf prev (a :: m)); [reflexivity|].
  now rewrite (IH prev a), (IH (Some c) a).
Qed.

Lemma execAllFrom_prefix (re : Matcher) (Q : ascii -> bool) :
  (forall prev c s, Q c = true -> re prev (c :: s) = None) ->
  forall pre s i prev,
    forallb Q pre = true ->
    execAllFrom re 0 i prev (pre ++ s)
    = execAllFrom re 0 (i + len pre) (lastOf prev pre) s.
Proof.
  intros Hre; induction pre as [|c pre IH]; intros s i prev H.
  - replace (i + len []) with i by (unfold len; simpl; lia); reflexivity.
  - simpl in H; apply andb_true_iff in H; destruct H as [Hc Hp].
    simpl; rewrite (Hre _ _ _ Hc), (IH _ _ _ Hp), lastOf_cons.
    replace (i + 1 + len pre) with (i + len (c :: pre))
      by (unfold len; simpl length; lia).
    reflexivity.
Qed.

Lemma execAllFrom_skip (re : Matcher) (m s : jsstring) i prev :
  execAllFrom re (length m) i prev (m ++ s)
  = execAllFrom re 0 (i + len m) (lastOf prev m) s.
Proof.
  revert i prev; induction m as [|c m IH]; intros i prev.
  - replace (i + len []) with i by (unfold len; simpl; lia); reflexivity.
  - simpl; rewrite IH, lastOf_cons.
    replace (i + 1 + len m) with (i + len (c :: m))
      by (unfold len; simpl length; lia).
    reflexivity.
Qed.

(** One token, no other place where the pattern can start: one match. *)
Lemma execAll_one_match (re : Matcher) (Q : ascii -> bool)
    (pre tok post g : jsstring) :
  (forall prev c s, Q c = true -> re prev (c :: s) = None) ->
  forallb Q pre = true -> forallb Q post = true ->
  tok <> [] ->
  re (lastOf None pre) (tok ++ post) = Some (tok, g) ->
  execAll re (pre ++ tok ++ post) = [mkMatch (len pre) tok g].
Proof.
  intros Hre Hpre Hpost Hne Hm; unfold execAll.
  rewrite (execAllFrom_prefix re Q Hre) by auto.
  destruct tok as [|t tok]; [congruence|].
  change ((t :: tok) ++ post) with (t :: tok ++ post) in *.
  cbn [execAllFrom]; rewrite Hm.
  replace (length (t :: tok) - 1)%nat with (length tok) by (simpl; lia).
  rewrite execAllFrom_skip, (execAllFrom_nil re Q Hre) by auto.
  reflexivity.
Qed.

(** Where the one opening code unit is not followed by a second one, a
    pattern that opens with two of them finds nothing. *)
Lemma execAll_single_opener o op inBody cl (pre rest : jsstring) :
  forallb (fun c => negb (Ascii.eqb c o)) pre = true ->
  forallb (fun c => negb (Ascii.eqb c o)) rest = true ->
  execAll (delimited (o :: o :: op) inBody cl) (pre ++ o :: rest) = [].
Proof.
  intros Hpre Hrest; unfold execAll.
  assert (Hre : forall prev c s, negb (Ascii.eqb c o) = true ->
                  delimited (o :: o :: op) inBody cl prev (c :: s) = None)
    by (intros; apply delimited_needs_opener; now apply negb_true_iff).
  rewrite (execAllFrom_prefix _ _ Hre) by auto.
  cbn [execAllFrom].
  assert (Hn : delimited (o :: o :: op) inBody cl (lastOf None pre) (o :: rest)
               = None).
  { unfold delimited; simpl; rewrite Ascii.eqb_refl; simpl.
    destruct rest as [|r rest]; auto.
    simpl in Hrest; apply andb_true_iff in Hrest; destruct Hrest as [Hr _].
    apply negb_true_iff in Hr; now rewrite Ascii.eqb_sym, Hr. }
  rewrite Hn; now apply (execAllFrom_nil _ _ Hre).
Qed.

(** ** Plain text *)

Lemma plainChar_not (c : ascii) :
  plainChar c = true ->
  Ascii.eqb c "[" = false /\ Ascii.eqb c "]" = false
  /\ Ascii.eqb c "{" = false /\ Ascii.eqb c "}" = false
  /\ Ascii.eqb c "<" = false /\ Ascii.eqb c ">" = false
  /\ Ascii.eqb c "$" = false /\ Ascii.eqb c ":" = false.
Proof.
  unfold plainChar, isNot; simpl.
  rewrite negb_true_iff, !orb_false_iff; tauto.
Qed.

Lemma forallb_impl {A} (f g : A -> bool) (l : list A) :
  (forall x, f x = true -> g x = true) ->
  forallb f l = true -> forallb g l = true.
Proof.
  intros H; induction l as [|x l IH]; simpl; auto.
  rewrite !andb_true_iff; intros [Hx Hl]; auto.
Qed.

Lemma plainText_lacks (o : ascii) (s : jsstring) :
  plainChar o = false -> plainText s = true -> lacks o s = true.
Proof.
  intros Ho; apply forallb_impl; intros c Hc.
  apply negb_true_iff; destruct (Ascii.eqb c o) eqn:E; auto.
  apply Ascii.eqb_eq in E; congruence.
Qed.

Lemma lacks_app (o : ascii) (a b : jsstring) :
  lacks o (a ++ b) = lacks o a && lacks o b.
Proof. apply forallb_app. Qed.

(** ** Patterns that cannot match in plain text *)

Lemma execAllFrom_nil_text (re : Matcher) (Q : ascii -> bool) :
  (forall prev s, forallb Q s = true -> re prev s = None) ->
  forall s skip i prev,
    forallb Q s = true -> execAllFrom re skip i prev s = [].
Proof.
  intros Hre; induction s as [|c s IH]; simpl; auto.
  intros skip i prev H.
  assert (Hs : forallb Q s = true)
    by (apply andb_true_iff in H; tauto).
  destruct skip; [rewrite (Hre prev (c :: s)) by exact H|]; now apply IH.
Qed.

Lemma canonicalize_colon (y : ascii) :
  canonicalize y = canonicalize ":" -> y = ":"%char.
Proof.
  destruct y as [[|] [|] [|] [|] [|] [|] [|] [|]]; vm_compute; intros H;
    first [reflexivity | discriminate H].
Qed.

Lemma ciStartsWith_colon (s p : jsstring) :
  ciStartsWith s p = true -> In ":"%char p -> In ":"%char s.
Proof.
  revert s; induction p as [|x p IH]; intros s; [intros _ []|].
  destruct s as [|y s]; simpl; [discriminate|].
  rewrite andb_true_iff, Ascii.eqb_eq; intros [Hxy Hp] [-> | Hin].
  - left; now apply canonicalize_colon.
  - right; now apply IH.
Qed.

Lemma lacks_not_In (o : ascii) (s : jsstring) :
  lacks o s = true -> ~ In o s.
Proof.
  unfold lacks; rewrite forallb_forall; intros H Hin.
  specialize (H _ Hin); now rewrite Ascii.eqb_refl in H.
Qed.

Lemma label_regex_needs_colon guard (p : jsstring) prev (s : jsstring) :
  In ":"%char p -> lacks ":" s = true ->
  ciLiteralToLineEnd guard p prev s = None.
Proof.
  intros Hp Hs; unfold ciLiteralToLineEnd.
  destruct (ciStartsWith s p) eqn:E; [|now rewrite andb_false_r].
  exfalso; apply (lacks_not_In _ s Hs); now apply (ciStartsWith_colon s p).
Qed.

Lemma labelFields_no_colon (text : jsstring) lf :
  lacks ":" text = true -> In lf labelFields -> execAll (fst lf) text = [].
Proof.
  intros Ht Hlf; unfold execAll.
  apply (execAllFrom_nil_text _ (fun c => negb (Ascii.eqb c ":"))); auto.
  intros prev s Hs; simpl in Hlf.
  destruct Hlf as [<- | [<- | [<- | [<- | []]]]]; simpl fst;
    apply label_regex_needs_colon; auto; simpl; tauto.
Qed.

Lemma labelPass_no_colon (text : jsstring) (placeholders : JsMap PlaceholderInfo) :
  lacks ":" text = true -> labelPass text placeholders = placeholders.
Proof.
  intros Ht; apply labelPass_all_unresolved.
  intros lf m Hlf Hm; rewrite (labelFields_no_colon text lf Ht Hlf) in Hm.
  destruct Hm.
Qed.

Lemma delimited_lacks_opener o op inBody cl (text : jsstring) :
  lacks o text = true -> execAll (delimited (o :: op) inBody cl) text = [].
Proof.
  intros Ht; unfold execAll.
  apply (execAllFrom_nil _ (fun c => negb (Ascii.eqb c o))); auto.
  intros prev c s Hc; apply delimited_needs_opener; now apply negb_true_iff.
Qed.

Lemma currencyPass_no_dollar (text : jsstring) :
  lacks "$" text = true -> currencyPass text = mkCurrencyState [] [] [].
Proof.
  intros Ht; unfold currencyPass, currencyBlanks, currencyRegex.
  change (list_ascii_of_string "$[") with ("$"%char :: list_ascii_of_string "[").
  now rewrite delimited_lacks_opener.
Qed.

(** ** The second pass on a document with one token *)

Lemma scan_token o op inBody c0 cl (pre body post : jsstring) :
  lacks o pre = true -> lacks o post = true ->
  body <> [] -> forallb inBody body = true -> inBody c0 = false ->
  execAll (delimited (o :: op) inBody (c0 :: cl))
    (pre ++ ((o :: op) ++ body ++ c0 :: cl) ++ post)
  = [mkMatch (len pre) ((o :: op) ++ body ++ c0 :: cl) body].
Proof.
  intros Hpre Hpost Hne Hb Hc.
  apply (execAll_one_match _ (fun c => negb (Ascii.eqb c o))); auto.
  - intros prev c s H; apply delimited_needs_opener; now apply negb_true_iff.
  - discriminate.
  - rewrite <- !app_assoc.
    now apply (delimited_at_token (o :: op) inBody c0 cl body post).
Qed.

Lemma isNot_lacks (c : ascii) (s : jsstring) :
  forallb (isNot (String c "")) s = lacks c s.
Proof.
  induction s as [|x s IH]; simpl; auto.
  rewrite IH; unfold isNot; simpl; now rewrite orb_false_r.
Qed.

Lemma Map_set_absent {V} (m : JsMap V) k v :
  Map_get m k = None -> Map_set m k v = m ++ [(k, v)].
Proof.
  induction m as [|[k0 v0] m IH]; simpl; auto.
  destruct (jsstring_eqb k0 k); [discriminate|].
  intros H; now rewrite IH.
Qed.

(** The first match that yields a key goes into the empty catalog. *)
Lemma processLiteralMatch_first text ty m :
  isBlankKey (trim (group1 m)) = false ->
  normalizedKeyOf (group1 m) <> [] ->
  exists k,
    processLiteralMatch text ty ([], []) m
    = ([(k, mkInfo k (matched m) [] ty None None)], [matched m]).
Proof.
  intros Hb Hk; unfold processLiteralMatch; cbv beta iota zeta.
  rewrite Hb; cbn [Set_has existsb Set_add app].
  fold (normalizedKeyOf (group1 m)).
  destruct (normalizedKeyOf (group1 m)) as [|c k] eqn:E; [congruence|].
  cbn [isEmpty].
  match goal with |- context [Map_set [] ?k _] => set (nk := k) end.
  exists nk.
  destruct (negb _ || negb _); reflexivity.
Qed.

(** With no signature wording in the key, the key is the normalized text. *)
Lemma processLiteralMatch_plain_key text ty placeholders seenFormats m :
  isBlankKey (trim (group1 m)) = false ->
  Set_has seenFormats (matched m) = false ->
  normalizedKeyOf (group1 m) <> [] ->
  jsstring_eqb (normalizedKeyOf (group1 m)) "COMPANY" = false ->
  jsstring_eqb (toLowerCase (normalizedKeyOf (group1 m))) "name" = false ->
  jsstring_eqb (toLowerCase (normalizedKeyOf (group1 m))) "title" = false ->
  Map_get placeholders (normalizedKeyOf (group1 m)) = None ->
  processLiteralMatch text ty (placeholders, seenFormats) m
  = (placeholders ++ [(normalizedKeyOf (group1 m),
                       mkInfo (normalizedKeyOf (group1 m)) (matched m) [] ty
                         None None)],
     Set_add seenFormats (matched m)).
Proof.
  intros Hb Hs Hk Hc Hn Ht Hg; unfold processLiteralMatch; cbv beta iota zeta.
  rewrite Hb, Hs.
  fold (normalizedKeyOf (group1 m)).
  destruct (isEmpty (normalizedKeyOf (group1 m))) eqn:E;
    [destruct (normalizedKeyOf (group1 m)); [congruence | discriminate]|].
  rewrite Hc, Hn, Ht; cbn [andb orb negb].
  destruct (negb _ || negb _); [rewrite Hg|]; now rewrite Map_set_absent.
Qed.

(** A match other than [[COMPANY]] leaves the entries of the catalog in
    place and at most adds one behind them. *)
Lemma processLiteralMatch_appends text ty placeholders seenFormats m :
  matched m <> ("[COMPANY]" : jsstring) ->
  exists seenFormats',
    processLiteralMatch text ty (placeholders, seenFormats) m
    = (placeholders, seenFormats')
    \/ exists k,
         processLiteralMatch text ty (placeholders, seenFormats) m
         = (placeholders ++ [(k, mkInfo k (matched m) [] ty None None)],
            seenFormats').
Proof.
  intros Hm; unfold processLiteralMatch; cbv beta iota zeta.
  destruct (isBlankKey _); [eexists; left; reflexivity|].
  destruct (Set_has _ _); [eexists; left; reflexivity|].
  destruct (isEmpty _); [eexists; left; reflexivity|].
  match goal with |- context [Map_set placeholders ?k _] => set (nk := k) end.
  apply jsstring_eqb_neq in Hm; rewrite Hm, orb_true_r.
  destruct (Map_get placeholders nk) eqn:G.
  - eexists; left; reflexivity.
  - eexists; right; exists nk; now rewrite Map_set_absent.
Qed.

(** ** Keys in normalized form *)

Lemma dropWhile_length (f : ascii -> bool) (l : jsstring) :
  (length (dropWhile f l) <= length l)%nat.
Proof.
  induction l as [|x l IH]; simpl; auto.
  destruct (f x); simpl; lia.
Qed.

Lemma dropWhile_same_length (f : ascii -> bool) (l : jsstring) :
  length (dropWhile f l) = length l -> dropWhile f l = l.
Proof.
  destruct l as [|x l]; simpl; auto.
  destruct (f x); auto.
  pose proof (dropWhile_length f l); lia.
Qed.

Lemma dropWhile_app_stop (f : ascii -> bool) (l : jsstring) (c : ascii) :
  f c = false -> dropWhile f (l ++ [c]) = dropWhile f l ++ [c].
Proof.
  intros Hc; induction l as [|x l IH]; simpl.
  - now rewrite Hc.
  - destruct (f x); auto.
Qed.

Lemma trim_fixed_end (X : jsstring) :
  trim X = X -> rev (dropWhile isWhiteSpace (rev X)) = X.
Proof.
  unfold trim, trimStart; intros H.
  assert (Hl : length (dropWhile isWhiteSpace X) = length X).
  { pose proof (dropWhile_length isWhiteSpace X) as H1.
    pose proof (dropWhile_length isWhiteSpace (rev (dropWhile isWhiteSpace X)))
      as H2.
    rewrite length_rev in H2.
    apply (f_equal (@length ascii)) in H; rewrite length_rev in H; lia. }
  now rewrite (dropWhile_same_length _ _ Hl) in H.
Qed.

Lemma trim_cons (c : ascii) (X : jsstring) :
  isWhiteSpace c = false -> trim X = X -> trim (c :: X) = c :: X.
Proof.
  intros Hc HX; unfold trim, trimStart; simpl dropWhile at 2; rewrite Hc.
  simpl rev at 2.
  rewrite (dropWhile_app_stop _ _ _ Hc), rev_app_distr; simpl.
  now rewrite trim_fixed_end.
Qed.

Lemma normalizedKeyOf_fixed (X : jsstring) :
  trim X = X -> collapseWhitespace false X = X -> normalizedKeyOf X = X.
Proof. intros Ht Hc; unfold normalizedKeyOf; now rewrite Ht, Hc, Ht. Qed.

Lemma normalizedKeyOf_cons (c : ascii) (X : jsstring) :
  isWhiteSpace c = false ->
  trim X = X -> collapseWhitespace false X = X ->
  normalizedKeyOf (c :: X) = c :: X.
Proof.
  intros Hc Ht Hx; unfold normalizedKeyOf.
  rewrite (trim_cons c X Hc Ht); simpl; rewrite Hc, Hx.
  now apply trim_cons.
Qed.

Lemma jsstring_eqb_cons_self (c : ascii) (X : jsstring) :
  jsstring_eqb X (c :: X) = false.
Proof.
  apply jsstring_eqb_neq; intros H.
  apply (f_equal (@length ascii)) in H; simpl in H; lia.
Qed.

Lemma execAll_first_match (re : Matcher) (Q : ascii -> bool)
    (pre tok post g : jsstring) :
  (forall prev c s, Q c = true -> re prev (c :: s) = None) ->
  forallb Q pre = true ->
  tok <> [] ->
  re (lastOf None pre) (tok ++ post) = Some (tok, g) ->
  exists rest, execAll re (pre ++ tok ++ post) = mkMatch (len pre) tok g :: rest.
Proof.
  intros Hre Hpre Hne Hm; unfold execAll.
  rewrite (execAllFrom_prefix re Q Hre) by auto.
  destruct tok as [|t tok]; [congruence|].
  change ((t :: tok) ++ post) with (t :: tok ++ post) in *.
  cbn [execAllFrom]; rewrite Hm; eauto.
Qed.

Lemma scan_token_first o op inBody c0 cl (pre body post : jsstring) :
  lacks o pre = true ->
  body <> [] -> forallb inBody body = true -> inBody c0 = false ->
  exists rest,
    execAll (delimited (o :: op) inBody (c0 :: cl))
      (pre ++ ((o :: op) ++ body ++ c0 :: cl) ++ post)
    = mkMatch (len pre) ((o :: op) ++ body ++ c0 :: cl) body :: rest.
Proof.
  intros Hpre Hne Hb Hc.
  apply (execAll_first_match _ (fun c => negb (Ascii.eqb c o))); auto.
  - intros prev c s H; apply delimited_needs_opener; now apply negb_true_iff.
  - discriminate.
  - rewrite <- !app_assoc.
    now apply (delimited_at_token (o :: op) inBody c0 cl body post).
Qed.

(** A double-curly token read as a single-curly one: the same text, split
    after the first brace. *)
Lemma double_curly_as_curly (pre X post : jsstring) :
  pre ++ tokenOf double_curly X ++ post
  = pre ++ (("{"%char :: []) ++ ("{"%char :: X) ++ "}"%char :: [])
        ++ ("}"%char :: post).
Proof. unfold tokenOf; simpl; now rewrite <- !app_assoc. Qed.

Lemma lacks_token (o : ascii) (ty : PlaceholderType) (pre body post : jsstring) :
  plainChar o = false ->
  lacks o (tokenOf ty []) = true ->
  plainText pre = true -> plainText body = true -> plainText post = true ->
  lacks o (pre ++ tokenOf ty body ++ post) = true.
Proof.
  intros Ho Ht Hpre Hbody Hpost.
  rewrite !lacks_app, (plainText_lacks o pre), (plainText_lacks o post) by auto.
  rewrite andb_true_r; simpl.
  pose proof (plainText_lacks o body Ho Hbody) as Hb.
  destruct ty; simpl in *; rewrite ?lacks_app, ?Hb;
    repeat match goal with
           | |- context [negb (Ascii.eqb ?a o)] =>
               destruct (negb (Ascii.eqb a o)); try discriminate
           end; simpl; rewrite ?lacks_app, ?Hb; auto.
Qed.


(** ** One token, one entry *)

Lemma countOccurrences_lacks (o : ascii) (p s : jsstring) :
  lacks o s = true -> countOccurrences s (o :: p) = 0%nat.
Proof.
  induction s as [|c s IH]; simpl; auto.
  rewrite andb_true_iff, negb_true_iff; intros [Hc Hs].
  now rewrite Ascii.eqb_sym, Hc, IH.
Qed.

Lemma countOccurrences_prefix (o : ascii) (p pre s : jsstring) :
  lacks o pre = true ->
  countOccurrences (pre ++ s) (o :: p) = countOccurrences s (o :: p).
Proof.
  induction pre as [|c pre IH]; auto.
  cbn [lacks forallb]; rewrite andb_true_iff, negb_true_iff; intros [Hc Hs].
  change ((c :: pre) ++ s) with (c :: pre ++ s).
  cbn [countOccurrences startsWith]; now rewrite Ascii.eqb_sym, Hc, IH.
Qed.

Lemma countOccurrences_token (o : ascii) (p pre post : jsstring) :
  lacks o pre = true ->
  countOccurrences (p ++ post) (o :: p) = 0%nat ->
  countOccurrences (pre ++ (o :: p) ++ post) (o :: p) = 1%nat.
Proof.
  intros Hpre H0; rewrite countOccurrences_prefix by auto.
  change ((o :: p) ++ post) with (o :: p ++ post).
  cbn [countOccurrences startsWith].
  now rewrite Ascii.eqb_refl, startsWith_app, H0.
Qed.

(** In a document that is plain but for one token, the token occurs
    once. *)
Lemma token_occurs_once (ty : PlaceholderType) (pre body post : jsstring) :
  ty <> currency_blank -> body <> [] ->
  plainText pre = true -> plainText body = true -> plainText post = true ->
  countOccurrences (pre ++ tokenOf ty body ++ post) (tokenOf ty body) = 1%nat.
Proof.
  intros Hty Hne Ppre Pbody Ppost.
  assert (L : forall o s cl, plainChar o = false -> plainText s = true ->
                lacks o cl = true -> lacks o ((s ++ cl) ++ post) = true).
  { intros o s cl Ho Hs Hcl; rewrite !lacks_app, Hcl.
    now rewrite (plainText_lacks o s), (plainText_lacks o post). }
  destruct body as [|b body]; [congruence|].
  assert (Pb : plainChar b = true /\ plainText body = true)
    by (cbn [plainText forallb] in Pbody; now apply andb_true_iff in Pbody).
  destruct Pb as [Pb Pbody'].
  destruct (plainChar_not b Pb) as (B1 & B2 & B3 & B4 & B5 & B6 & B7 & B8).
  destruct ty; try congruence.
  - change (tokenOf square (b :: body))
      with ("["%char :: ((b :: body) ++ ["]"%char])).
    apply countOccurrences_token; [now apply plainText_lacks|].
    apply countOccurrences_lacks, L; auto.
  - change (tokenOf curly (b :: body))
      with ("{"%char :: ((b :: body) ++ ["}"%char])).
    apply countOccurrences_token; [now apply plainText_lacks|].
    apply countOccurrences_lacks, L; auto.
  - change (tokenOf double_curly (b :: body))
      with ("{"%char :: ("{"%char :: (b :: body) ++ ["}"%char; "}"%char])).
    apply countOccurrences_token; [now apply plainText_lacks|].
    change (("{"%char :: (b :: body) ++ ["}"%char; "}"%char]) ++ post)
      with ("{"%char :: b :: (body ++ ["}"%char; "}"%char]) ++ post).
    cbn [countOccurrences startsWith].
    rewrite (Ascii.eqb_sym "{" b), B3, andb_false_r, andb_false_l.
    cbn [Nat.add].
    apply countOccurrences_lacks, L; auto.
  - change (tokenOf angle (b :: body))
      with ("<"%char :: ("<"%char :: (b :: body) ++ [">"%char; ">"%char])).
    apply countOccurrences_token; [now apply plainText_lacks|].
    change (("<"%char :: (b :: body) ++ [">"%char; ">"%char]) ++ post)
      with ("<"%char :: b :: (body ++ [">"%char; ">"%char]) ++ post).
    cbn [countOccurrences startsWith].
    rewrite (Ascii.eqb_sym "<" b), B5, andb_false_r, andb_false_l.
    cbn [Nat.add].
    apply countOccurrences_lacks, L; auto.
Qed.

Lemma normalizedKeyOf_nonempty (body : jsstring) :
  normalizedKeyOf body <> [] -> body <> [].
Proof. intros H ->; now apply H. Qed.

Lemma entriesWithFormat_single (token k : jsstring) (ty : PlaceholderType) :
  entriesWithFormat token [(k, mkInfo k token [] ty None None)]
  = [(k, mkInfo k token [] ty None None)].
Proof.
  unfold entriesWithFormat; cbn [filter snd originalFormat].
  now rewrite jsstring_eqb_refl.
Qed.

Lemma doubleCurlyRegex_lacks (text : jsstring) :
  lacks "{" text = true -> execAll doubleCurlyRegex text = [].
Proof. exact (delimited_lacks_opener "{" ["{"%char] _ _ text). Qed.

Lemma angleRegex_lacks (text : jsstring) :
  lacks "<" text = true -> execAll angleRegex text = [].
Proof. exact (delimited_lacks_opener "<" ["<"%char] _ _ text). Qed.

Lemma squareRegex_lacks (text : jsstring) :
  lacks "[" text = true -> execAll squareRegex text = [].
Proof. exact (delimited_lacks_opener "[" [] _ _ text). Qed.

Lemma curlyRegex_lacks (text : jsstring) :
  lacks "{" text = true -> execAll curlyRegex text = [].
Proof. exact (delimited_lacks_opener "{" [] _ _ text). Qed.

Section TokenScans.

Variables pre body post : jsstring.
Hypothesis Ppre : plainText pre = true.
Hypothesis Pbody : plainText body = true.
Hypothesis Ppost : plainText post = true.
Hypothesis Hne : body <> [].

Lemma body_inside (c : ascii) :
  plainChar c = false -> forallb (isNot (String c "")) body = true.
Proof. intros Hc; rewrite isNot_lacks; now apply plainText_lacks. Qed.

Lemma squareRegex_token :
  execAll squareRegex (pre ++ tokenOf square body ++ post)
  = [mkMatch (len pre) (tokenOf square body) body].
Proof.
  apply (scan_token "[" [] (isNot "]") "]" [] pre body post);
    auto using plainText_lacks, body_inside.
Qed.

Lemma angleRegex_token :
  execAll angleRegex (pre ++ tokenOf angle body ++ post)
  = [mkMatch (len pre) (tokenOf angle body) body].
Proof.
  apply (scan_token "<" ["<"%char] (isNot ">") ">" [">"%char] pre body post);
    auto using plainText_lacks, body_inside.
Qed.

Lemma curlyRegex_token :
  execAll curlyRegex (pre ++ tokenOf curly body ++ post)
  = [mkMatch (len pre) (tokenOf curly body) body].
Proof.
  apply (scan_token "{" [] (isNot "}") "}" [] pre body post);
    auto using plainText_lacks, body_inside.
Qed.

Lemma doubleCurlyRegex_token :
  execAll doubleCurlyRegex (pre ++ tokenOf double_curly body ++ post)
  = [mkMatch (len pre) (tokenOf double_curly body) body].
Proof.
  apply (scan_token "{" ["{"%char] (isNot "}") "}" ["}"%char] pre body post);
    auto using plainText_lacks, body_inside.
Qed.

Lemma curlyRegex_double_token :
  execAll curlyRegex (pre ++ tokenOf double_curly body ++ post)
  = [mkMatch (len pre) ("{{" ++ body ++ "}") ("{" ++ body)].
Proof.
  rewrite double_curly_as_curly.
  apply (scan_token "{" [] (isNot "}") "}" [] pre ("{"%char :: body)
           ("}"%char :: post)); auto using plainText_lacks; try discriminate.
  - change (lacks "{" post = true); now apply plainText_lacks.
  - change (forallb (isNot "}") body = true); now apply body_inside.
Qed.

Lemma doubleCurlyRegex_curly_token :
  execAll doubleCurlyRegex (pre ++ tokenOf curly body ++ post) = [].
Proof.
  replace (pre ++ tokenOf curly body ++ post)
    with (pre ++ "{"%char :: body ++ "}" ++ post)
    by (unfold tokenOf; simpl; now rewrite <- app_assoc).
  apply (execAll_single_opener "{" [] (isNot "}") "}}" pre
           (body ++ "}" ++ post)); [now apply plainText_lacks|].
  change (lacks "{" (body ++ "}" ++ post) = true).
  rewrite !lacks_app.
  now rewrite (plainText_lacks "{" body), (plainText_lacks "{" post).
Qed.

End TokenScans.

(** ** At most one entry for a token *)

Lemma execAllFrom_Forall (re : Matcher) (P : RegExpMatch -> Prop) :
  (forall prev s m g i, re prev s = Some (m, g) -> P (mkMatch i m g)) ->
  forall s skip i prev, Forall P (execAllFrom re skip i prev s).
Proof.
  intros Hre; induction s as [|c s IH]; intros skip i prev; simpl;
    [constructor|].
  destruct skip as [|k]; auto.
  destruct (re prev (c :: s)) as [[m g]|] eqn:E; auto.
  constructor; auto; now apply (Hre prev (c :: s)).
Qed.

Lemma entriesWithFormat_set token (m : JsMap PlaceholderInfo) k v :
  (length (entriesWithFormat token (Map_set m k v))
   <= length (entriesWithFormat token m)
      + (if jsstring_eqb (originalFormat v) token then 1 else 0))%nat.
Proof.
  unfold entriesWithFormat.
  induction m as [|[k' v'] m IH]; cbn [Map_set filter snd].
  - destruct (jsstring_eqb (originalFormat v) token); simpl; lia.
  - destruct (jsstring_eqb k' k); cbn [filter snd].
    + destruct (jsstring_eqb (originalFormat v) token),
               (jsstring_eqb (originalFormat v') token); simpl; lia.
    + destruct (jsstring_eqb (originalFormat v') token); simpl; lia.
Qed.

Lemma entriesWithFormat_set_other token (m : JsMap PlaceholderInfo) k v :
  jsstring_eqb (originalFormat v) token = false ->
  (length (entriesWithFormat token (Map_set m k v))
   <= length (entriesWithFormat token m))%nat.
Proof.
  intros H; pose proof (entriesWithFormat_set token m k v) as L.
  rewrite H in L; lia.
Qed.

Lemma opensToken_differs (token f : jsstring) :
  opensToken token = true -> opensToken f = false ->
  jsstring_eqb f token = false.
Proof.
  intros Ht Hf; destruct (jsstring_eqb f token) eqn:E; auto.
  apply jsstring_eqb_eq in E; congruence.
Qed.

(** The first pass files texts that begin with [$]. *)
Lemma currencyBlanks_formats text :
  Forall (fun b => opensToken (matched (fst b)) = false) (currencyBlanks text).
Proof.
  unfold currencyBlanks; apply Forall_map; cbn [fst].
  apply execAllFrom_Forall.
  intros prev s m g i; unfold currencyRegex, delimited.
  destruct (startsWith s "$["); [|discriminate].
  destruct (negb _ && _); [|discriminate].
  intros H; injection H as <- _; reflexivity.
Qed.

Lemma currencyPass_formats text token :
  opensToken token = true ->
  entriesWithFormat token (c_placeholders (currencyPass text)) = [].
Proof.
  intros Ht; unfold currencyPass.
  assert (H0 : entriesWithFormat token
                 (c_placeholders (mkCurrencyState [] [] [])) = [])
    by reflexivity.
  revert H0; generalize (mkCurrencyState [] [] []) as st.
  induction (currencyBlanks_formats text) as [|[m ctx] bs Hm Hbs IH];
    cbn [fold_left]; auto.
  intros st Hst; apply IH; cbn [fst] in Hm.
  destruct (processCurrencyBlank_cases st m ctx) as [-> | [k [_ ->]]]; auto.
  pose proof (entriesWithFormat_set_other token (c_placeholders st) k
                (currencyInfo k (matched m))
                (opensToken_differs _ _ Ht Hm)) as L.
  rewrite Hst in L; cbn [length] in L.
  apply length_zero_iff_nil; lia.
Qed.

(** The second pass files a text once: [seenFormats] holds it from then
    on. *)
Lemma processLiteralMatch_seen text ty placeholders seenFormats m :
  processLiteralMatch text ty (placeholders, seenFormats) m
  = (placeholders, seenFormats)
  \/ Set_has seenFormats (matched m) = false
     /\ exists placeholders',
          processLiteralMatch text ty (placeholders, seenFormats) m
          = (placeholders', Set_add seenFormats (matched m))
          /\ (placeholders' = placeholders
              \/ exists normalizedKey,
                   placeholders'
                   = Map_set placeholders normalizedKey
                       (mkInfo normalizedKey (matched m) [] ty None None)).
Proof.
  unfold processLiteralMatch; cbv beta iota zeta.
  destruct (isBlankKey _); [now left|].
  destruct (Set_has _ _) eqn:Es; [now left|].
  right; split; [reflexivity|].
  destruct (isEmpty _); [eexists; split; [reflexivity | now left]|].
  match goal with |- context [Map_set placeholders ?k _] => set (nk := k) end.
  destruct (negb (jsstring_eqb nk "Company Name")
            || negb (jsstring_eqb (matched m) "[COMPANY]")).
  - destruct (Map_get placeholders nk).
    + eexists; split; [reflexivity | now left].
    + eexists; split; [reflexivity | right; now exists nk].
  - eexists; split; [reflexivity | right; now exists nk].
Qed.

Lemma literalPass_formats text placeholders token :
  entriesWithFormat token placeholders = [] ->
  (length (entriesWithFormat token (fst (literalPass text placeholders)))
   <= 1)%nat.
Proof.
  intros H0.
  apply (literalPass_invariant text
           (fun st => (length (entriesWithFormat token (fst st)) <= 1)%nat
                      /\ (Set_has (snd st) token = false ->
                          entriesWithFormat token (fst st) = []))).
  - intros ty [pl seen] m [H1 H2]; cbn [fst snd] in H1, H2.
    destruct (processLiteralMatch_seen text ty pl seen m)
      as [-> | [Hs [pl' [-> [-> | [nk ->]]]]]]; cbn [fst snd]; auto.
    + split; auto; intros H; apply H2.
      rewrite Set_has_add in H; now apply orb_false_iff in H.
    + pose proof (entriesWithFormat_set token pl nk
                    (mkInfo nk (matched m) [] ty None None)) as L.
      cbn [originalFormat] in L.
      destruct (jsstring_eqb (matched m) token) eqn:E.
      * apply jsstring_eqb_eq in E; subst token.
        rewrite (H2 Hs) in L; cbn [length] in L; split; [lia|].
        rewrite Set_has_add, jsstring_eqb_refl, orb_true_r; discriminate.
      * split; [lia|]; intros H.
        rewrite Set_has_add in H; apply orb_false_iff in H.
        rewrite (H2 (proj1 H)) in L; cbn [length] in L.
        apply length_zero_iff_nil; lia.
  - cbn [fst snd]; rewrite H0; split; auto.
Qed.

(** The third pass files the text of a label, which begins with a letter. *)
Lemma label_head (c y : ascii) :
  In c (list_ascii_of_string "AENT") ->
  Ascii.eqb (canonicalize c) (canonicalize y) = true ->
  isWhiteSpace y = false /\ isOneOf "[{<" y = false.
Proof.
  intros Hc; simpl in Hc.
  destruct Hc as [<- | [<- | [<- | [<- | []]]]];
    destruct y as [[] [] [] [] [] [] [] []]; vm_compute;
    first [discriminate | split; reflexivity].
Qed.

Lemma trim_head (y : ascii) (rest : jsstring) :
  isWhiteSpace y = false -> exists r, trim (y :: rest) = y :: r.
Proof.
  intros Hy; unfold trim, trimStart; simpl dropWhile at 2; rewrite Hy.
  simpl rev at 2.
  rewrite (dropWhile_app_stop _ _ _ Hy), rev_app_distr; simpl; eauto.
Qed.

Lemma labelFields_formats text lf :
  In lf labelFields ->
  Forall (fun m => opensToken (trim (matched m)) = false)
    (execAll (fst lf) text).
Proof.
  intros Hlf; apply execAllFrom_Forall; intros prev s m g i.
  assert (H : exists c p, In c (list_ascii_of_string "AENT")
                          /\ fst lf = ciLiteralToLineEnd atWordBoundary (c :: p)).
  { simpl in Hlf.
    destruct Hlf as [<- | [<- | [<- | [<- | []]]]]; cbn [fst];
      eexists; eexists; (split; [|reflexivity]); simpl; auto. }
  destruct H as [c [p [Hc ->]]]; unfold ciLiteralToLineEnd.
  destruct (atWordBoundary prev s && ciStartsWith s (c :: p)) eqn:E;
    [|discriminate].
  apply andb_true_iff in E; destruct E as [_ E].
  destruct s as [|y s]; [discriminate|].
  simpl in E; apply andb_true_iff in E; destruct E as [E _].
  destruct (spacesToLineEnd _) as [k|]; [|discriminate].
  intros H; injection H as <- _; cbn [matched length Nat.add firstn].
  destruct (label_head c y Hc E) as [Hw Ho].
  destruct (trim_head y (firstn (length p + k) s) Hw) as [r ->].
  exact Ho.
Qed.

Lemma labelPass_formats text placeholders token :
  opensToken token = true ->
  (length (entriesWithFormat token (labelPass text placeholders))
   <= length (entriesWithFormat token placeholders))%nat.
Proof.
  intros Ht; unfold labelPass.
  assert (Hall : forall lf, In lf labelFields -> In lf labelFields) by auto.
  revert placeholders Hall.
  generalize labelFields at 1 3 as lfs.
  induction lfs as [|lf lfs IH]; intros pl Hall; cbn [fold_left]; auto.
  etransitivity; [apply IH; intros; apply Hall; now right|].
  pose proof (labelFields_formats text lf (Hall lf (or_introl eq_refl))) as Hm.
  revert pl; induction Hm as [|m ms Hm Hms IHm]; intros pl; cbn [fold_left];
    auto.
  etransitivity; [apply IHm|].
  unfold processLabelMatch.
  destruct (resolveContext _ _) as [p|]; auto.
  assert (L : (length (entriesWithFormat token
                         (Map_set pl (uniqueKey p (snd lf))
                            (mkInfo (uniqueKey p (snd lf)) (trim (matched m)) []
                               square (Some p) (Some (index m)))))
               <= length (entriesWithFormat token pl))%nat)
    by (apply entriesWithFormat_set_other; cbn [originalFormat];
        now apply opensToken_differs).
  destruct (Map_get pl _); auto.
  destruct (negb _); auto.
Qed.

Lemma tokenOf_opens ty body :
  ty <> currency_blank -> opensToken (tokenOf ty body) = true.
Proof. destruct ty; intros H; try reflexivity; now destruct H. Qed.

Lemma extractPlaceholders_formats text token :
  opensToken token = true ->
  (length (entriesWithFormat token (extractPlaceholders text)) <= 1)%nat.
Proof.
  intros Ht; unfold extractPlaceholders.
  etransitivity; [now apply labelPass_formats|].
  now apply literalPass_formats, currencyPass_formats.
Qed.

(** A document with one token and plain text around it. *)
Lemma single_token_scan :
  forall (ty : PlaceholderType) (pre body post : jsstring),
    ty <> currency_blank ->
    plainText pre = true -> plainText body = true -> plainText post = true ->
    isBlankKey (trim body) = false ->
    normalizedKeyOf body <> [] ->
    countOccurrences (pre ++ tokenOf ty body ++ post) (tokenOf ty body) = 1%nat
    /\ exists k,
         entriesWithFormat (tokenOf ty body)
           (extractPlaceholders (pre ++ tokenOf ty body ++ post))
         = [(k, mkInfo k (tokenOf ty body) [] ty None None)].
Proof.
  intros ty pre body post Hty Ppre Pbody Ppost Hb Hk.
  pose proof (normalizedKeyOf_nonempty body Hk) as Hne.
  split; [now apply token_occurs_once|].
  assert (Hl : forall o, plainChar o = false ->
                 lacks o (tokenOf ty []) = true ->
                 lacks o (pre ++ tokenOf ty body ++ post) = true)
    by (intros; now apply lacks_token).
  unfold extractPlaceholders.
  rewrite labelPass_no_colon by (apply Hl; auto; destruct ty; auto; congruence).
  rewrite currencyPass_no_dollar
    by (apply Hl; auto; destruct ty; auto; congruence).
  unfold literalPass, patterns; cbn [fold_left fst snd c_placeholders].
  destruct (processLiteralMatch_first (pre ++ tokenOf ty body ++ post)
              ty (mkMatch (len pre) (tokenOf ty body) body) Hb Hk)
    as [k E]; cbn [matched] in E.
  exists k.
  destruct ty; try congruence.
  - (* square *)
    rewrite doubleCurlyRegex_lacks, angleRegex_lacks, curlyRegex_lacks,
      squareRegex_token by (auto; now apply Hl).
    cbn [fold_left]; unfold JsMap, JsSet in *; rewrite E.
    apply entriesWithFormat_single.
  - (* curly *)
    rewrite doubleCurlyRegex_curly_token, angleRegex_lacks, squareRegex_lacks,
      curlyRegex_token by (auto; now apply Hl).
    cbn [fold_left]; unfold JsMap, JsSet in *; rewrite E.
    apply entriesWithFormat_single.
  - (* double curly *)
    rewrite doubleCurlyRegex_token, angleRegex_lacks, squareRegex_lacks,
      curlyRegex_double_token by (auto; now apply Hl).
    cbn [fold_left]; unfold JsMap, JsSet in *; rewrite E.
    match goal with
    | |- context [processLiteralMatch ?t curly ?st ?m] =>
        destruct (processLiteralMatch_appends t curly (fst st) (snd st) m)
          as [seen' [E' | [k' E']]]
    end; [discriminate | |]; cbn [fst snd] in E';
      unfold JsMap, JsSet in *; rewrite E'; cbn [fst].
    + apply entriesWithFormat_single.
    + unfold entriesWithFormat; cbn [filter app snd originalFormat matched].
      rewrite jsstring_eqb_refl.
      match goal with
      | |- context [jsstring_eqb ?a ?b] =>
          replace (jsstring_eqb a b) with false; [reflexivity|]
      end.
      symmetry; apply jsstring_eqb_neq; intros H.
      apply (f_equal (@length ascii)) in H; unfold tokenOf in H; simpl in H.
      rewrite !length_app in H; simpl in H; lia.
  - (* angle *)
    rewrite doubleCurlyRegex_lacks, angleRegex_token, squareRegex_lacks,
      curlyRegex_lacks by (auto; now apply Hl).
    cbn [fold_left]; unfold JsMap, JsSet in *; rewrite E.
    apply entriesWithFormat_single.
Qed.

(** C6, counterexample: [{Name}] occurs once in the document, after
    [[Name]]; both yield the key [Name], the key is taken when [{Name}] is
    reached, and no entry of the catalog has [{Name}] as its
    [originalFormat].  And [[Company Address]] occurs once in a document
    whose company section has the label [Address:]; the label is filed
    under the key of the token, and no entry has the token as its
    [originalFormat]. *)
Lemma token_with_a_taken_key_has_no_entry :
  (countOccurrences sameKeyTwice "{Name}" = 1%nat
   /\ extractPlaceholders sameKeyTwice
      = [("Name" : jsstring, mkInfo "Name" "[Name]" [] square None None)]
   /\ entriesWithFormat "{Name}" (extractPlaceholders sameKeyTwice) = [])
  /\ (countOccurrences tokenUnderLabel "[Company Address]" = 1%nat
      /\ extractPlaceholders tokenUnderLabel
         = [ ("Company Address" : jsstring,
              mkInfo "Company Address" "Address:" [] square (Some company)
                (Some 26)) ]
      /\ entriesWithFormat "[Company Address]"
           (extractPlaceholders tokenUnderLabel) = []).
Proof. repeat split; vm_compute; reflexivity. Qed.

(** ** Texts edited by insertion *)

Lemma includes_cons (c : ascii) (s sub : jsstring) :
  includes (c :: s) sub = startsWith (c :: s) sub || includes s sub.
Proof. reflexivity. Qed.

Lemma includes_nil (sub : jsstring) : includes [] sub = isEmpty sub.
Proof. destruct sub; reflexivity. Qed.

Lemma includes_app_r (q s sub : jsstring) :
  includes s sub = true -> includes (q ++ s) sub = true.
Proof.
  intros H; induction q as [|c q IH]; auto.
  change ((c :: q) ++ s) with (c :: q ++ s).
  rewrite includes_cons, IH; apply orb_true_r.
Qed.

Lemma includes_prefix (p r : jsstring) : includes (p ++ r) p = true.
Proof.
  destruct p as [|c p]; [destruct r; reflexivity|].
  change ((c :: p) ++ r) with (c :: p ++ r).
  rewrite includes_cons.
  change (c :: p ++ r) with ((c :: p) ++ r).
  now rewrite startsWith_app.
Qed.

Lemma includes_suffix_false (m s sub : jsstring) :
  includes (m ++ s) sub = false -> includes s sub = false.
Proof.
  intros H; destruct (includes s sub) eqn:E; auto.
  now rewrite (includes_app_r m s sub E) in H.
Qed.

Lemma includes_tail (c : ascii) (v token : jsstring) :
  includes token (c :: v) = true -> includes token v = true.
Proof.
  induction token as [|t token IH].
  - cbn; discriminate.
  - rewrite !includes_cons; intros H; apply orb_true_iff in H.
    destruct H as [H | H].
    + apply orb_true_iff; right.
      cbn [startsWith] in H; apply andb_true_iff in H; destruct H as [_ H].
      destruct token as [|t' token']; [destruct v; [reflexivity | discriminate]|].
      rewrite includes_cons, H; reflexivity.
    + apply orb_true_iff; right; now apply IH.
Qed.

Lemma startsWith_app_cases (w s p : jsstring) :
  startsWith (w ++ s) p = true ->
  (exists r, w = p ++ r) \/ (exists r, p = w ++ r /\ startsWith s r = true).
Proof.
  revert p; induction w as [|x w IH]; intros p H.
  - right; exists p; auto.
  - destruct p as [|y p]; [left; exists (x :: w); reflexivity|].
    change ((x :: w) ++ s) with (x :: w ++ s) in H.
    cbn [startsWith] in H; apply andb_true_iff in H; destruct H as [Hxy H].
    apply Ascii.eqb_eq in Hxy; subst y.
    destruct (IH p H) as [[r ->] | [r [-> Hr]]].
    + left; exists r; reflexivity.
    + right; exists r; auto.
Qed.

Lemma last_map_Some_app (q p : jsstring) :
  p <> [] -> last (map Some (q ++ p)) None = last (map Some p) None.
Proof.
  intros Hp; rewrite map_app.
  induction q as [|c q IH]; auto.
  cbn [map app]; rewrite <- IH.
  destruct (map Some q ++ map Some p) eqn:E; auto.
  apply app_eq_nil in E; destruct E as [_ E].
  destruct p; [congruence | discriminate].
Qed.

Lemma last_map_Some_In (p : jsstring) :
  p <> [] -> exists c, last (map Some p) None = Some c /\ In c p.
Proof.
  induction p as [|x p IH]; [congruence|]; intros _.
  destruct p as [|y p]; [exists x; split; [reflexivity | now left]|].
  destruct IH as [c [Hc Hin]]; [discriminate|].
  exists c; split; [exact Hc | now right].
Qed.

Section EditFacts.

Variable token : jsstring.
Variables K W : jsstring -> Prop.
Hypothesis token_nonempty : token <> [].
Hypothesis W_safe : forall w, W w -> Safe token w.

(** A part of the token that heads the edited text heads the text it was
    edited from. *)
Lemma Edit_prefix_transfer (s s' : jsstring) :
  Edit K W s s' ->
  forall q p, token = q ++ p -> startsWith s' p = true -> startsWith s p = true.
Proof.
  induction 1 as [|c s s' Hk He IH | m w s s' Hw He IH]; intros q p Hqp Hp.
  - destruct p; [reflexivity | discriminate].
  - destruct p as [|y p]; [reflexivity|].
    cbn [startsWith] in *; apply andb_true_iff in Hp; destruct Hp as [-> Hp].
    apply (IH (q ++ [y]) p) in Hp; [exact Hp|].
    now rewrite <- app_assoc.
  - destruct p as [|y p]; [reflexivity|]; exfalso.
    destruct (W_safe w Hw) as (Hne & _ & Hlast & Hinc).
    destruct (startsWith_app_cases w s' (y :: p) Hp) as [[r ->] | [r [Hr _]]].
    + destruct (last_map_Some_In (y :: p)) as [c [Hc Hin]]; [discriminate|].
      apply (Hlast c); [apply in_or_app; now left|].
      rewrite Hqp, last_map_Some_app by discriminate; exact Hc.
    + assert (Hin : includes token w = true)
        by (rewrite Hqp, Hr; apply includes_app_r, includes_prefix).
      congruence.
Qed.

(** If the token heads no kept rest of the text, it does not occur in the
    edited text. *)
Lemma token_cons : exists t token', token = t :: token'.
Proof. destruct token as [|t token']; [congruence | eauto]. Qed.

Lemma Edit_eliminates (s s' : jsstring) :
  Edit K W s s' ->
  (forall x, K x -> startsWith x token = false) ->
  includes s' token = false.
Proof.
  destruct token_cons as [t [token' Et]].
  intros He HK; induction He as [|c s s' Hk He IH | m w s s' Hw He IH].
  - rewrite includes_nil, Et; reflexivity.
  - rewrite includes_cons, IH, orb_false_r.
    destruct (startsWith (c :: s') token) eqn:E; auto.
    rewrite Et in E.
    cbn [startsWith] in E; apply andb_true_iff in E; destruct E as [Etc E].
    apply (Edit_prefix_transfer s s' He [t] token' Et) in E.
    specialize (HK _ Hk); rewrite Et in HK; cbn [startsWith] in HK.
    now rewrite Etc, E in HK.
  - destruct (W_safe w Hw) as (_ & Hhd & _ & _).
    clear Hw; induction w as [|x w IHw]; [exact IH|].
    change ((x :: w) ++ s') with (x :: w ++ s').
    rewrite includes_cons, IHw, orb_false_r
      by (intros c Hc; apply Hhd; now right).
    rewrite Et; cbn [startsWith].
    destruct (Ascii.eqb t x) eqn:E; auto.
    apply Ascii.eqb_eq in E; subst t.
    exfalso; apply (Hhd x); [now left | now rewrite Et].
Qed.

End EditFacts.

Lemma Edit_weaken (K K' W W' : jsstring -> Prop) (s s' : jsstring) :
  (forall x, K x -> K' x) -> (forall w, W w -> W' w) ->
  Edit K W s s' -> Edit K' W' s s'.
Proof. intros HK HW; induction 1; constructor; auto. Qed.

(** An edit of a text without the token, with safe insertions, yields a
    text without the token. *)
Lemma Edit_preserves (token : jsstring) (K W : jsstring -> Prop)
    (s s' : jsstring) :
  token <> [] -> (forall w, W w -> Safe token w) ->
  Edit K W s s' -> includes s token = false -> includes s' token = false.
Proof.
  intros Hne HW He Hs.
  apply (Edit_eliminates token (fun x => startsWith x token = false) W Hne HW s);
    auto.
  clear Hne HW; induction He as [|c s s' Hk He IH | m w s s' Hw He IH].
  - constructor.
  - rewrite includes_cons in Hs; apply orb_false_iff in Hs.
    constructor; tauto.
  - constructor; auto; apply IH; now apply includes_suffix_false in Hs.
Qed.

Lemma Edit_refl (K W : jsstring -> Prop) (s : jsstring) :
  (forall x, K x) -> Edit K W s s.
Proof. intros HK; induction s; constructor; auto. Qed.

Lemma Edit_app_keep (K W : jsstring -> Prop) (a s s' : jsstring) :
  (forall x, K x) -> Edit K W s s' -> Edit K W (a ++ s) (a ++ s').
Proof. intros HK He; induction a; simpl; auto; constructor; auto. Qed.

(** ** The replacements of the renderer as edits *)

Lemma getSubstitution_plain (m b a v : jsstring) :
  plainReplacement v = true -> getSubstitution m b a v = v.
Proof.
  induction v as [|c v IH]; auto.
  cbn [plainReplacement getSubstitution].
  rewrite andb_true_iff; intros [Hc Hv]; specialize (IH Hv).
  destruct (isChar "$" c); [|now rewrite IH].
  destruct v as [|d v']; auto.
  rewrite negb_true_iff, !orb_false_iff in Hc.
  destruct Hc as [[[-> ->] ->] ->]; now rewrite IH.
Qed.

Lemma clamp_range (s : jsstring) (a : Z) : 0 <= clamp s a <= len s.
Proof. unfold clamp, len; lia. Qed.

Lemma clamp_mono (s : jsstring) (a b : Z) : a <= b -> clamp s a <= clamp s b.
Proof. unfold clamp; lia. Qed.

Lemma substring_from_start (s : jsstring) (a : Z) :
  substring s 0 a = firstn (Z.to_nat (clamp s a)) s.
Proof.
  unfold substring.
  pose proof (clamp_range s a) as Ha.
  assert (H0 : clamp s 0 = 0) by (unfold clamp, len; lia).
  rewrite H0, Z.min_l, Z.max_r by lia.
  now rewrite Z.sub_0_r.
Qed.

Lemma substringFrom_skipn (s : jsstring) (b : Z) :
  substringFrom s b = skipn (Z.to_nat (clamp s b)) s.
Proof.
  unfold substringFrom, substring.
  pose proof (clamp_range s b) as Hb.
  assert (Hl : clamp s (len s) = len s) by (unfold clamp, len; lia).
  rewrite Hl, Z.min_l, Z.max_r by lia.
  apply firstn_all2; rewrite length_skipn; unfold len in *; lia.
Qed.

(** A text is what comes before a place, a segment, and what comes after
    it. *)
Lemma substring_split (s : jsstring) (a b : Z) :
  a <= b ->
  exists mid, s = substring s 0 a ++ mid ++ substringFrom s b.
Proof.
  intros Hab; rewrite substring_from_start, substringFrom_skipn.
  pose proof (clamp_range s a) as Ha.
  pose proof (clamp_mono s a b Hab) as Hm.
  set (na := Z.to_nat (clamp s a)); set (nb := Z.to_nat (clamp s b)).
  exists (firstn (nb - na) (skipn na s)).
  replace (skipn nb s) with (skipn (nb - na) (skipn na s))
    by (rewrite skipn_skipn; f_equal; unfold na, nb; lia).
  now rewrite firstn_skipn, firstn_skipn.
Qed.

Lemma replaceFirst_Edit (s pat v : jsstring) :
  plainReplacement v = true ->
  Edit anywhere (exactly v) s (replaceFirst s pat v).
Proof.
  intros Hv; unfold replaceFirst.
  destruct (indexOf s pat <? 0) eqn:E; [apply Edit_refl; exact (fun _ => I)|].
  rewrite getSubstitution_plain by auto.
  destruct (substring_split s (indexOf s pat) (indexOf s pat + len pat))
    as [mid Hs]; [unfold len; lia|].
  rewrite Hs at 1.
  apply Edit_app_keep; [exact (fun _ => I)|].
  apply Edit_subst; [reflexivity | apply Edit_refl; exact (fun _ => I)].
Qed.

Lemma ciLiteral_match (p : jsstring) prev (s : jsstring) :
  ciLiteral p prev s
  = if ciStartsWith s p then Some (firstn (length p) s, []) else None.
Proof. reflexivity. Qed.

Lemma ciStartsWith_length (s p : jsstring) :
  ciStartsWith s p = true -> (length p <= length s)%nat.
Proof.
  revert s; induction p as [|x p IH]; intros s; simpl; [lia|].
  destruct s as [|y s]; [discriminate|].
  rewrite andb_true_iff; intros [_ H]; specialize (IH s H); simpl; lia.
Qed.

Lemma startsWith_ciStartsWith (s p : jsstring) :
  startsWith s p = true -> ciStartsWith s p = true.
Proof.
  revert s; induction p as [|x p IH]; intros s; simpl; auto.
  destruct s as [|y s]; auto.
  rewrite !andb_true_iff, Ascii.eqb_eq; intros [-> H].
  now rewrite Ascii.eqb_refl, IH.
Qed.

Lemma replaceAllFrom_Edit (p v whole : jsstring) :
  p <> [] -> plainReplacement v = true ->
  forall s skip i prev,
    (skip <= length s)%nat ->
    Edit (noMatchOf p) (exactly v) (skipn skip s)
      (replaceAllFrom (ciLiteral p) v whole skip i prev s).
Proof.
  intros Hp Hv; induction s as [|c s IH]; intros skip i prev Hskip.
  - destruct skip; [constructor | simpl in Hskip; lia].
  - destruct skip as [|k].
    + cbn [replaceAllFrom skipn]; rewrite ciLiteral_match.
      destruct (ciStartsWith (c :: s) p) eqn:E.
      * rewrite getSubstitution_plain by auto.
        pose proof (ciStartsWith_length _ _ E) as Hl.
        assert (Hlen : length (firstn (length p) (c :: s)) = length p)
          by (apply firstn_length_le; exact Hl).
        rewrite Hlen.
        destruct p as [|x p']; [congruence|].
        cbn [length] in *.
        replace (S (length p') - 1)%nat with (length p') by lia.
        rewrite <- (firstn_skipn (S (length p')) (c :: s)) at 1.
        apply Edit_subst; [reflexivity|].
        cbn [skipn]; apply IH; lia.
      * constructor; [exact E | apply (IH 0%nat); lia].
    + cbn [replaceAllFrom skipn]; apply IH; simpl in Hskip; lia.
Qed.

Lemma replaceAll_Edit (p s v : jsstring) :
  p <> [] -> plainReplacement v = true ->
  Edit (noMatchOf p) (exactly v) s (replaceAll (ciLiteral p) s v).
Proof.
  intros Hp Hv; unfold replaceAll.
  apply (replaceAllFrom_Edit p v s Hp Hv s 0%nat 0%nat None); lia.
Qed.

(** Replacing every match of the token leaves none of it; replacing
    the matches of another pattern leaves a text without the token without
    it. *)
Lemma replaceAll_eliminates (token s v : jsstring) :
  token <> [] -> plainReplacement v = true -> Safe token v ->
  includes (replaceAll (ciLiteral token) s v) token = false.
Proof.
  intros Hne Hv Hs.
  apply (Edit_eliminates token (noMatchOf token) (exactly v) Hne) with (s := s).
  - intros w ->; exact Hs.
  - now apply replaceAll_Edit.
  - intros x Hx; unfold noMatchOf in Hx.
    destruct (startsWith x token) eqn:E; auto.
    apply startsWith_ciStartsWith in E; congruence.
Qed.

Lemma replaceAll_preserves (token p s v : jsstring) :
  token <> [] -> p <> [] -> plainReplacement v = true -> Safe token v ->
  includes s token = false ->
  includes (replaceAll (ciLiteral p) s v) token = false.
Proof.
  intros Hne Hp Hv Hs Hn.
  apply (Edit_preserves token (noMatchOf p) (exactly v) s); auto.
  - intros w ->; exact Hs.
  - now apply replaceAll_Edit.
Qed.

Lemma replaceFirst_preserves (token pat s v : jsstring) :
  token <> [] -> plainReplacement v = true -> Safe token v ->
  includes s token = false ->
  includes (replaceFirst s pat v) token = false.
Proof.
  intros Hne Hv Hs Hn.
  apply (Edit_preserves token anywhere (exactly v) s); auto.
  - intros w ->; exact Hs.
  - now apply replaceFirst_Edit.
Qed.

(** ** The label path: values are appended where the label stands *)

Lemma startsWith_length (s p : jsstring) :
  startsWith s p = true -> (length p <= length s)%nat.
Proof. intros H; now apply ciStartsWith_length, startsWith_ciStartsWith. Qed.

Lemma startsWith_decompose (x L : jsstring) :
  startsWith x L = true -> x = L ++ skipn (length L) x.
Proof.
  revert x; induction L as [|c L IH]; intros x; [reflexivity|].
  destruct x as [|y x]; [discriminate|].
  cbn [startsWith]; rewrite andb_true_iff, Ascii.eqb_eq; intros [-> H].
  cbn [length skipn app]; f_equal; now apply IH.
Qed.

Lemma execAllFrom_literal_occurrence (L : jsstring) :
  forall s skip i prev m,
    In m (execAllFrom (literal L) skip i prev s) ->
    exists j, index m = i + Z.of_nat j /\ startsWith (skipn j s) L = true.
Proof.
  induction s as [|c s IH]; intros skip i prev m; [intros []|].
  assert (Hnext : forall k p,
            In m (execAllFrom (literal L) k (i + 1) p s) ->
            exists j, index m = i + Z.of_nat j
                      /\ startsWith (skipn j (c :: s)) L = true).
  { intros k p Hin; destruct (IH _ _ _ _ Hin) as [j [Hj Hs]].
    exists (S j); split; [lia | exact Hs]. }
  destruct skip as [|k]; cbn [execAllFrom]; [|apply Hnext].
  unfold literal at 1.
  destruct (startsWith (c :: s) L) eqn:E; [|apply Hnext].
  intros [<- | Hin]; [|now apply Hnext in Hin].
  exists 0%nat; split; [cbn; lia | exact E].
Qed.

Lemma execAll_literal_occurrence (L s : jsstring) (m : RegExpMatch) :
  In m (execAll (literal L) s) ->
  exists j, index m = Z.of_nat j /\ startsWith (skipn j s) L = true.
Proof.
  intros H; destruct (execAllFrom_literal_occurrence L _ _ _ _ _ H)
    as [j [Hj Hs]]; exists j; split; [lia | exact Hs].
Qed.

Lemma indexOfFrom_occurrence (L : jsstring) :
  forall s i, 0 <= i -> 0 <= indexOfFrom i s L ->
    exists j, indexOfFrom i s L = i + Z.of_nat j
              /\ startsWith (skipn j s) L = true.
Proof.
  induction s as [|c s IH]; intros i Hi; cbn [indexOfFrom].
  - destruct (startsWith [] L) eqn:E; [|lia].
    intros _; exists 0%nat; split; [lia | exact E].
  - destruct (startsWith (c :: s) L) eqn:E.
    + intros _; exists 0%nat; split; [lia | exact E].
    + intros H; destruct (IH (i + 1)) as [j [Hj Hs]]; [lia | exact H |].
      exists (S j); split; [lia | exact Hs].
Qed.

Lemma findMatchingLabel_In ctx pos earlier rest i :
  findMatchingLabel ctx pos earlier rest = Some i -> In i (map fst rest).
Proof.
  revert earlier; induction rest as [|l rest IH]; intros earlier;
    cbn [findMatchingLabel]; [discriminate|].
  destruct (_ && _).
  - intros H; injection H as <-; now left.
  - intros H; right; now apply (IH _ H).
Qed.

Lemma appendAfterLabel_Edit (s L v : jsstring) (j : nat) :
  L <> [] -> startsWith (skipn j s) L = true ->
  Edit anywhere (exactly (" " ++ v)) s (appendAfterLabel s L v (Z.of_nat j)).
Proof.
  intros HL Hs.
  pose proof (startsWith_length _ _ Hs) as Hlen; rewrite length_skipn in Hlen.
  assert (HLl : (0 < length L)%nat) by (destruct L; [congruence | simpl; lia]).
  unfold appendAfterLabel.
  rewrite substring_from_start, substringFrom_skipn.
  replace (Z.to_nat (clamp s (Z.of_nat j))) with j
    by (unfold clamp, len; lia).
  replace (Z.to_nat (clamp s (Z.of_nat j + len L))) with (length L + j)%nat
    by (unfold clamp, len; lia).
  rewrite <- (firstn_skipn j s) at 1.
  apply Edit_app_keep; [exact (fun _ => I)|].
  rewrite (startsWith_decompose _ _ Hs) at 1; rewrite skipn_skipn.
  apply Edit_app_keep; [exact (fun _ => I)|].
  rewrite (app_assoc (" " : jsstring) v).
  apply (Edit_subst anywhere (exactly (" " ++ v)) []); [reflexivity|].
  apply Edit_refl; exact (fun _ => I).
Qed.

Lemma isLabelFormat_nonempty (L : jsstring) : isLabelFormat L = true -> L <> [].
Proof. intros H ->; discriminate. Qed.

Lemma replaceLabel_Edit (s L v : jsstring) (i : PlaceholderInfo) :
  L <> [] ->
  Edit anywhere (exactly (" " ++ v)) s (replaceLabel s L v i).
Proof.
  intros HL.
  assert (Hocc : forall m, In m (execAll (literal L) s) ->
            Edit anywhere (exactly (" " ++ v)) s
              (appendAfterLabel s L v (index m))).
  { intros m Hm; destruct (execAll_literal_occurrence _ _ _ Hm) as [j [-> Hj]].
    now apply appendAfterLabel_Edit. }
  assert (Hfirst : Edit anywhere (exactly (" " ++ v)) s
            (if indexOf s L >=? 0
             then appendAfterLabel s L v (indexOf s L) else s)).
  { destruct (indexOf s L >=? 0) eqn:E; [|apply Edit_refl; exact (fun _ => I)].
    apply Z.geb_le in E.
    destruct (indexOfFrom_occurrence L s 0) as [j [Hj Hs]]; [lia | exact E |].
    unfold indexOf; rewrite Hj; now apply appendAfterLabel_Edit. }
  unfold replaceLabel.
  destruct (context i) as [ctx|]; [|exact Hfirst].
  destruct (position i) as [pos|]; [|exact Hfirst].
  destruct (findMatchingLabel ctx pos [] _) as [labelIndex|] eqn:F.
  - apply findMatchingLabel_In in F; rewrite map_map in F; cbn [fst] in F.
    apply in_map_iff in F; destruct F as [m [<- Hm]]; now apply Hocc.
  - destruct (contextSearch s L ctx) as [labelIndex|] eqn:C; [|exact Hfirst].
    unfold contextSearch in C.
    match type of C with
    | option_map index (find ?f ?l) = _ => destruct (find f l) as [m|] eqn:Fd
    end; [|discriminate].
    injection C as <-; apply find_some in Fd; now apply Hocc.
Qed.

(** ** Rendering and the tokens that are normalized spellings of a key *)

Lemma last_map_Some_snoc (a : jsstring) (c : ascii) :
  last (map Some (a ++ [c])) None = Some c.
Proof. rewrite map_app; apply last_last. Qed.

Lemma normalizedPattern_ends (dk token : jsstring) :
  In token (normalizedPatterns dk) ->
  exists o c, hd_error token = Some o
              /\ last (map Some token) None = Some c
              /\ isOneOf "[{<" o = true /\ isOneOf "]}>" c = true.
Proof.
  unfold normalizedPatterns.
  intros [<- | [<- | [<- | [<- | []]]]].
  - exists "["%char, "]"%char; repeat split; auto.
    exact (last_map_Some_snoc ("["%char :: dk) "]").
  - exists "{"%char, "}"%char; repeat split; auto.
    exact (last_map_Some_snoc ("{"%char :: dk) "}").
  - exists "{"%char, "}"%char; repeat split; auto.
    replace ("{{" ++ dk ++ "}}") with (("{{" ++ dk ++ "}") ++ ["}"%char])
      by (now rewrite <- !app_assoc).
    apply last_map_Some_snoc.
  - exists "<"%char, ">"%char; repeat split; auto.
    replace ("<<" ++ dk ++ ">>") with (("<<" ++ dk ++ ">") ++ [">"%char])
      by (now rewrite <- !app_assoc).
    apply last_map_Some_snoc.
Qed.

Lemma normalizedPattern_nonempty (dk p : jsstring) :
  In p (normalizedPatterns dk) -> p <> [].
Proof.
  intros H; destruct (normalizedPattern_ends dk p H) as (o & c & Ho & _).
  intros ->; discriminate.
Qed.

Lemma delimiter_free (v : jsstring) (c d : ascii) :
  forallb (isNot "[]{}<>") v = true -> In c v ->
  isOneOf "[{<" d = true \/ isOneOf "]}>" d = true -> d <> c.
Proof.
  intros Hv Hin Hd ->; rewrite forallb_forall in Hv; specialize (Hv c Hin).
  unfold isNot, isOneOf in *; simpl in *.
  rewrite negb_true_iff, !orb_false_iff in Hv.
  destruct Hv as (H1 & H2 & H3 & H4 & H5 & H6 & _).
  destruct Hd as [Hd | Hd];
    rewrite ?H1, ?H2, ?H3, ?H4, ?H5, ?H6 in Hd; discriminate.
Qed.

(** A safe value, and a blank followed by it, cannot run into an
    occurrence of the token. *)
Lemma safeValue_Safe (dk token v : jsstring) :
  In token (normalizedPatterns dk) -> safeValue token v = true ->
  plainReplacement v = true /\ Safe token v /\ Safe token (" " ++ v).
Proof.
  intros Hin Hs; unfold safeValue in Hs.
  rewrite !andb_true_iff, !negb_true_iff in Hs.
  destruct Hs as [[[Hne Hp] Hd] Hinc].
  destruct (normalizedPattern_ends dk token Hin) as (o & c & Ho & Hc & Do & Dc).
  assert (Hv : v <> []) by (intros ->; discriminate).
  split; [exact Hp|]; split.
  - repeat split; auto.
    + intros x Hx; rewrite Ho; intros E; injection E as E.
      now apply (delimiter_free v x o Hd Hx (or_introl Do)).
    + intros x Hx; rewrite Hc; intros E; injection E as E.
      now apply (delimiter_free v x c Hd Hx (or_intror Dc)).
  - repeat split.
    + discriminate.
    + intros x [<- | Hx]; rewrite Ho; intros E; injection E as E.
      * subst o; discriminate.
      * now apply (delimiter_free v x o Hd Hx (or_introl Do)).
    + intros x [<- | Hx]; rewrite Hc; intros E; injection E as E.
      * subst c; discriminate.
      * now apply (delimiter_free v x c Hd Hx (or_intror Dc)).
    + destruct (includes token (" " ++ v)) eqn:E; auto.
      apply includes_tail in E; congruence.
Qed.

Section RenderOneToken.

Variables dk token : jsstring.
Hypothesis token_pattern : In token (normalizedPatterns dk).

Lemma token_not_nil : token <> [].
Proof. exact (normalizedPattern_nonempty dk token token_pattern). Qed.

Lemma fold_patterns_preserves (v : jsstring) (pats : list jsstring) :
  safeValue token v = true -> (forall p, In p pats -> p <> []) ->
  forall c, includes c token = false ->
    includes (fold_left (fun c p => replaceAll (ciLiteral p) c v) pats c) token
    = false.
Proof.
  intros Hs; destruct (safeValue_Safe dk token v token_pattern Hs) as (Hp & Sv & _).
  induction pats as [|p pats IH]; intros Hne c Hc; cbn [fold_left]; auto.
  apply IH; [intros q Hq; apply Hne; now right|].
  apply replaceAll_preserves; auto using token_not_nil.
  apply Hne; now left.
Qed.

Lemma fold_patterns_eliminates (v : jsstring) (pats : list jsstring) :
  safeValue token v = true -> (forall p, In p pats -> p <> []) ->
  In token pats ->
  forall c,
    includes (fold_left (fun c p => replaceAll (ciLiteral p) c v) pats c) token
    = false.
Proof.
  intros Hs; destruct (safeValue_Safe dk token v token_pattern Hs) as (Hp & Sv & _).
  induction pats as [|p pats IH]; intros Hne Hin c; [destruct Hin|].
  cbn [fold_left]; destruct Hin as [-> | Hin].
  - apply fold_patterns_preserves; auto; [intros q Hq; apply Hne; now right|].
    apply replaceAll_eliminates; auto using token_not_nil.
  - apply IH; auto; intros q Hq; apply Hne; now right.
Qed.

Lemma replaceNormalized_preserves (c k v : jsstring) :
  safeValue token v = true -> includes c token = false ->
  includes (replaceNormalized c k v) token = false.
Proof.
  intros Hs Hc; unfold replaceNormalized.
  destruct (safeValue_Safe dk token v token_pattern Hs) as (Hp & Sv & _).
  apply fold_patterns_preserves;
    [exact Hs | intros p; apply normalizedPattern_nonempty |].
  destruct (jsstring_eqb (displayKey k) "Company Name"); auto.
  apply replaceAll_preserves; auto using token_not_nil; discriminate.
Qed.

Lemma replaceNormalized_eliminates (c k v : jsstring) :
  displayKey k = dk -> safeValue token v = true ->
  includes (replaceNormalized c k v) token = false.
Proof.
  intros Hk Hs; unfold replaceNormalized; rewrite Hk.
  apply fold_patterns_eliminates;
    [exact Hs | intros p; apply normalizedPattern_nonempty
     | exact token_pattern].
Qed.

(** An entry with a safe value leaves a text without the token without
    it. *)
Lemma renderEntry_preserves (groupKey c : jsstring) (e : Entry) :
  safeValue token (formatValue (info (snd e)) (value (snd e))) = true ->
  includes c token = false ->
  includes (renderEntry groupKey c e) token = false.
Proof.
  destruct e as [k data]; cbn [snd]; intros Hs Hc.
  destruct (safeValue_Safe dk token _ token_pattern Hs) as (Hp & Sv & Sb).
  unfold renderEntry; cbv zeta.
  match goal with
  | |- context [isLabelFormat ?x] => set (L := x)
  end.
  set (v := formatValue (info data) (value data)) in *.
  assert (H1 : includes (if isLabelFormat L then replaceLabel c L v (info data)
                         else replaceFirst c L v) token = false).
  { destruct (isLabelFormat L) eqn:E.
    - apply (Edit_preserves token anywhere (exactly (" " ++ v)) c);
        auto using token_not_nil.
      + intros w ->; exact Sb.
      + apply replaceLabel_Edit; now apply isLabelFormat_nonempty.
    - apply replaceFirst_preserves; auto using token_not_nil. }
  destruct (negb (isCurrencyBlank (type (info data)))); auto.
  now apply replaceNormalized_preserves.
Qed.

(** The entry of the token itself, with a safe value, leaves none of it. *)
Lemma renderEntry_eliminates (groupKey c k : jsstring) (data : PlaceholderData) :
  displayKey k = dk ->
  isCurrencyBlank (type (info data)) = false ->
  safeValue token (formatValue (info data) (value data)) = true ->
  includes (renderEntry groupKey c (k, data)) token = false.
Proof.
  intros Hk Hty Hs; unfold renderEntry; cbv zeta; rewrite Hty; cbn [negb].
  now apply replaceNormalized_eliminates.
Qed.

End RenderOneToken.

(** ** The order of rendering *)

Lemma groupedEntries_steps (groups : JsMap (list Entry)) :
  map snd (flat_map (fun g => map (fun e => (fst g, e)) (snd g)) groups)
  = groupedEntries groups.
Proof.
  unfold groupedEntries; induction groups as [|g groups IH]; auto.
  cbn [flat_map]; rewrite map_app, IH, map_map; cbn [snd].
  now rewrite map_id.
Qed.

Lemma groupedEntries_set_present (groups : JsMap (list Entry)) k g e x :
  Map_get groups k = Some g ->
  In x (groupedEntries (Map_set groups k (g ++ [e])))
  <-> In x (groupedEntries groups) \/ x = e.
Proof.
  unfold groupedEntries.
  induction groups as [|[k0 g0] groups IH]; cbn [Map_get Map_set]; [discriminate|].
  destruct (jsstring_eqb k0 k).
  - intros H; injection H as ->; cbn [flat_map snd].
    rewrite !in_app_iff; cbn [In]; intuition.
  - intros H; cbn [flat_map snd]; rewrite !in_app_iff, (IH H); tauto.
Qed.

Lemma groupedEntries_addToGroup (groups : JsMap (list Entry)) (e x : Entry) :
  In x (groupedEntries (addToGroup groups e))
  <-> In x (groupedEntries groups) \/ x = e.
Proof.
  unfold addToGroup.
  destruct (Map_get groups (groupKeyOf (snd e))) as [g|] eqn:G.
  - now apply groupedEntries_set_present.
  - rewrite (Map_set_absent _ _ _ G); unfold groupedEntries.
    rewrite flat_map_app, in_app_iff; cbn; intuition.
Qed.

Lemma groupedEntries_formatGroups (filled : JsMap PlaceholderData) (x : Entry) :
  In x (groupedEntries (formatGroups filled)) <-> In x filled.
Proof.
  unfold formatGroups.
  assert (H : forall groups,
            In x (groupedEntries (fold_left addToGroup filled groups))
            <-> In x (groupedEntries groups) \/ In x filled).
  { induction filled as [|e filled IH]; intros groups; cbn [fold_left In].
    - tauto.
    - rewrite IH, groupedEntries_addToGroup; intuition. }
  rewrite H; cbn; tauto.
Qed.

Lemma renderSteps_In (filled : JsMap PlaceholderData) (e : Entry) :
  In e filled <-> exists groupKey, In (groupKey, e) (renderSteps filled).
Proof.
  rewrite <- groupedEntries_formatGroups, <- groupedEntries_steps.
  fold (renderSteps filled); rewrite in_map_iff; split.
  - intros [[gk e'] [<- H]]; eauto.
  - intros [gk H]; exists (gk, e); auto.
Qed.

Lemma generateCompletedDocument_steps (documentContent : jsstring)
    (filled : JsMap PlaceholderData) :
  generateCompletedDocument documentContent filled
  = fold_left (fun c ge => renderEntry (fst ge) c (snd ge)) (renderSteps filled)
      documentContent.
Proof.
  unfold generateCompletedDocument, renderSteps.
  revert documentContent.
  induction (formatGroups filled) as [|g groups IH]; intros c; auto.
  cbn [fold_left flat_map]; rewrite fold_left_app, IH; f_equal.
  unfold renderGroup; generalize (snd g) as es; intros es; revert c.
  induction es as [|e es IHe]; intros c; cbn [fold_left map]; auto.
Qed.

(** The rendered text holds no occurrence of the [originalFormat] of an
    entry that is not a currency blank when that token is one of the
    normalized spellings of the entry's key and every value of the map, as
    it is written, is safe for the token. *)
Lemma normalized_token_eliminated :
  forall (documentContent : jsstring) (filled : JsMap PlaceholderData)
         (k : jsstring) (data : PlaceholderData),
    In (k, data) filled ->
    isCurrencyBlank (type (info data)) = false ->
    In (originalFormat (info data)) (normalizedPatterns (displayKey k)) ->
    (forall e, In e filled ->
       safeValue (originalFormat (info data))
         (formatValue (info (snd e)) (value (snd e))) = true) ->
    includes (generateCompletedDocument documentContent filled)
      (originalFormat (info data)) = false.
Proof.
  intros doc filled k data Hin Hty Hpat Hsafe.
  set (token := originalFormat (info data)) in *.
  rewrite generateCompletedDocument_steps.
  assert (Hsteps : forall ge, In ge (renderSteps filled) ->
            safeValue token (formatValue (info (snd (snd ge)))
                               (value (snd (snd ge)))) = true).
  { intros [gk e] H; apply Hsafe, renderSteps_In; eauto. }
  apply renderSteps_In in Hin; destruct Hin as [gk Hin].
  apply in_split in Hin; destruct Hin as [l1 [l2 Hl]].
  rewrite Hl in Hsteps |- *.
  rewrite fold_left_app; cbn [fold_left fst snd].
  set (c1 := fold_left _ l1 doc).
  assert (H2 : includes (renderEntry gk c1 (k, data)) token = false).
  { apply (renderEntry_eliminates (displayKey k) token Hpat); auto.
    apply (Hsteps (gk, (k, data))), in_or_app; right; now left. }
  assert (Hl2 : forall ge, In ge l2 ->
            safeValue token (formatValue (info (snd (snd ge)))
                               (value (snd (snd ge)))) = true)
    by (intros ge H; apply Hsteps, in_or_app; right; now right).
  revert H2; generalize (renderEntry gk c1 (k, data)) as c2.
  clear Hl Hsteps c1; induction l2 as [|ge l2 IH]; intros c2 H2; auto.
  cbn [fold_left]; apply IH; [intros; apply Hl2; now right|].
  apply (renderEntry_preserves (displayKey k) token Hpat); auto.
  apply Hl2; now left.
Qed.



(** ** Positions recorded by the third pass *)

Lemma execAllFrom_places (re : Matcher) :
  forall s skip i prev,
    Forall (fun m => i <= index m
              /\ exists prev', re prev' (skipn (Z.to_nat (index m - i)) s)
                               = Some (matched m, group1 m))
      (execAllFrom re skip i prev s).
Proof.
  assert (Hshift : forall c s i l,
            Forall (fun m => i + 1 <= index m
                      /\ exists prev', re prev' (skipn (Z.to_nat (index m - (i + 1))) s)
                                       = Some (matched m, group1 m)) l ->
            Forall (fun m => i <= index m
                      /\ exists prev', re prev' (skipn (Z.to_nat (index m - i)) (c :: s))
                                       = Some (matched m, group1 m)) l).
  { intros c s i l H; eapply Forall_impl; [|exact H].
    intros m [Hle [prev' Hre]]; split; [lia|]; exists prev'.
    replace (Z.to_nat (index m - i)) with (S (Z.to_nat (index m - (i + 1))))
      by lia.
    exact Hre. }
  induction s as [|c s IH]; intros skip i prev; simpl; [constructor|].
  destruct skip as [|k]; [|now apply Hshift].
  destruct (re prev (c :: s)) as [[m g]|] eqn:E; [|now apply Hshift].
  constructor; [|now apply Hshift].
  cbn [index matched group1]; split; [lia|]; exists prev.
  now replace (i - i) with 0 by lia.
Qed.

Lemma execAllFrom_ascending (re : Matcher) :
  forall s skip i prev,
    StronglySorted (fun a b => index a < index b) (execAllFrom re skip i prev s).
Proof.
  induction s as [|c s IH]; intros skip i prev; simpl; [constructor|].
  destruct skip as [|k]; auto.
  destruct (re prev (c :: s)) as [[m g]|] eqn:E; auto.
  constructor; auto.
  eapply Forall_impl; [|apply (execAllFrom_places re s _ (i + 1))].
  intros a [Ha _]; cbn [index]; lia.
Qed.

Lemma labelFields_pattern lf :
  In lf labelFields ->
  fst lf = ciLiteralToLineEnd atWordBoundary (snd lf ++ ":").
Proof.
  simpl; intros [<- | [<- | [<- | [<- | []]]]]; reflexivity.
Qed.

Lemma labelFields_places text lf :
  In lf labelFields ->
  Forall (fun m => 0 <= index m /\ labelAt text (snd lf) (index m) = true)
    (execAll (fst lf) text).
Proof.
  intros Hlf; eapply Forall_impl; [|apply execAllFrom_places].
  intros m [Hle [prev' Hre]]; split; auto.
  rewrite (labelFields_pattern lf Hlf) in Hre; unfold ciLiteralToLineEnd in Hre.
  rewrite Z.sub_0_r in Hre; unfold labelAt.
  destruct (ciStartsWith _ _); auto.
  now rewrite andb_false_r in Hre.
Qed.

Lemma labelAt_unique text l1 l2 z :
  In l1 labelNames -> In l2 labelNames ->
  labelAt text l1 z = true -> labelAt text l2 z = true -> l1 = l2.
Proof.
  unfold labelAt; destruct (skipn (Z.to_nat z) text) as [|y s];
    simpl; intros H1 H2;
    destruct H1 as [<- | [<- | [<- | [<- | []]]]];
    destruct H2 as [<- | [<- | [<- | [<- | []]]]];
    auto; try discriminate;
    cbn [app ciStartsWith list_ascii_of_string];
    intros A B;
    apply andb_true_iff, proj1, Ascii.eqb_eq in A;
    apply andb_true_iff, proj1, Ascii.eqb_eq in B;
    rewrite <- B in A; vm_compute in A; discriminate.
Qed.

Lemma Map_set_In {V} (m : JsMap V) k v e :
  In e (Map_set m k v) -> e = (k, v) \/ In e m.
Proof.
  induction m as [|[k' v'] m IH]; simpl.
  - intros [<- | []]; now left.
  - destruct (jsstring_eqb k' k) eqn:E; simpl.
    + apply jsstring_eqb_eq in E; subst k'.
      intros [<- | H]; auto.
    + intros [<- | H]; auto.
      destruct (IH H); auto.
Qed.

Lemma Forall_In_Map_set {V} (P : jsstring * V -> Prop) (m : JsMap V) k v :
  P (k, v) -> Forall P m -> Forall P (Map_set m k v).
Proof.
  intros Hv Hm; apply Forall_forall; intros e He.
  destruct (Map_set_In _ _ _ _ He) as [-> | H]; auto.
  rewrite Forall_forall in Hm; auto.
Qed.

Lemma recordedBy_weaken text (ok ok' : jsstring -> Z -> Prop) placeholders :
  (forall label z, ok label z -> ok' label z) ->
  Forall (recordedBy text ok) placeholders ->
  Forall (recordedBy text ok') placeholders.
Proof.
  intros Hok; apply Forall_impl; intros e He z Hz.
  destruct (He z Hz) as [label [p [Hk [Hat Hl]]]]; eauto 6.
Qed.

Lemma noPosition_recordedBy text ok placeholders :
  Forall noPosition placeholders -> Forall (recordedBy text ok) placeholders.
Proof.
  apply Forall_impl; intros e He z Hz; unfold noPosition in He; congruence.
Qed.

Lemma noPosition_distinctPositions placeholders :
  Forall noPosition placeholders -> distinctPositions placeholders.
Proof.
  intros H e1 e2 z H1 _ Hz; rewrite Forall_forall in H.
  specialize (H e1 H1); unfold noPosition in H; congruence.
Qed.

Section LabelPositions.

Variable text : jsstring.
Variable sigs : list SignatureMatch.
Variable done : list jsstring.
Variable label : jsstring.
Hypothesis label_in : In label labelNames.
Hypothesis done_in : forall l, In l done -> In l labelNames.
Hypothesis label_fresh : ~ In label done.

Lemma processLabelMatch_positions placeholders m bound :
  bound <= index m -> labelAt text label (index m) = true ->
  distinctPositions placeholders ->
  Forall (recordedBy text (fun l z => In l done \/ (l = label /\ z < bound)))
    placeholders ->
  distinctPositions (processLabelMatch sigs label placeholders m)
  /\ Forall (recordedBy text
               (fun l z => In l done \/ (l = label /\ z < index m + 1)))
       (processLabelMatch sigs label placeholders m).
Proof.
  intros Hb Hat HD HR.
  assert (HR' : Forall (recordedBy text
                          (fun l z => In l done \/ (l = label /\ z < index m + 1)))
                  placeholders).
  { eapply recordedBy_weaken; [|exact HR].
    intros l z [H | [-> H]]; [now left | right; split; auto; lia]. }
  unfold processLabelMatch.
  destruct (resolveContext sigs (index m)) as [p|]; auto.
  set (k := uniqueKey p label).
  set (v := mkInfo k (trim (matched m)) [] square (Some p) (Some (index m))).
  assert (Hadd : distinctPositions (Map_set placeholders k v)
                 /\ Forall (recordedBy text
                              (fun l z => In l done
                                          \/ (l = label /\ z < index m + 1)))
                      (Map_set placeholders k v)).
  { assert (Hold : forall e, In e placeholders ->
                     position (snd e) = Some (index m) -> False).
    { intros e He Hz; rewrite Forall_forall in HR.
      destruct (HR e He _ Hz) as [l [q [_ [Hl [Hd | [_ Hlt]]]]]]; [|lia].
      apply label_fresh.
      now rewrite (labelAt_unique text label l (index m)); auto. }
    split.
    - intros e1 e2 z H1 H2 Hz1 Hz2.
      destruct (Map_set_In _ _ _ _ H1) as [-> | H1'];
        destruct (Map_set_In _ _ _ _ H2) as [-> | H2']; auto.
      + cbn [snd position v] in Hz1; injection Hz1 as <-.
        destruct (Hold e2 H2' Hz2).
      + cbn [snd position v] in Hz2; injection Hz2 as <-.
        destruct (Hold e1 H1' Hz1).
      + eapply HD; eauto.
    - apply Forall_In_Map_set; auto.
      intros z Hz; cbn [snd position v] in Hz; injection Hz as <-.
      exists label, p; split; [reflexivity|]; split; auto.
      right; split; auto; lia. }
  destruct (Map_get placeholders k); auto.
  destruct (negb _); auto.
Qed.

Lemma fold_processLabelMatch_positions ms :
  StronglySorted (fun a b => index a < index b) ms ->
  forall placeholders bound,
    Forall (fun m => bound <= index m /\ labelAt text label (index m) = true)
      ms ->
    distinctPositions placeholders ->
    Forall (recordedBy text (fun l z => In l done \/ (l = label /\ z < bound)))
      placeholders ->
    distinctPositions (fold_left (processLabelMatch sigs label) ms placeholders)
    /\ Forall (recordedBy text (fun l z => In l (label :: done)))
         (fold_left (processLabelMatch sigs label) ms placeholders).
Proof.
  induction 1 as [|m ms Hs IH Hlt]; intros pl bound Hms HD HR; cbn [fold_left].
  - split; auto; eapply recordedBy_weaken; [|exact HR].
    intros l z [H | [-> _]]; [now right | now left].
  - inversion Hms as [|? ? [Hb Hat] Hms']; subst.
    destruct (processLabelMatch_positions pl m bound Hb Hat HD HR) as [HD' HR'].
    apply (IH _ (index m + 1)); auto.
    rewrite Forall_forall in *; intros a Ha.
    split; [specialize (Hlt a Ha); lia | now apply Hms'].
Qed.

End LabelPositions.

Lemma labelPass_positions text placeholders :
  Forall noPosition placeholders ->
  distinctPositions (labelPass text placeholders).
Proof.
  intros H0; unfold labelPass.
  assert (HD : distinctPositions placeholders)
    by now apply noPosition_distinctPositions.
  assert (HR : Forall (recordedBy text (fun l _ => In l (@nil jsstring)))
                 placeholders) by now apply noPosition_recordedBy.
  assert (Hdone : forall l, In l (@nil jsstring) -> In l labelNames)
    by (intros l []).
  assert (Hnd : NoDup (map snd labelFields))
    by (repeat constructor; simpl; intuition discriminate).
  assert (Hfresh : forall lf, In lf labelFields -> ~ In (snd lf) (@nil jsstring))
    by (intros lf _ []).
  assert (Hin : forall lf, In lf labelFields -> In lf labelFields) by auto.
  clear H0; revert Hnd Hfresh Hin placeholders HD HR Hdone.
  generalize (@nil jsstring) as done.
  generalize labelFields at 1 2 3 5 as lfs.
  induction lfs as [|lf lfs IH]; intros done Hnd Hfresh Hin pl HD HR Hdone;
    cbn [fold_left]; auto.
  inversion Hnd as [|? ? Hnot Hnd']; subst.
  assert (Hlf : In lf labelFields) by (apply Hin; now left).
  assert (Hname : In (snd lf) labelNames) by now apply in_map.
  destruct (fold_processLabelMatch_positions text (signatureMatches text) done
              (snd lf) Hname Hdone (Hfresh lf (or_introl eq_refl))
              (execAll (fst lf) text) (execAllFrom_ascending _ _ _ _ _) pl 0)
    as [HD' HR']; auto.
  - apply labelFields_places; auto.
  - eapply recordedBy_weaken; [|exact HR]; intros l z Hl; now left.
  - apply (IH (snd lf :: done)); auto.
    + intros lf' Hlf' [Heq | Hd].
      * apply Hnot; rewrite Heq; now apply in_map.
      * apply (Hfresh lf'); auto; now right.
    + intros lf' Hlf'; apply Hin; now right.
    + intros l [<- | Hl]; auto.
Qed.

Lemma extractPlaceholders_positions text :
  distinctPositions (extractPlaceholders text).
Proof.
  apply labelPass_positions, literalPass_noPosition, currencyPass_noPosition.
Qed.

(** The label entries of a map filled over a catalog record positions that
    differ from one another. *)
Lemma labelFieldsOf_positions catalog filledData :
  distinctPositions catalog -> NoDup (Map_keys filledData) ->
  describedBy catalog filledData ->
  NoDup (map entryPosition (labelFieldsOf filledData)).
Proof.
  intros HD; unfold labelFieldsOf, describedBy, Map_keys.
  induction filledData as [|e l IH]; intros Hnd Hin; cbn [filter map];
    [constructor|].
  inversion Hnd as [|? ? Hnot Hnd']; subst.
  assert (IHl : NoDup (map entryPosition (filter goesToLabelFields l)))
    by (apply IH; auto; intros; apply Hin; now right).
  destruct (goesToLabelFields e) eqn:Ge; auto.
  cbn [map]; constructor; auto.
  intros Hpos; apply in_map_iff in Hpos; destruct Hpos as [e' [Hp He']].
  apply filter_In in He'; destruct He' as [He' Ge'].
  apply Hnot, in_map_iff; exists e'; split; auto.
  unfold goesToLabelFields in Ge, Ge'.
  apply andb_true_iff in Ge, Ge'.
  unfold entryPosition in Hp.
  destruct (position (info (snd e))) as [z|] eqn:Pz; [|now destruct Ge].
  destruct (position (info (snd e'))) as [z'|] eqn:Pz'; [|now destruct Ge'].
  subst z'.
  apply (HD (fst e', info (snd e')) (fst e, info (snd e)) z); auto.
  - apply Hin; now right.
  - apply Hin; now left.
Qed.

(** C7: [handleDownload] processes the entries of [filledData] in the order
    [processingOrder] gives, each of them once.  The label entries (an
    [originalFormat] that ends in [:] and holds no bracket, and a recorded
    position) come first, every one of them before any other entry, in
    descending order of their recorded positions; the order is strictly
    descending when the recorded positions are pairwise distinct, and they
    are in every map that [handleDownload] receives: a map whose
    descriptors are those of a catalog of [extractPlaceholders]. *)
Theorem handleDownload_processing_order :
  forall (Markup : Type) (processLabelField processOtherField : Markup -> Entry -> Markup)
         (cleanUp : Markup -> Markup) (filledData : JsMap PlaceholderData)
         (docXml : Markup),
    handleDownload Markup processLabelField processOtherField cleanUp
      filledData docXml
    = cleanUp (fold_left (processField Markup processLabelField processOtherField)
                 (processingOrder filledData) docXml)
    /\ Permutation (processingOrder filledData) filledData
    /\ Forall (fun e => goesToLabelFields e = true) (sortedLabelFields filledData)
    /\ Forall (fun e => goesToLabelFields e = false) (otherFieldsOf filledData)
    /\ StronglySorted (fun a b => entryPosition a >= entryPosition b)
         (sortedLabelFields filledData)
    /\ (NoDup (map entryPosition (labelFieldsOf filledData)) ->
        StronglySorted (fun a b => entryPosition a > entryPosition b)
          (sortedLabelFields filledData))
    /\ (forall text : jsstring,
           NoDup (Map_keys filledData) ->
           describedBy (extractPlaceholders text) filledData ->
           StronglySorted (fun a b => entryPosition a > entryPosition b)
             (sortedLabelFields filledData)).
Proof.
  intros Markup pl po cu filledData docXml.
  assert (Hl : Forall (fun e => goesToLabelFields e = true)
                 (sortedLabelFields filledData))
    by apply Forall_sortBy, labelFieldsOf_Forall.
  assert (Hs : StronglySorted (fun a b => entryPosition a >= entryPosition b)
                 (sortedLabelFields filledData))
    by (apply sortBy_descending; reflexivity).
  repeat split; auto using otherFieldsOf_Forall.
  - unfold handleDownload, processingOrder; f_equal.
    rewrite fold_left_app.
    rewrite (fold_left_Forall_ext (processField Markup pl po) pl _ _ _ Hl)
      by (intros a b Hb; unfold processField; now rewrite Hb).
    apply eq_sym, fold_left_Forall_ext with (1 := otherFieldsOf_Forall filledData).
    intros a b Hb; unfold processField; now rewrite Hb.
  - unfold processingOrder.
    eapply perm_trans; [|apply (filter_partition_Permutation goesToLabelFields)].
    apply Permutation_app_tail, sortBy_Permutation.
  - intros Hnd; apply descending_strict; auto.
    eapply Permutation_NoDup; [|exact Hnd].
    apply Permutation_map, Permutation_sym, sortBy_Permutation.
  - intros text Hnd Hin; apply descending_strict; auto.
    eapply Permutation_NoDup;
      [apply Permutation_map, Permutation_sym, sortBy_Permutation|].
    eapply labelFieldsOf_positions; eauto using extractPlaceholders_positions.
Qed.

Lemma handleDownload_processing_order_witness :
  (map fst (processingOrder mixedEntries)
   = [ ("Investor Address" : jsstring); ("Company Address" : jsstring);
       ("Company Name" : jsstring) ]
   /\ StronglySorted (fun a b => entryPosition a > entryPosition b)
        (sortedLabelFields mixedEntries))
  /\ (map fst (processingOrder (fillWith "x" (extractPlaceholders signaturePage)))
      = [ ("Investor Address" : jsstring); ("Company Address" : jsstring) ]
      /\ StronglySorted (fun a b => entryPosition a > entryPosition b)
           (sortedLabelFields
              (fillWith "x" (extractPlaceholders signaturePage)))).
Proof.
  split; (split; [reflexivity|]).
  - destruct (handleDownload_processing_order unit (fun x _ => x)
                (fun x _ => x) (fun x => x) mixedEntries tt)
      as (_ & _ & _ & _ & _ & H & _).
    apply H; vm_compute.
    constructor; [intros [H1 | []]; discriminate | constructor; [intros [] | constructor]].
  - destruct (handleDownload_processing_order unit (fun x _ => x)
                (fun x _ => x) (fun x => x)
                (fillWith "x" (extractPlaceholders signaturePage)) tt)
      as (_ & _ & _ & _ & _ & _ & H).
    apply (H signaturePage).
    + vm_compute.
      constructor; [intros [H1 | []]; discriminate | constructor; [intros [] | constructor]].
    + intros e He; vm_compute in He |- *.
      destruct He as [<- | [<- | []]]; [now left | right; now left].
Defined.

(** * Properties of the rest of the engine *)

Ltac pick_In :=
  cbn [In fallbackPrompts];
  repeat first [left; reflexivity | right].

Lemma startsWith_app_left (s p q : jsstring) :
  startsWith s (p ++ q) = true -> startsWith s p = true.
Proof.
  revert s; induction p as [|x p IH]; intros s; auto.
  destruct s as [|y s]; simpl; [discriminate|].
  rewrite !andb_true_iff; intros [-> H]; auto.
Qed.

Lemma includes_longer (s p q : jsstring) :
  p <> [] -> includes s (p ++ q) = true -> includes s p = true.
Proof.
  intros Hp; induction s as [|c s IH].
  - rewrite !includes_nil; destruct p; [now destruct Hp | discriminate].
  - rewrite !includes_cons, !orb_true_iff; intros [H | H]; auto.
    left; now apply startsWith_app_left with q.
Qed.

(** ** The rule-based questions *)

(** X1: [generateFallbackPrompt] asks one of eight questions: those for the
    company name, the investor's name, the purchase amount, the date, the
    state of incorporation, the valuation cap and the governing law, or the
    generic one that quotes the key.  The tests for the signature block and
    for the title, address, e-mail and name of either party come after the
    tests for [company] and [investor] and are never reached: a key that
    holds [company], in any case, gets the question for the company name,
    and a key that holds [investor] and not [company] the one for the
    investor's name. *)
Theorem generateFallbackPrompt_questions :
  forall placeholder : PlaceholderInfo,
    let k := toLowerCase (displayKey (key placeholder)) in
    In (generateFallbackPrompt placeholder)
       (fallbackPrompts (displayKey (key placeholder)))
    /\ (includes k "company" = true ->
        generateFallbackPrompt placeholder
        = ("What is the Company Name?" : jsstring))
    /\ (includes k "company" = false -> includes k "investor" = true ->
        generateFallbackPrompt placeholder
        = ("What is the Investor's Name?" : jsstring)).
Proof.
  intros placeholder k; unfold generateFallbackPrompt; fold k.
  assert (Hcn : includes k "company" = false ->
                includes k "company name" = false).
  { intros H; destruct (includes k "company name") eqn:E; auto.
    rewrite <- H; symmetry.
    apply (includes_longer k "company" " name"); auto; discriminate. }
  split; [|split].
  - destruct (includes k "company") eqn:Ec; [pick_In|].
    rewrite (Hcn eq_refl); cbn [orb].
    destruct (jsstring_eqb (displayKey (key placeholder)) "COMPANY") eqn:Eq.
    { apply jsstring_eqb_eq in Eq; subst k; rewrite Eq in Ec.
      vm_compute in Ec; discriminate. }
    destruct (includes k "investor") eqn:Ei; [pick_In|].
    repeat (cbn [orb andb];
            match goal with
            | |- In (if ?c then _ else _) _ =>
                match c with
                | context [includes k ?w] => destruct (includes k w)
                end
            end).
    all: cbn [orb andb]; pick_In.
  - intros ->; reflexivity.
  - intros Hc Hi; rewrite Hc, (Hcn Hc), Hi; cbn [orb].
    destruct (jsstring_eqb _ _) eqn:Eq; auto.
    apply jsstring_eqb_eq in Eq; subst k; rewrite Eq in Hc.
    vm_compute in Hc; discriminate.
Qed.

Lemma generateFallbackPrompt_questions_witness :
  generateFallbackPrompt
    (mkInfo "Company Address" "Address:" [] square (Some company) (Some 8))
  = ("What is the Company Name?" : jsstring)
  /\ generateFallbackPrompt
       (mkInfo "Investor Email" "Email:" [] square (Some investor) (Some 40))
     = ("What is the Investor's Name?" : jsstring).
Proof.
  split.
  - apply (proj1 (proj2 (generateFallbackPrompt_questions
                           (mkInfo "Company Address" "Address:" [] square
                              (Some company) (Some 8))))).
    reflexivity.
  - apply (proj2 (proj2 (generateFallbackPrompt_questions
                           (mkInfo "Investor Email" "Email:" [] square
                              (Some investor) (Some 40)))));
      reflexivity.
Defined.

(** ** Values and their prefix *)

(** X2: the value [generateCompletedDocument] and [handleDownload] write for
    an entry begins with the prefix of the entry, and formatting it again
    changes nothing: a prefix is put in front once, never twice.  A value
    that begins with the prefix is written as it is. *)
Theorem formatValue_prefix_once :
  forall (i : PlaceholderInfo) (v : jsstring),
    startsWith (formatValue i v) (prefix i) = true
    /\ formatValue i (formatValue i v) = formatValue i v
    /\ (startsWith v (prefix i) = true -> formatValue i v = v).
Proof.
  intros i v; unfold formatValue.
  destruct (prefix i) as [|c p] eqn:Ep; [repeat split; reflexivity|].
  cbn [isEmpty negb andb].
  destruct (startsWith v (c :: p)) eqn:Es; cbn [negb].
  - rewrite Es; cbn [negb]; auto.
  - rewrite (startsWith_app (c :: p) (stripDollar v)); cbn [negb].
    repeat split; auto; discriminate.
Qed.

Lemma formatValue_prefix_once_witness :
  formatValue currencyPlaceholder "$100,000" = ("$100,000" : jsstring).
Proof.
  apply (proj2 (proj2 (formatValue_prefix_once currencyPlaceholder "$100,000"))).
  reflexivity.
Defined.

(** ** Trimming *)

Lemma dropWhile_idempotent (f : ascii -> bool) (s : jsstring) :
  dropWhile f (dropWhile f s) = dropWhile f s.
Proof.
  induction s as [|c s IH]; simpl; auto.
  destruct (f c) eqn:E; auto; simpl; now rewrite E.
Qed.

Lemma trim_idempotent (s : jsstring) : trim (trim s) = trim s.
Proof.
  unfold trim at 2 3; unfold trimStart.
  destruct (dropWhile isWhiteSpace s) as [|c t] eqn:Et; [reflexivity|].
  assert (Hc : isWhiteSpace c = false).
  { destruct (isWhiteSpace c) eqn:E; auto.
    pose proof (dropWhile_idempotent isWhiteSpace s) as H.
    rewrite Et in H; simpl in H; rewrite E in H.
    pose proof (dropWhile_length isWhiteSpace t) as L.
    rewrite H in L; simpl in L; lia. }
  simpl rev at 2; rewrite (dropWhile_app_stop _ _ _ Hc), rev_app_distr.
  cbn [rev app].
  set (r := rev (dropWhile isWhiteSpace (rev t))).
  unfold trim, trimStart; cbn [dropWhile]; rewrite Hc.
  simpl rev at 2; unfold r at 1; rewrite rev_involutive.
  rewrite (dropWhile_app_stop _ _ _ Hc), dropWhile_idempotent.
  now rewrite ?(dropWhile_app_stop _ _ _ Hc), ?rev_app_distr.
Qed.

Lemma trim_Forall (Q : ascii -> bool) (s : jsstring) :
  forallb Q s = true -> forallb Q (trim s) = true.
Proof.
  assert (D : forall f l, forallb Q l = true -> forallb Q (dropWhile f l) = true).
  { intros f l; induction l as [|c l IH]; simpl; auto.
    destruct (f c); auto; rewrite andb_true_iff; intros [_ H]; auto. }
  assert (R : forall l, forallb Q l = true -> forallb Q (rev l) = true).
  { intros l H; rewrite forallb_forall in *; intros x Hx; apply H.
    now apply in_rev. }
  intros H; unfold trim, trimStart; auto.
Qed.

Lemma trim_no_space (s : jsstring) :
  forallb (fun c => negb (isWhiteSpace c)) s = true -> trim s = s.
Proof.
  assert (D : forall l, forallb (fun c => negb (isWhiteSpace c)) l = true ->
                dropWhile isWhiteSpace l = l).
  { intros [|c l]; simpl; auto.
    rewrite andb_true_iff; intros [Hc _].
    apply negb_true_iff in Hc; now rewrite Hc. }
  intros H; unfold trim, trimStart; rewrite (D s H), D, rev_involutive; auto.
  rewrite forallb_forall in *; intros x Hx; apply H; now apply in_rev.
Qed.

(** ** extractValue *)

(** X3: for a placeholder that is not of the currency kind, [extractValue]
    returns the input without the white space around it, whatever the
    input, and whether or not the key names a date: the branch for dates
    returns the value it was given.  The result is a value [extractValue]
    leaves as it is. *)
Theorem extractValue_text_is_trimmed :
  forall (input : jsstring) (placeholder : PlaceholderInfo),
    isCurrencyKind placeholder = false ->
    extractValue input placeholder = Some (trim input)
    /\ extractValue (trim input) placeholder = Some (trim input).
Proof.
  intros input p H.
  rewrite !extractValue_other by exact H.
  now rewrite trim_idempotent.
Qed.

Lemma extractValue_text_is_trimmed_witness :
  extractValue "  October 31, 2025 " datePlaceholder
  = Some ("October 31, 2025" : jsstring)
  /\ extractValue "October 31, 2025" datePlaceholder
     = Some ("October 31, 2025" : jsstring).
Proof.
  apply (extractValue_text_is_trimmed "  October 31, 2025 " datePlaceholder).
  reflexivity.
Defined.

(** ** Amounts *)

Ltac by_code_units c :=
  destruct c as [[] [] [] [] [] [] [] []]; vm_compute; try discriminate; auto.

Lemma isDigit_facts (c : ascii) :
  isDigit c = true ->
  isWhiteSpace c = false /\ isChar "," c = false /\ isChar "." c = false
  /\ isChar "+" c = false /\ isChar "-" c = false /\ isChar "$" c = false
  /\ lowerChar c = c /\ Ascii.eqb "I" c = false
  /\ Ascii.eqb "k" c = false /\ Ascii.eqb "m" c = false.
Proof. by_code_units c; repeat split. Qed.

Lemma digit_code (d : N) :
  (d < 10)%N -> code (ascii_of_N (48 + d)) = (48 + d)%N.
Proof. intros H; unfold code; apply N_ascii_embedding; lia. Qed.

Lemma digit_isDigit (d : N) : (d < 10)%N -> isDigit (ascii_of_N (48 + d)) = true.
Proof.
  intros H; unfold isDigit, inRange; rewrite digit_code by exact H.
  apply andb_true_iff; split; apply N.leb_le; lia.
Qed.

Lemma digit_value (d : N) : (d < 10)%N -> digitValue (ascii_of_N (48 + d)) = d.
Proof. intros H; unfold digitValue; rewrite digit_code by exact H; lia. Qed.

Lemma digitsOf_suffix (f : nat) :
  forall n acc, exists pre, digitsOf f n acc = pre ++ acc.
Proof.
  induction f as [|f IH]; intros n acc; cbn [digitsOf]; [now exists []|].
  destruct (n / 10 =? 0)%N.
  - now exists [ascii_of_N (48 + n mod 10)].
  - destruct (IH (n / 10)%N (ascii_of_N (48 + n mod 10) :: acc)) as [pre ->].
    exists (pre ++ [ascii_of_N (48 + n mod 10)]); now rewrite <- app_assoc.
Qed.

Lemma decimal_nonempty (n : N) : decimal n <> [].
Proof.
  unfold decimal; cbn [digitsOf].
  destruct (n / 10 =? 0)%N; [discriminate|].
  destruct (digitsOf_suffix (N.to_nat (N.log2 n)) (n / 10)
              [ascii_of_N (48 + n mod 10)]) as [pre ->].
  destruct pre; discriminate.
Qed.

Lemma digitsOf_digits (f : nat) :
  forall n acc, forallb isDigit acc = true ->
    forallb isDigit (digitsOf f n acc) = true.
Proof.
  assert (Hd : forall n, isDigit (ascii_of_N (48 + n mod 10)) = true)
    by (intros n; apply digit_isDigit, N.mod_lt; lia).
  induction f as [|f IH]; intros n acc Hacc; cbn [digitsOf]; auto.
  destruct (n / 10 =? 0)%N; [|apply IH]; cbn [forallb]; now rewrite Hd.
Qed.

Lemma decimal_digits (n : N) : forallb isDigit (decimal n) = true.
Proof. now apply digitsOf_digits. Qed.

Lemma digitsOf_value (f : nat) :
  forall n acc, (n < 2 ^ N.of_nat f)%N ->
    fold_left (fun a c => a * 10 + digitValue c)%N (digitsOf f n acc) 0%N
    = fold_left (fun a c => a * 10 + digitValue c)%N acc n.
Proof.
  induction f as [|f IH]; intros n acc Hn.
  - simpl in *; now replace n with 0%N by lia.
  - cbn [digitsOf].
    assert (Hm : (n mod 10 < 10)%N) by (apply N.mod_lt; lia).
    pose proof (N.div_mod n 10 ltac:(lia)) as Hdm.
    destruct (n / 10 =? 0)%N eqn:E.
    + apply N.eqb_eq in E; cbn [fold_left].
      rewrite digit_value by exact Hm; f_equal; lia.
    + rewrite IH.
      * cbn [fold_left]; rewrite digit_value by exact Hm; f_equal; lia.
      * rewrite Nat2N.inj_succ, N.pow_succ_r' in Hn.
        apply N.Div0.div_lt_upper_bound; lia.
Qed.

Lemma digitsValue_decimal (n : N) : digitsValue (decimal n) = n.
Proof.
  unfold digitsValue, decimal; rewrite digitsOf_value; auto.
  rewrite Nat2N.inj_succ, N2Nat.id.
  destruct n as [|p]; [reflexivity|].
  apply N.log2_spec; lia.
Qed.

(** Grouping does nothing but put commas between digits. *)
Lemma removeCommas_groupThousands (l : jsstring) :
  forallb isDigit l = true ->
  forall k, removeCommas (groupThousands k l) = l.
Proof.
  induction l as [|d r IH]; simpl; auto.
  rewrite andb_true_iff; intros [Hd Hr] k.
  destruct (isDigit_facts d Hd) as (_ & Hc & _).
  destruct k as [|[|[|k]]]; try destruct r as [|d' r'];
    cbn [removeCommas filter]; rewrite ?Hc; cbn [negb];
    try (change (filter (fun c => negb (isChar "," c))) with removeCommas);
    rewrite ?IH; auto.
Qed.

Lemma removeCommas_rev (l : jsstring) :
  removeCommas (rev l) = rev (removeCommas l).
Proof.
  unfold removeCommas; induction l as [|c l IH]; simpl; auto.
  rewrite filter_app, IH; cbn [filter].
  destruct (negb (isChar "," c)); cbn [rev]; auto; now rewrite app_nil_r.
Qed.

Lemma removeCommas_digits (l : jsstring) :
  forallb isDigit l = true -> removeCommas l = l.
Proof.
  induction l as [|d r IH]; simpl; auto.
  rewrite andb_true_iff; intros [Hd Hr].
  destruct (isDigit_facts d Hd) as (_ & -> & _); simpl; now rewrite IH.
Qed.

Lemma removeCommas_app (a b : jsstring) :
  removeCommas (a ++ b) = removeCommas a ++ removeCommas b.
Proof. apply filter_app. Qed.

Lemma removeCommas_toLocaleString (n : N) :
  removeCommas (toLocaleString (Int n)) = decimal n.
Proof.
  unfold toLocaleString.
  rewrite removeCommas_rev, removeCommas_groupThousands, rev_involutive; auto.
  rewrite forallb_forall; intros x Hx; apply in_rev in Hx.
  pose proof (decimal_digits n) as H; rewrite forallb_forall in H; auto.
Qed.

Lemma groupThousands_chars (l : jsstring) :
  forallb isDigit l = true ->
  forall k, forallb (fun c => isDigit c || isChar "," c) (groupThousands k l)
            = true.
Proof.
  induction l as [|d r IH]; simpl; auto.
  rewrite andb_true_iff; intros [Hd Hr] k.
  destruct k as [|[|[|k]]]; try destruct r as [|d' r'];
    cbn [forallb]; rewrite Hd; cbn [orb andb]; auto; apply IH; auto.
Qed.

Lemma toLocaleString_chars (n : N) :
  forallb (fun c => isDigit c || isChar "," c) (toLocaleString (Int n)) = true.
Proof.
  unfold toLocaleString.
  assert (H : forallb isDigit (rev (decimal n)) = true).
  { rewrite forallb_forall; intros x Hx; apply in_rev in Hx.
    pose proof (decimal_digits n) as H; rewrite forallb_forall in H; auto. }
  pose proof (groupThousands_chars _ H 0%nat) as G.
  rewrite forallb_forall in *; intros x Hx; apply G; now apply in_rev.
Qed.

Lemma toLocaleString_nonempty (n : N) : toLocaleString (Int n) <> [].
Proof.
  intros H; apply (f_equal removeCommas) in H.
  rewrite removeCommas_toLocaleString in H; now apply (decimal_nonempty n).
Qed.

Lemma takeWhile_app_all (f : ascii -> bool) (a b : jsstring) :
  forallb f a = true -> takeWhile f (a ++ b) = a ++ takeWhile f b.
Proof.
  induction a as [|x a IH]; simpl; auto.
  rewrite andb_true_iff; intros [-> H]; now rewrite IH.
Qed.

Lemma includes_code_unit (s : jsstring) (c : ascii) :
  includes s [c] = existsb (Ascii.eqb c) s.
Proof.
  induction s as [|x s IH]; [reflexivity|].
  rewrite includes_cons, IH; cbn [startsWith existsb].
  now rewrite andb_true_r.
Qed.

Lemma toLowerCase_digits (ds : jsstring) :
  forallb isDigit ds = true -> toLowerCase ds = ds.
Proof.
  unfold toLowerCase; induction ds as [|d ds IH]; cbn [map forallb]; auto.
  rewrite andb_true_iff; intros [Hd H].
  destruct (isDigit_facts d Hd) as (_ & _ & _ & _ & _ & _ & -> & _).
  now rewrite IH.
Qed.

Lemma digits_lack (c : ascii) (ds : jsstring) :
  (forall d, isDigit d = true -> Ascii.eqb c d = false) ->
  forallb isDigit ds = true -> existsb (Ascii.eqb c) ds = false.
Proof.
  intros Hc; induction ds as [|d ds IH]; simpl; auto.
  rewrite andb_true_iff; intros [Hd H]; now rewrite (Hc d Hd), IH.
Qed.

Lemma firstMatch_at_start (re : Matcher) (s m g : jsstring) :
  s <> [] -> re None s = Some (m, g) ->
  firstMatch re s = Some (mkMatch 0 m g).
Proof.
  intros Hs H; unfold firstMatch, execAll.
  destruct s as [|c s]; [now destruct Hs|].
  cbn [execAllFrom]; now rewrite H.
Qed.

(** What [parseFloat] reads from digits and what follows them. *)
Lemma parseFloat_digits (ds suf : jsstring) :
  ds <> [] -> forallb isDigit ds = true ->
  takeWhile isDigit suf = [] ->
  match suf with c :: _ => isChar "." c | [] => false end = false ->
  startsExponent suf = false ->
  (digitsValue ds < maxSafe)%N ->
  parseFloat (ds ++ suf) = Some (Int (digitsValue ds)).
Proof.
  intros Hne Hds Hsuf Hdot Hexp Hv.
  destruct ds as [|d ds']; [now destruct Hne|].
  assert (Hd : isDigit d = true) by (simpl in Hds; now apply andb_true_iff in Hds).
  destruct (isDigit_facts d Hd) as (Hw & _ & _ & Hp & Hm & _ & _ & Hi & _).
  unfold parseFloat, trimStart.
  change ((d :: ds') ++ suf) with (d :: ds' ++ suf).
  cbn [dropWhile]; rewrite Hw, Hp, Hm.
  cbn [orb startsWith list_ascii_of_string]; rewrite Hi; cbn [andb].
  change (d :: ds' ++ suf) with ((d :: ds') ++ suf).
  rewrite (takeWhile_app_all isDigit _ suf Hds), Hsuf, app_nil_r.
  rewrite skipn_length_app.
  assert (Hfrac : match suf with
                  | d0 :: r => if isChar "." d0 then takeWhile isDigit r else []
                  | [] => []
                  end = []).
  { destruct suf as [|c r]; auto; now rewrite Hdot. }
  rewrite Hfrac, Hdot; cbn [isEmpty andb forallb negb].
  rewrite Hexp.
  apply N.ltb_lt in Hv; now rewrite Hv.
Qed.

Lemma parseFloat_decimal (n : N) :
  (n < maxSafe)%N -> parseFloat (decimal n) = Some (Int n).
Proof.
  intros H; rewrite <- (app_nil_r (decimal n)).
  rewrite <- (digitsValue_decimal n) at 2.
  apply parseFloat_digits; auto using decimal_nonempty, decimal_digits.
  now rewrite digitsValue_decimal.
Qed.

(** From the number found to the value: the steps of [extractValue] after
    [value.match]. *)
Lemma formatCurrency_scaled (value : jsstring) (numberMatch : RegExpMatch)
    (n factor : N) (suf : jsstring) :
  firstMatch numberRegex value = Some numberMatch ->
  removeCommas (matched numberMatch) = decimal n ++ suf ->
  takeWhile isDigit suf = [] ->
  match suf with c :: _ => isChar "." c | [] => false end = false ->
  startsExponent suf = false ->
  (if existsb (Ascii.eqb "k") (toLowerCase suf) then 1000
   else if existsb (Ascii.eqb "m") (toLowerCase suf) then 1000000
   else 1)%N = factor ->
  (n * factor < maxSafe)%N ->
  formatCurrency value = Some (("$" : jsstring) ++ toLocaleString (Int (n * factor))).
Proof.
  intros Hm Hr Hsuf Hdot Hexp Hf Hb.
  assert (Hn : (n < maxSafe)%N).
  { destruct (existsb _ _); [|destruct (existsb _ _)]; subst factor; lia. }
  assert (Hp : parseFloat (decimal n ++ suf) = Some (Int n)).
  { rewrite <- (digitsValue_decimal n) at 2.
    apply parseFloat_digits; auto using decimal_nonempty, decimal_digits.
    now rewrite digitsValue_decimal. }
  assert (Hl : forall c, (forall d, isDigit d = true -> Ascii.eqb c d = false) ->
                 includes (toLowerCase (decimal n ++ suf)) [c]
                 = existsb (Ascii.eqb c) (toLowerCase suf)).
  { intros c Hc; rewrite includes_code_unit; unfold toLowerCase.
    rewrite map_app, existsb_app.
    change (map lowerChar (decimal n)) with (toLowerCase (decimal n)).
    rewrite toLowerCase_digits by apply decimal_digits.
    now rewrite (digits_lack c _ Hc (decimal_digits n)). }
  unfold formatCurrency; rewrite Hm, Hr.
  change (list_ascii_of_string "k") with ["k"%char].
  change (list_ascii_of_string "m") with ["m"%char].
  rewrite !Hl by (intros d Hd; now destruct (isDigit_facts d Hd) as (_&_&_&_&_&_&_&_&?&?)).
  destruct (existsb (Ascii.eqb "k") (toLowerCase suf)).
  - subst factor; rewrite Hp; cbn [optBind times].
    apply N.ltb_lt in Hb; rewrite Hb; cbn [optBind numberToString].
    apply N.ltb_lt in Hb; now rewrite parseFloat_decimal.
  - destruct (existsb (Ascii.eqb "m") (toLowerCase suf)) eqn:Em; cbn [orb].
    + subst factor; rewrite Hp; cbn [optBind times].
      apply N.ltb_lt in Hb; rewrite Hb; cbn [optBind numberToString].
      apply N.ltb_lt in Hb; now rewrite parseFloat_decimal.
    + assert (Hmil : includes (toLowerCase (decimal n ++ suf)) "million" = false).
      { destruct (includes _ "million") eqn:E; auto.
        apply (includes_longer _ ["m"%char] "illion") in E; [|discriminate].
        rewrite Hl, Em in E; [discriminate|].
        intros d Hd; now destruct (isDigit_facts d Hd) as (_&_&_&_&_&_&_&_&?&?). }
      rewrite Hmil; subst factor; cbn [optBind]; rewrite Hp; cbn [optBind].
      now rewrite N.mul_1_r.
Qed.

Lemma numberRegex_digits (prev : option ascii) (ds suf : jsstring) :
  ds <> [] ->
  forallb (fun c => isDigit c || isChar "," c) ds = true ->
  takeWhile (fun c => isDigit c || isChar "," c) suf = [] ->
  match suf with c :: _ => isChar "." c | [] => false end = false ->
  numberRegex prev (ds ++ suf)
  = Some (ds ++ match alternatives
                        [ ciLiteral "k"; ciLiteral "K"; ciLiteral "thousand";
                          ciLiteral "million"; ciLiteral "M" ] None suf with
                | Some (m, _) => m
                | None => []
                end, []).
Proof.
  intros Hne Hds Hsuf Hdot; unfold numberRegex.
  rewrite (takeWhile_app_all _ _ suf Hds), Hsuf, app_nil_r, skipn_length_app.
  destruct ds as [|d ds']; [now destruct Hne|]; cbn [isEmpty].
  assert (Hfrac : match suf with
                  | d0 :: r =>
                      if isChar "." d0 && negb (isEmpty (takeWhile isDigit r))
                      then d0 :: takeWhile isDigit r else []
                  | [] => []
                  end = []).
  { destruct suf as [|c r]; auto; now rewrite Hdot. }
  rewrite Hfrac; reflexivity.
Qed.

Lemma digits_or_commas (ds : jsstring) :
  forallb isDigit ds = true ->
  forallb (fun c => isDigit c || isChar "," c) ds = true.
Proof.
  apply forallb_impl; intros c ->; reflexivity.
Qed.

Lemma decimal_no_space (n : N) (suf : jsstring) :
  forallb (fun c => negb (isWhiteSpace c)) suf = true ->
  forallb (fun c => negb (isWhiteSpace c)) (decimal n ++ suf) = true.
Proof.
  intros H; rewrite forallb_app, H, andb_true_r.
  eapply forallb_impl; [|apply decimal_digits].
  intros c Hc; now destruct (isDigit_facts c Hc) as (-> & _).
Qed.

Lemma firstMatch_after_one (re : Matcher) (c : ascii) (s m g : jsstring) :
  re None (c :: s) = None -> s <> [] -> re (Some c) s = Some (m, g) ->
  firstMatch re (c :: s) = Some (mkMatch 1 m g).
Proof.
  intros H0 Hs H; unfold firstMatch, execAll.
  cbn [execAllFrom]; rewrite H0.
  destruct s as [|d s]; [now destruct Hs|].
  cbn [execAllFrom]; now rewrite H.
Qed.

Lemma amount_no_space (s : jsstring) :
  forallb (fun c => isDigit c || isChar "," c) s = true ->
  forallb (fun c => negb (isWhiteSpace c)) s = true.
Proof.
  apply forallb_impl; intros c; by_code_units c.
Qed.

Lemma formatCurrency_plain (n : N) (ds : jsstring) :
  (n < maxSafe)%N -> ds <> [] ->
  forallb (fun c => isDigit c || isChar "," c) ds = true ->
  removeCommas ds = decimal n ->
  formatCurrency ds = Some (("$" : jsstring) ++ toLocaleString (Int n))
  /\ formatCurrency ("$" ++ ds)
     = Some (("$" : jsstring) ++ toLocaleString (Int n)).
Proof.
  intros Hn Hne Hds Hr.
  assert (Hre : forall prev, numberRegex prev ds = Some (ds, [])).
  { intros prev; pose proof (numberRegex_digits prev ds [] Hne Hds eq_refl eq_refl) as H.
    cbn [alternatives] in H; now rewrite !app_nil_r in H. }
  assert (Hrn : removeCommas ds = decimal n ++ []) by now rewrite app_nil_r.
  assert (Hb : (n * 1 < maxSafe)%N) by now rewrite N.mul_1_r.
  rewrite <- (N.mul_1_r n) at 1 2; split.
  - apply (formatCurrency_scaled ds (mkMatch 0 ds []) n 1 []); auto.
    apply firstMatch_at_start; auto.
  - apply (formatCurrency_scaled _ (mkMatch 1 ds []) n 1 []); auto.
    apply firstMatch_after_one; auto.
Qed.

Lemma formatCurrency_suffix (n factor : N) (suf : jsstring) :
  suf <> [] ->
  takeWhile (fun c => isDigit c || isChar "," c) suf = [] ->
  match suf with c :: _ => isChar "." c | [] => false end = false ->
  match alternatives
          [ ciLiteral "k"; ciLiteral "K"; ciLiteral "thousand";
            ciLiteral "million"; ciLiteral "M" ] None suf with
  | Some (m, _) => m
  | None => []
  end = suf ->
  removeCommas suf = suf ->
  startsExponent suf = false ->
  (if existsb (Ascii.eqb "k") (toLowerCase suf) then 1000
   else if existsb (Ascii.eqb "m") (toLowerCase suf) then 1000000
   else 1)%N = factor ->
  (n * factor < maxSafe)%N ->
  formatCurrency (decimal n ++ suf)
  = Some (("$" : jsstring) ++ toLocaleString (Int (n * factor))).
Proof.
  intros Hne Htw Hdot Htail Hrc Hexp Hf Hb.
  apply (formatCurrency_scaled _ (mkMatch 0 (decimal n ++ suf) []) n factor suf);
    auto.
  - apply firstMatch_at_start.
    + pose proof (decimal_nonempty n); destruct (decimal n); [easy | discriminate].
    + pose proof (numberRegex_digits None (decimal n) suf (decimal_nonempty n)
                    (digits_or_commas _ (decimal_digits n)) Htw Hdot) as H.
      rewrite H; do 3 f_equal; exact Htail.
  - cbn [matched].
    now rewrite removeCommas_app, Hrc, removeCommas_digits by apply decimal_digits.
  - destruct suf as [|c r]; [now destruct Hne|].
    cbn [takeWhile] in Htw |- *.
    destruct (isDigit c); [discriminate | reflexivity].
Qed.

(** X4: for a placeholder of the currency kind, [extractValue] turns a whole
    number into [$] and the number with thousands separators, whether the
    number comes as digits, with separators, or already with [$] in front:
    a value it has written is a value it returns unchanged.  A suffix [k]
    or [K] against the digits multiplies by 1,000, a suffix [m], [M] or
    [million] by 1,000,000.  (Numbers below 2^53, after scaling.) *)
Theorem extractValue_amounts :
  forall (n : N) (placeholder : PlaceholderInfo),
    isCurrencyKind placeholder = true ->
    ((n < maxSafe)%N ->
     forall input : jsstring,
       In input [ decimal n; toLocaleString (Int n);
                  ("$" : jsstring) ++ decimal n;
                  ("$" : jsstring) ++ toLocaleString (Int n) ] ->
       extractValue input placeholder
       = Some (("$" : jsstring) ++ toLocaleString (Int n)))
    /\ ((n * 1000 < maxSafe)%N ->
        forall suf : jsstring,
          In suf [ "k" : jsstring; "K" : jsstring ] ->
          extractValue (decimal n ++ suf) placeholder
          = Some (("$" : jsstring) ++ toLocaleString (Int (n * 1000))))
    /\ ((n * 1000000 < maxSafe)%N ->
        forall suf : jsstring,
          In suf [ "m" : jsstring; "M" : jsstring; "million" : jsstring ] ->
          extractValue (decimal n ++ suf) placeholder
          = Some (("$" : jsstring) ++ toLocaleString (Int (n * 1000000)))).
Proof.
  intros n p Hp.
  assert (Hd : forallb (fun c => isDigit c || isChar "," c) (decimal n) = true)
    by apply digits_or_commas, decimal_digits.
  pose proof (toLocaleString_chars n) as Hg.
  split; [|split].
  - intros Hn input Hin; rewrite extractValue_currency by exact Hp.
    destruct (formatCurrency_plain n (decimal n) Hn (decimal_nonempty n) Hd
                (removeCommas_digits _ (decimal_digits n))) as [D1 D2].
    destruct (formatCurrency_plain n (toLocaleString (Int n)) Hn
                (toLocaleString_nonempty n) Hg (removeCommas_toLocaleString n))
      as [G1 G2].
    destruct Hin as [<- | [<- | [<- | [<- | []]]]]; rewrite trim_no_space; auto;
      try (now apply amount_no_space);
      change (("$" : jsstring) ++ ?x) with ("$"%char :: x);
      cbn [forallb]; now rewrite amount_no_space.
  - intros Hn suf Hin; rewrite extractValue_currency by exact Hp.
    rewrite trim_no_space
      by (apply decimal_no_space;
          destruct Hin as [<- | [<- | []]]; reflexivity).
    apply formatCurrency_suffix; auto;
      destruct Hin as [<- | [<- | []]]; first [reflexivity | discriminate].
  - intros Hn suf Hin; rewrite extractValue_currency by exact Hp.
    rewrite trim_no_space
      by (apply decimal_no_space;
          destruct Hin as [<- | [<- | [<- | []]]]; reflexivity).
    apply formatCurrency_suffix; auto;
      destruct Hin as [<- | [<- | [<- | []]]]; first [reflexivity | discriminate].
Qed.

Lemma extractValue_amounts_witness :
  extractValue "$2,500" currencyPlaceholder = Some ("$2,500" : jsstring)
  /\ extractValue "250K" currencyPlaceholder = Some ("$250,000" : jsstring)
  /\ extractValue "3million" currencyPlaceholder
     = Some ("$3,000,000" : jsstring).
Proof.
  split; [|split].
  - apply (proj1 (extractValue_amounts 2500 currencyPlaceholder eq_refl) eq_refl
             "$2,500").
    right; right; right; left; reflexivity.
  - apply (proj1 (proj2 (extractValue_amounts 250 currencyPlaceholder eq_refl))
             eq_refl "K").
    right; left; reflexivity.
  - apply (proj2 (proj2 (extractValue_amounts 3 currencyPlaceholder eq_refl))
             eq_refl "million").
    right; right; left; reflexivity.
Defined.

Lemma numberRegex_needs_digit (prev : option ascii) (s : jsstring) :
  forallb (fun c => negb (isDigit c || isChar "," c)) s = true ->
  numberRegex prev s = None.
Proof.
  unfold numberRegex; destruct s as [|c s]; [reflexivity|].
  cbn [forallb takeWhile]; rewrite andb_true_iff; intros [Hc _].
  apply negb_true_iff in Hc; now rewrite Hc.
Qed.

Lemma formatCurrency_dollar (value v : jsstring) :
  formatCurrency value = Some v -> startsWith v "$" = true.
Proof.
  unfold formatCurrency.
  destruct (firstMatch numberRegex value) as [m|].
  - unfold optBind.
    repeat match goal with
           | |- context [match ?x with Some _ => _ | None => _ end] =>
               destruct x; try discriminate
           | |- context [if ?b then _ else _] => destruct b
           end;
      intros H; injection H as <-; reflexivity.
  - destruct (startsWith value "$") eqn:E; cbn [negb];
      intros H; injection H as <-; auto.
Qed.



(** ** Values in the markup *)

Lemma replaceAllFrom_code_unit (c : ascii) (r whole : jsstring) :
  plainReplacement r = true ->
  forall s i prev,
    replaceAllFrom (literal [c]) r whole 0 i prev s
    = flat_map (fun x => if Ascii.eqb c x then r else [x]) s.
Proof.
  intros Hr; induction s as [|x s IH]; intros i prev; [reflexivity|].
  cbn [replaceAllFrom flat_map]; unfold literal at 1.
  cbn [startsWith]; rewrite andb_true_r.
  destruct (Ascii.eqb c x).
  - rewrite getSubstitution_plain by exact Hr.
    cbn [length Nat.sub]; now rewrite IH.
  - now rewrite IH.
Qed.

Lemma replaceAll_code_unit (c : ascii) (r s : jsstring) :
  plainReplacement r = true ->
  replaceAll (literal [c]) s r
  = flat_map (fun x => if Ascii.eqb c x then r else [x]) s.
Proof. intros Hr; unfold replaceAll; now apply replaceAllFrom_code_unit. Qed.

Lemma flat_map_flat_map {A B C} (f : A -> list B) (g : B -> list C) (l : list A) :
  flat_map g (flat_map f l) = flat_map (fun x => flat_map g (f x)) l.
Proof.
  induction l as [|x l IH]; simpl; auto.
  now rewrite flat_map_app, IH.
Qed.

Lemma escapedValue_by_code_unit (v : jsstring) :
  escapedValue v = flat_map escapedCodeUnit v.
Proof.
  unfold escapedValue.
  change (list_ascii_of_string ">") with [">"%char].
  change (list_ascii_of_string "<") with ["<"%char].
  change (list_ascii_of_string "&") with ["&"%char].
  rewrite !replaceAll_code_unit by reflexivity.
  rewrite !flat_map_flat_map.
  apply flat_map_ext; intros x; unfold escapedCodeUnit.
  destruct (Ascii.eqb "&" x) eqn:E1; [reflexivity|].
  cbn [flat_map app]; destruct (Ascii.eqb "<" x) eqn:E2; [reflexivity|].
  cbn [flat_map app]; destruct (Ascii.eqb ">" x) eqn:E3; reflexivity.
Qed.

Lemma escapedCodeUnit_injective (v w : jsstring) :
  flat_map escapedCodeUnit v = flat_map escapedCodeUnit w -> v = w.
Proof.
  revert w; induction v as [|c v IH]; intros [|d w]; cbn [flat_map]; auto.
  - unfold escapedCodeUnit.
    destruct (Ascii.eqb "&" d); [discriminate|].
    destruct (Ascii.eqb "<" d); [discriminate|].
    destruct (Ascii.eqb ">" d); discriminate.
  - unfold escapedCodeUnit.
    destruct (Ascii.eqb "&" c); [discriminate|].
    destruct (Ascii.eqb "<" c); [discriminate|].
    destruct (Ascii.eqb ">" c); discriminate.
  - unfold escapedCodeUnit.
    destruct (Ascii.eqb "&" c) eqn:C1; [apply Ascii.eqb_eq in C1; subst c|];
      [|destruct (Ascii.eqb "<" c) eqn:C2; [apply Ascii.eqb_eq in C2; subst c|];
        [|destruct (Ascii.eqb ">" c) eqn:C3; [apply Ascii.eqb_eq in C3; subst c|]]];
    (destruct (Ascii.eqb "&" d) eqn:D1; [apply Ascii.eqb_eq in D1; subst d|];
      [|destruct (Ascii.eqb "<" d) eqn:D2; [apply Ascii.eqb_eq in D2; subst d|];
        [|destruct (Ascii.eqb ">" d) eqn:D3; [apply Ascii.eqb_eq in D3; subst d|]]]);
    cbn [app]; intros H; injection H; intros; subst;
      try discriminate;
      try (rewrite Ascii.eqb_refl in *; discriminate);
      f_equal; auto.
Qed.

(** X6: the value [handleDownload] writes into the markup holds no [<] and
    no [>], so it opens and closes no tag; two values that differ are
    written differently, so the value can be read back from what is
    written; and a value without [&], [<] and [>] is written as it is. *)
Theorem escapedValue_markup :
  forall v : jsstring,
    lacks "<" (escapedValue v) = true
    /\ lacks ">" (escapedValue v) = true
    /\ (forall w, escapedValue v = escapedValue w -> v = w)
    /\ (forallb (isNot "&<>") v = true -> escapedValue v = v).
Proof.
  intros v; rewrite !escapedValue_by_code_unit.
  assert (L : forall o, In o [ "<"%char; ">"%char ] ->
                lacks o (flat_map escapedCodeUnit v) = true).
  { intros o Ho; unfold lacks; induction v as [|c v IH]; auto.
    cbn [flat_map]; rewrite forallb_app, IH, andb_true_r.
    unfold escapedCodeUnit.
    destruct (Ascii.eqb "&" c) eqn:E1;
      [destruct Ho as [<- | [<- | []]]; reflexivity|].
    destruct (Ascii.eqb "<" c) eqn:E2;
      [destruct Ho as [<- | [<- | []]]; reflexivity|].
    destruct (Ascii.eqb ">" c) eqn:E3;
      [destruct Ho as [<- | [<- | []]]; reflexivity|].
    cbn [forallb]; rewrite andb_true_r.
    rewrite Ascii.eqb_sym in E2, E3.
    destruct Ho as [<- | [<- | []]]; now rewrite ?E2, ?E3. }
  split; [apply L; now left|].
  split; [apply L; right; now left|].
  split.
  - intros w; rewrite escapedValue_by_code_unit.
    apply escapedCodeUnit_injective.
  - clear L; induction v as [|c v IH]; auto.
    cbn [forallb flat_map]; rewrite andb_true_iff; intros [Hc Hv].
    rewrite (IH Hv); unfold escapedCodeUnit.
    unfold isNot in Hc; cbn [existsb list_ascii_of_string] in Hc.
    rewrite !negb_true_iff, !orb_false_iff in Hc.
    destruct Hc as (H1 & H2 & H3 & _).
    rewrite Ascii.eqb_sym in H1, H2, H3; now rewrite H1, H2, H3.
Qed.

Lemma escapedValue_markup_witness :
  escapedValue "Acme Corp" = ("Acme Corp" : jsstring).
Proof.
  apply (proj2 (proj2 (proj2 (escapedValue_markup "Acme Corp")))).
  reflexivity.
Defined.

Example escapedValue_ampersand :
  escapedValue "A&B <x>" = ("A&amp;B &lt;x&gt;" : jsstring).
Proof. vm_compute; reflexivity. Qed.

(** ** The text shown *)

Lemma split_nonempty (sep : ascii) (text : jsstring) : split sep text <> [].
Proof.
  induction text as [|c text IH]; simpl; [discriminate|].
  destruct (Ascii.eqb c sep); [discriminate|].
  destruct (split sep text); [now destruct IH | discriminate].
Qed.

Lemma join_split (sep : ascii) (text : jsstring) :
  join sep (split sep text) = text.
Proof.
  induction text as [|c text IH]; [reflexivity|].
  cbn [split]; pose proof (split_nonempty sep text) as Hne.
  destruct (Ascii.eqb c sep) eqn:E.
  - apply Ascii.eqb_eq in E; subst c.
    destruct (split sep text) as [|p ps]; [now destruct Hne|].
    cbn [join app] in *; now rewrite IH.
  - destruct (split sep text) as [|p ps]; [now destruct Hne|].
    destruct ps as [|q qs]; cbn [join app] in *; now rewrite IH.
Qed.

Lemma split_lines (sep : ascii) (text : jsstring) :
  Forall (fun line => lacks sep line = true) (split sep text).
Proof.
  induction text as [|c text IH]; cbn [split]; [repeat constructor|].
  destruct (Ascii.eqb c sep) eqn:E; [constructor; auto|].
  destruct (split sep text) as [|p ps]; [repeat constructor; cbn; now rewrite E|].
  inversion IH; subst; constructor; auto.
  cbn [lacks forallb]; now rewrite E.
Qed.

Lemma mapWithIndex_keys {A} (f : A -> nat -> Block) (l : list A) :
  (forall x i, blockKey (f x i) = i) ->
  forall i, map blockKey (mapWithIndex f i l) = seq i (length l).
Proof.
  intros Hf; induction l as [|x l IH]; intros i; simpl; auto.
  now rewrite Hf, IH.
Qed.

Lemma mapWithIndex_texts (f : jsstring -> nat -> Block) (l : list jsstring) :
  (forall x i, In x l -> blockText (f x i) = x) ->
  forall i, map blockText (mapWithIndex f i l) = l.
Proof.
  induction l as [|x l IH]; intros Hf i; cbn [mapWithIndex map]; auto.
  rewrite Hf by now left.
  rewrite IH; auto; intros; apply Hf; now right.
Qed.

Lemma mapWithIndex_In {A B} (f : A -> nat -> B) (l : list A) (b : B) :
  forall i, In b (mapWithIndex f i l) -> exists x j, In x l /\ b = f x j.
Proof.
  induction l as [|x l IH]; intros i; simpl; [intros []|].
  intros [<- | H]; [exists x, i; auto|].
  destruct (IH _ H) as [y [j [Hy ->]]]; exists y, j; auto.
Qed.

Lemma isEmpty_nil (s : jsstring) : isEmpty s = true -> s = [].
Proof. destruct s; [reflexivity | discriminate]. Qed.

(** X7: [formatContent] shows the text line by line, in order, with the
    keys 0, 1, 2, ...: a paragraph for each line that holds more than white
    space, with the line as it is, and a line break for each empty line.  A
    line that holds white space and nothing else is left out.  So when the
    text has no such line, the lines shown, joined by line feeds, are the
    text. *)
Theorem formatContent_lines :
  forall text : jsstring,
    map blockText (formatContent text)
    = filter (fun p => negb (isEmpty (trim p)) || isEmpty p)
        (split "010"%char text)
    /\ map blockKey (formatContent text)
       = seq 0 (length (formatContent text))
    /\ (forall b, In b (formatContent text) ->
          match b with
          | lineBreak _ => True
          | paragraph _ para =>
              isEmpty (trim para) = false /\ lacks "010"%char para = true
          end)
    /\ ((forall line, In line (split "010"%char text) ->
           isEmpty (trim line) = true -> line = []) ->
        join "010"%char (map blockText (formatContent text)) = text).
Proof.
  intros text; unfold formatContent.
  set (keep := fun p : jsstring => negb (isEmpty (trim p)) || isEmpty p).
  set (f := fun (para : jsstring) (index : nat) =>
              if isEmpty (trim para) then lineBreak index
              else paragraph index para).
  assert (Ht : map blockText
                 (mapWithIndex f 0 (filter keep (split "010"%char text)))
               = filter keep (split "010"%char text)).
  { apply mapWithIndex_texts; intros x i Hx; unfold f.
    apply filter_In in Hx; destruct Hx as [_ Hk]; unfold keep in Hk.
    destruct (isEmpty (trim x)); cbn [blockText]; auto.
    cbn [negb orb] in Hk; now rewrite (isEmpty_nil x Hk). }
  assert (Hk : map blockKey
                 (mapWithIndex f 0 (filter keep (split "010"%char text)))
               = seq 0 (length (filter keep (split "010"%char text)))).
  { apply mapWithIndex_keys; intros x i; unfold f.
    now destruct (isEmpty (trim x)). }
  split; [exact Ht|]; split; [|split].
  - rewrite Hk; f_equal.
    now rewrite <- (length_map blockText), Ht.
  - intros b Hb; apply mapWithIndex_In in Hb.
    destruct Hb as [x [j [Hx ->]]]; unfold f.
    destruct (isEmpty (trim x)) eqn:E; auto; split; auto.
    apply filter_In in Hx; destruct Hx as [Hx _].
    pose proof (split_lines "010"%char text) as Hl.
    rewrite Forall_forall in Hl; auto.
  - intros Hlines; rewrite Ht.
    replace (filter keep (split "010"%char text)) with (split "010"%char text);
      [apply join_split|].
    symmetry; apply forallb_filter_id, forallb_forall; intros x Hx; unfold keep.
    destruct (isEmpty (trim x)) eqn:E; auto.
    now rewrite (Hlines x Hx E).
Qed.

Lemma formatContent_lines_witness :
  join "010"%char (map blockText (formatContent ("Dear Sir," ++ lineFeed ++ lineFeed ++ "Yours")))
  = "Dear Sir," ++ lineFeed ++ lineFeed ++ "Yours".
Proof.
  apply (proj2 (proj2 (proj2 (formatContent_lines
                                ("Dear Sir," ++ lineFeed ++ lineFeed ++ "Yours"))))).
  intros line H; vm_compute in H.
  destruct H as [<- | [<- | [<- | []]]]; first [reflexivity | discriminate].
Defined.

Example formatContent_blank_line :
  formatContent ("a" ++ lineFeed ++ "  " ++ lineFeed ++ lineFeed ++ "b")
  = [ paragraph 0 "a"; lineBreak 1; paragraph 2 "b" ].
Proof. vm_compute; reflexivity. Qed.

(** ** The order of the questions *)

Section SortByRank.

Context {A : Type}.
Variable cmp : A -> A -> Z.
Variable rank : A -> Z.
Hypothesis cmp_rank_le : forall a b, cmp a b <= 0 -> rank a <= rank b.
Hypothesis cmp_rank_gt : forall a b, cmp a b > 0 -> rank b <= rank a.

Lemma insertBy_ranked (x : A) (l : list A) :
  StronglySorted (fun a b => rank a <= rank b) l ->
  StronglySorted (fun a b => rank a <= rank b) (insertBy cmp x l).
Proof.
  induction l as [|y l IH]; simpl; intros Hs.
  - constructor; auto.
  - inversion Hs as [|? ? Hs' Hall]; subst.
    destruct (cmp x y <=? 0) eqn:E.
    + apply Z.leb_le, cmp_rank_le in E.
      constructor; auto; constructor; auto.
      eapply Forall_impl; [|exact Hall]; simpl; intros; lia.
    + apply Z.leb_gt in E; assert (E' : cmp x y > 0) by lia.
      apply cmp_rank_gt in E'.
      constructor; auto.
      rewrite Forall_forall; intros z Hz.
      apply (Permutation_in _ (insertBy_Permutation cmp x l)) in Hz.
      destruct Hz as [<- | Hz]; auto.
      rewrite Forall_forall in Hall; now apply Hall.
Qed.

Lemma sortBy_ranked (l : list A) :
  StronglySorted (fun a b => rank a <= rank b) (sortBy cmp l).
Proof.
  induction l as [|x l IH]; simpl; [constructor | now apply insertBy_ranked].
Qed.

End SortByRank.

Lemma compareKeys_order (localeCompare : jsstring -> jsstring -> Z)
    (a b : jsstring) :
  (compareKeys localeCompare a b <= 0 ->
   getPlaceholderOrder a <= getPlaceholderOrder b)
  /\ (compareKeys localeCompare a b > 0 ->
      getPlaceholderOrder b <= getPlaceholderOrder a).
Proof.
  unfold compareKeys.
  destruct (getPlaceholderOrder a =? getPlaceholderOrder b) eqn:E; cbn [negb].
  - apply Z.eqb_eq in E; rewrite E; split; intros; lia.
  - split; intros; lia.
Qed.

(** X8: the questions are asked for the keys of the catalog, each key once,
    in the order of [getPlaceholderOrder]: no key comes before a key of a
    smaller order number, so the first question is for a key of the
    smallest order number in the catalog.  This holds whatever
    [localeCompare] answers for keys of the same order number. *)
Theorem placeholderKeys_order :
  forall (localeCompare : jsstring -> jsstring -> Z)
         (placeholders : JsMap PlaceholderInfo),
    Permutation (placeholderKeys localeCompare placeholders)
      (Map_keys placeholders)
    /\ StronglySorted
         (fun a b => getPlaceholderOrder a <= getPlaceholderOrder b)
         (placeholderKeys localeCompare placeholders)
    /\ (forall first k,
          hd_error (placeholderKeys localeCompare placeholders) = Some first ->
          In k (Map_keys placeholders) ->
          getPlaceholderOrder first <= getPlaceholderOrder k).
Proof.
  intros localeCompare placeholders.
  assert (Hp : Permutation (placeholderKeys localeCompare placeholders)
                 (Map_keys placeholders)) by apply sortBy_Permutation.
  assert (Hs : StronglySorted
                 (fun a b => getPlaceholderOrder a <= getPlaceholderOrder b)
                 (placeholderKeys localeCompare placeholders)).
  { apply sortBy_ranked; intros a b; apply compareKeys_order. }
  repeat split; auto.
  intros first k Hf Hk.
  apply (Permutation_in _ (Permutation_sym Hp)) in Hk.
  destruct (placeholderKeys localeCompare placeholders) as [|x l];
    [discriminate|].
  injection Hf as ->; inversion Hs as [|? ? _ Hall]; subst.
  destruct Hk as [<- | Hk]; [lia|].
  rewrite Forall_forall in Hall; auto.
Qed.

Lemma placeholderKeys_order_witness :
  getPlaceholderOrder "Company Name" <= getPlaceholderOrder "Company Address".
Proof.
  apply (proj2 (proj2 (placeholderKeys_order (fun _ _ => 0)
                         [ ("Company Address" : jsstring,
                            mkInfo "Company Address" "Address:" [] square
                              (Some company) (Some 8));
                           ("Company Name" : jsstring,
                            mkInfo "Company Name" "[Company Name]" [] square
                              None None) ]))
           "Company Name" "Company Address").
  - reflexivity.
  - now left.
Defined.

(** The order numbers of the keys the scan makes, in tenths. *)
Example getPlaceholderOrder_catalog_keys :
  map getPlaceholderOrder
    [ "Company Name" : jsstring; "Investor Name" : jsstring;
      "Purchase Amount" : jsstring; "Post-Money Valuation Cap" : jsstring;
      "Company Name Field" : jsstring; "Company Title" : jsstring;
      "Company Address" : jsstring; "Company Email" : jsstring;
      "Investor Title" : jsstring; "Investor Address" : jsstring;
      "Investor Email" : jsstring; "Other" : jsstring ]
  = [10; 20; 30; 60; 81; 82; 83; 84; 92; 93; 94; 9990].
Proof. vm_compute; reflexivity. Qed.

(** ** The entries of a catalog *)

Lemma includes_skipn (j : nat) (s sub : jsstring) :
  startsWith (skipn j s) sub = true -> includes s sub = true.
Proof.
  revert s; induction j as [|j IH]; intros s H.
  - destruct s; cbn [skipn] in H; [now rewrite includes_nil; destruct sub|].
    rewrite includes_cons, H; reflexivity.
  - destruct s as [|c s]; cbn [skipn] in H.
    + rewrite includes_nil; now destruct sub.
    + rewrite includes_cons, (IH s H); apply orb_true_r.
Qed.

Lemma includes_decompose (s x : jsstring) :
  includes s x = true -> exists a c, s = a ++ x ++ c.
Proof.
  induction s as [|y s IH].
  - rewrite includes_nil; intros H; apply isEmpty_nil in H; subst.
    now exists [], [].
  - rewrite includes_cons, orb_true_iff; intros [H | H].
    + exists [], (skipn (length x) (y :: s)); now apply startsWith_decompose.
    + destruct (IH H) as [a [c ->]]; now exists (y :: a), c.
Qed.

Lemma includes_middle (a x c : jsstring) : includes (a ++ x ++ c) x = true.
Proof. apply includes_app_r, includes_prefix. Qed.

Lemma includes_trans (s x y : jsstring) :
  includes s x = true -> includes x y = true -> includes s y = true.
Proof.
  intros H1 H2.
  destruct (includes_decompose _ _ H1) as [a [c ->]].
  destruct (includes_decompose _ _ H2) as [a' [c' ->]].
  replace (a ++ (a' ++ y ++ c') ++ c) with ((a ++ a') ++ y ++ (c' ++ c))
    by now rewrite <- !app_assoc.
  apply includes_middle.
Qed.

Lemma dropWhile_suffix (f : ascii -> bool) (s : jsstring) :
  exists pre, s = pre ++ dropWhile f s.
Proof.
  induction s as [|c s [pre IH]]; [now exists []|].
  cbn [dropWhile]; destruct (f c); [|now exists []].
  exists (c :: pre); cbn [app]; now f_equal.
Qed.

Lemma includes_trim (s : jsstring) : includes s (trim s) = true.
Proof.
  unfold trim, trimStart.
  destruct (dropWhile_suffix isWhiteSpace s) as [pre Hs].
  destruct (dropWhile_suffix isWhiteSpace (rev (dropWhile isWhiteSpace s)))
    as [post Hr].
  apply (f_equal (@rev ascii)) in Hr.
  rewrite rev_involutive, rev_app_distr in Hr.
  rewrite Hs at 1; rewrite Hr at 1.
  apply includes_middle.
Qed.

Lemma takeWhile_skipn (f : ascii -> bool) (s : jsstring) :
  s = takeWhile f s ++ skipn (length (takeWhile f s)) s.
Proof.
  induction s as [|c s IH]; [reflexivity|].
  cbn [takeWhile]; destruct (f c); [|reflexivity].
  cbn [length skipn app]; now f_equal.
Qed.

Lemma delimited_prefix op inBody cl prev (s m g : jsstring) :
  delimited op inBody cl prev s = Some (m, g) -> startsWith s m = true.
Proof.
  unfold delimited.
  destruct (startsWith s op) eqn:Eo; [|discriminate].
  destruct (negb _ && startsWith _ cl) eqn:Ec; [|discriminate].
  apply andb_true_iff in Ec; destruct Ec as [_ Ec].
  intros H; injection H as <- _.
  rewrite (startsWith_decompose _ _ Eo) at 1.
  set (rest := skipn (length op) s) in *.
  rewrite (takeWhile_skipn inBody rest) at 1.
  rewrite (startsWith_decompose _ _ Ec) at 1.
  rewrite !app_assoc; apply startsWith_app.
Qed.

Lemma startsWith_firstn (n : nat) (s : jsstring) :
  startsWith s (firstn n s) = true.
Proof.
  revert s; induction n as [|n IH]; intros [|c s]; cbn; auto.
  now rewrite Ascii.eqb_refl, IH.
Qed.

Lemma ciLiteralToLineEnd_prefix guard p prev (s m g : jsstring) :
  ciLiteralToLineEnd guard p prev s = Some (m, g) -> startsWith s m = true.
Proof.
  unfold ciLiteralToLineEnd.
  destruct (guard prev s && ciStartsWith s p); [|discriminate].
  destruct (spacesToLineEnd _); [|discriminate].
  intros H; injection H as <- _; apply startsWith_firstn.
Qed.

Lemma execAll_occurs (re : Matcher) (text : jsstring) :
  (forall prev s m g, re prev s = Some (m, g) -> startsWith s m = true) ->
  Forall (fun m => includes text (matched m) = true) (execAll re text).
Proof.
  intros Hre; eapply Forall_impl; [|apply execAllFrom_places].
  intros m [_ [prev' H]]; apply Hre in H.
  now apply includes_skipn in H.
Qed.

Lemma patterns_occur text p :
  In p patterns ->
  Forall (fun m => includes text (matched m) = true) (execAll (fst p) text).
Proof.
  intros Hp; apply execAll_occurs; intros prev s m g.
  simpl in Hp; destruct Hp as [<- | [<- | [<- | [<- | []]]]];
    apply delimited_prefix.
Qed.

Lemma labelFields_occur text lf :
  In lf labelFields ->
  Forall (fun m => includes text (trim (matched m)) = true)
    (execAll (fst lf) text).
Proof.
  intros Hlf; eapply Forall_impl; [|apply execAll_occurs].
  - intros m H; exact (includes_trans _ _ _ H (includes_trim _)).
  - rewrite (labelFields_pattern lf Hlf); intros prev s m g.
    apply ciLiteralToLineEnd_prefix.
Qed.

Lemma currencyPass_wellFormed text :
  Forall (wellFormed text) (c_placeholders (currencyPass text)).
Proof.
  unfold currencyPass.
  assert (H0 : Forall (wellFormed text)
                 (c_placeholders (mkCurrencyState [] [] []))) by constructor.
  assert (Hb : Forall (fun b => includes text (matched (fst b)) = true)
                 (currencyBlanks text)).
  { unfold currencyBlanks; apply Forall_map; cbn [fst].
    apply execAll_occurs; intros prev s m g; apply delimited_prefix. }
  revert H0; generalize (mkCurrencyState [] [] []) as st.
  induction Hb as [|[m ctx] bs Hm Hbs IH]; cbn [fold_left]; auto.
  intros st Hst; apply IH; cbn [fst] in Hm.
  destruct (processCurrencyBlank_cases st m ctx) as [-> | [k [Hk ->]]]; auto.
  apply Forall_In_Map_set; auto.
  repeat split; auto; left; repeat split; auto.
Qed.

Lemma literalPass_invariant_In (text : jsstring) (P : LiteralState -> Prop) :
  (forall p st m, In p patterns -> In m (execAll (fst p) text) ->
                  P st -> P (processLiteralMatch text (snd p) st m)) ->
  forall placeholders, P (placeholders, []) -> P (literalPass text placeholders).
Proof.
  intros Hstep placeholders; unfold literalPass.
  assert (Hin : forall p, In p patterns -> In p patterns) by auto.
  revert Hin; generalize ((placeholders, []) : LiteralState) as st.
  generalize patterns at 1 3 as ps.
  induction ps as [|p ps IH]; intros st Hin Hst; cbn [fold_left]; auto.
  apply IH; [intros; apply Hin; now right|].
  assert (Hm : forall m, In m (execAll (fst p) text) ->
                 In m (execAll (fst p) text)) by auto.
  revert st Hst Hm.
  generalize (execAll (fst p) text) at 1 3 as ms.
  induction ms as [|m ms IHm]; intros st Hst Hm; cbn [fold_left]; auto.
  apply IHm; [|intros; apply Hm; now right].
  apply Hstep; auto; [apply Hin | apply Hm]; now left.
Qed.

Lemma literalPass_wellFormed text placeholders :
  Forall (wellFormed text) placeholders ->
  Forall (wellFormed text) (fst (literalPass text placeholders)).
Proof.
  intros H0.
  apply (literalPass_invariant_In text
           (fun st => Forall (wellFormed text) (fst st))); auto.
  intros p [pl seen] m Hp Hm Hst; cbn [fst] in Hst.
  destruct (processLiteralMatch_cases text (snd p) pl seen m)
    as [seen' [-> | [nk [-> _]]]]; auto.
  cbn [fst]; apply Forall_In_Map_set; auto.
  pose proof (patterns_occur text p Hp) as Ho.
  rewrite Forall_forall in Ho.
  repeat split; auto; [now apply Ho|].
  right; left; repeat split; auto; cbn [snd type]; now apply in_map.
Qed.

Lemma labelPass_invariant_In (text : jsstring)
    (P : JsMap PlaceholderInfo -> Prop) :
  (forall lf m pl, In lf labelFields -> In m (execAll (fst lf) text) ->
     P pl -> P (processLabelMatch (signatureMatches text) (snd lf) pl m)) ->
  forall placeholders, P placeholders -> P (labelPass text placeholders).
Proof.
  intros Hstep placeholders; unfold labelPass.
  assert (Hin : forall lf, In lf labelFields -> In lf labelFields) by auto.
  revert placeholders Hin.
  generalize labelFields at 1 3 as lfs.
  induction lfs as [|lf lfs IH]; intros pl Hin Hpl; cbn [fold_left]; auto.
  apply IH; [intros; apply Hin; now right|].
  assert (Hm : forall m, In m (execAll (fst lf) text) ->
                 In m (execAll (fst lf) text)) by auto.
  revert pl Hpl Hm.
  generalize (execAll (fst lf) text) at 1 3 as ms.
  induction ms as [|m ms IHm]; intros pl Hpl Hm; cbn [fold_left]; auto.
  apply IHm; [|intros; apply Hm; now right].
  apply Hstep; auto; [apply Hin | apply Hm]; now left.
Qed.

Lemma labelPass_wellFormed text placeholders :
  Forall (wellFormed text) placeholders ->
  Forall (wellFormed text) (labelPass text placeholders).
Proof.
  apply labelPass_invariant_In.
  intros lf m pl Hlf Hm Hpl; unfold processLabelMatch.
  destruct (resolveContext (signatureMatches text) (index m)) as [p|] eqn:Er;
    auto.
  assert (Hnew : Forall (wellFormed text)
                   (Map_set pl (uniqueKey p (snd lf))
                      (mkInfo (uniqueKey p (snd lf)) (trim (matched m)) []
                         square (Some p) (Some (index m))))).
  { apply Forall_In_Map_set; auto.
    pose proof (labelFields_occur text lf Hlf) as Ho.
    pose proof (labelFields_places text lf Hlf) as Hp.
    rewrite Forall_forall in Ho, Hp.
    destruct (Hp m Hm) as [Hz Hat].
    repeat split; auto; [now apply Ho|].
    right; right; repeat split; auto.
    exists p, (snd lf), (index m); repeat split; auto.
    now apply in_map. }
  destruct (Map_get pl _); auto.
  destruct (negb _); auto.
Qed.

Lemma extractPlaceholders_wellFormed text :
  Forall (wellFormed text) (extractPlaceholders text).
Proof.
  apply labelPass_wellFormed, literalPass_wellFormed, currencyPass_wellFormed.
Qed.

Lemma currencyPass_NoDup text :
  NoDup (Map_keys (c_placeholders (currencyPass text))).
Proof.
  unfold currencyPass.
  assert (H0 : NoDup (Map_keys (c_placeholders (mkCurrencyState [] [] []))))
    by constructor.
  revert H0; generalize (mkCurrencyState [] [] []) as st.
  induction (currencyBlanks text) as [|[m ctx] bs IH]; cbn [fold_left]; auto.
  intros st Hst; apply IH.
  destruct (processCurrencyBlank_cases st m ctx) as [-> | [k [_ ->]]];
    auto using Map_set_NoDup.
Qed.

Lemma extractPlaceholders_NoDup text :
  NoDup (Map_keys (extractPlaceholders text)).
Proof.
  unfold extractPlaceholders.
  apply (labelPass_invariant_In text (fun pl => NoDup (Map_keys pl))).
  { intros; now apply processLabelMatch_NoDup. }
  apply (literalPass_invariant text (fun st => NoDup (Map_keys (fst st)))).
  - intros ty [pl seen] m Hst; cbn [fst] in Hst.
    destruct (processLiteralMatch_cases text ty pl seen m)
      as [seen' [-> | [nk [-> _]]]]; cbn [fst]; auto using Map_set_NoDup.
  - apply currencyPass_NoDup.
Qed.

(** X9: every entry of the catalog of a text carries its key of the map in
    its [key] field, and its [originalFormat] is written in the text. *)
Theorem catalog_formats_occur :
  forall text : jsstring,
    Forall (fun e => key (snd e) = fst e
                     /\ includes text (originalFormat (snd e)) = true)
      (extractPlaceholders text).
Proof.
  intros text; eapply Forall_impl; [|apply extractPlaceholders_wellFormed].
  intros e (Hk & Ho & _); auto.
Qed.

Lemma NoDup_keys_filter {V} (f : jsstring * V -> bool) (m : JsMap V) :
  NoDup (Map_keys m) -> NoDup (Map_keys (filter f m)).
Proof.
  unfold Map_keys; induction m as [|e m IH]; cbn [filter map]; auto.
  intros H; inversion H as [|? ? Hnot Hnd]; subst.
  destruct (f e); cbn [map]; auto.
  constructor; auto.
  intros Hin; apply Hnot.
  apply in_map_iff in Hin; destruct Hin as [x [Hx Hin]].
  apply filter_In in Hin; apply in_map_iff; exists x; tauto.
Qed.

(** X10: the entries of currency-blank kind of a catalog have the prefix
    [$] and the key [Purchase Amount] or [Post-Money Valuation Cap], so a
    catalog holds at most two of them, however many blanks the text has;
    every other entry has an empty prefix. *)
Theorem catalog_currency_entries :
  forall text : jsstring,
    Forall (fun e =>
              if isCurrencyBlank (type (snd e))
              then prefix (snd e) = ("$" : jsstring)
                   /\ (fst e = purchaseAmountKey \/ fst e = valuationCapKey)
              else prefix (snd e) = [])
      (extractPlaceholders text)
    /\ (length (filter (fun e => isCurrencyBlank (type (snd e)))
                  (extractPlaceholders text)) <= 2)%nat.
Proof.
  intros text.
  assert (H : Forall (fun e =>
                if isCurrencyBlank (type (snd e))
                then prefix (snd e) = ("$" : jsstring)
                     /\ (fst e = purchaseAmountKey \/ fst e = valuationCapKey)
                else prefix (snd e) = [])
                (extractPlaceholders text)).
  { eapply Forall_impl; [|apply extractPlaceholders_wellFormed].
    intros e (_ & _ & [Hc | [Ht | Hl]]).
    - destruct Hc as (-> & Hp & _ & _ & Hk); cbn [isCurrencyBlank]; auto.
    - destruct Ht as (Hty & Hp & _).
      simpl in Hty; destruct Hty as [<- | [<- | [<- | [<- | []]]]]; auto.
    - destruct Hl as (-> & Hp & _); auto. }
  split; auto.
  set (cur := filter (fun e => isCurrencyBlank (type (snd e)))
                (extractPlaceholders text)).
  rewrite <- (length_map fst cur).
  change 2%nat with (length [purchaseAmountKey; valuationCapKey]).
  apply NoDup_incl_length.
  - apply (NoDup_keys_filter _ _ (extractPlaceholders_NoDup text)).
  - intros k Hk; apply in_map_iff in Hk; destruct Hk as [e [<- He]].
    apply filter_In in He; destruct He as [He Hc].
    rewrite Forall_forall in H; specialize (H e He); rewrite Hc in H.
    destruct H as [_ [-> | ->]]; [now left | right; now left].
Qed.

(** X11: an entry of the catalog records a party exactly when it records a
    position, and it is then an entry of a label: of square kind, under the
    key made of the party and the label, with the label written, in any
    case, at the recorded position of the text, and with the party that
    [resolveContext] gives for that position. *)
Theorem catalog_label_entries :
  forall text : jsstring,
    Forall (fun e =>
              match context (snd e), position (snd e) with
              | Some p, Some z =>
                  0 <= z /\ type (snd e) = square
                  /\ exists label,
                       In label labelNames /\ fst e = uniqueKey p label
                       /\ labelAt text label z = true
                       /\ resolveContext (signatureMatches text) z = Some p
              | None, None => True
              | _, _ => False
              end)
      (extractPlaceholders text).
Proof.
  intros text; eapply Forall_impl; [|apply extractPlaceholders_wellFormed].
  intros e (_ & _ & [Hc | [Ht | Hl]]).
  - destruct Hc as (_ & _ & -> & -> & _); exact I.
  - destruct Ht as (_ & _ & -> & ->); exact I.
  - destruct Hl as (Hty & _ & p & label & z & Hl & Hk & -> & -> & Hz & Hat & Hr).
    repeat split; auto; exists label; auto.
Qed.

(** ** Texts without placeholders *)

Lemma delimited_shape op inBody cl prev (s m g : jsstring) :
  delimited op inBody cl prev s = Some (m, g) -> m = op ++ g ++ cl.
Proof.
  unfold delimited.
  destruct (startsWith s op); [|discriminate].
  destruct (negb _ && _); [|discriminate].
  now intros H; injection H as <- <-.
Qed.

Lemma includes_In (s x : jsstring) (c : ascii) :
  includes s x = true -> In c x -> In c s.
Proof.
  intros H Hc; destruct (includes_decompose _ _ H) as [a [b ->]].
  apply in_or_app; right; apply in_or_app; now left.
Qed.

Lemma currencyBlanks_need_bracket (text : jsstring) :
  lacks "[" text = true -> currencyBlanks text = [].
Proof.
  intros Ht; unfold currencyBlanks.
  assert (Ho : Forall (fun m => includes text (matched m) = true)
                 (execAll currencyRegex text))
    by (apply execAll_occurs; intros prev s m g; apply delimited_prefix).
  assert (Hs : Forall (fun m => In "["%char (matched m))
                 (execAll currencyRegex text)).
  { apply execAllFrom_Forall; intros prev s m g i H.
    apply delimited_shape in H; subst m; cbn; auto. }
  destruct (execAll currencyRegex text) as [|m ms]; [reflexivity|].
  inversion Ho; inversion Hs; subst.
  exfalso; apply (lacks_not_In _ _ Ht).
  eapply includes_In; eauto.
Qed.

Lemma extractPlaceholders_without_syntax (text : jsstring) :
  lacks "[" text = true -> lacks "{" text = true ->
  lacks "<" text = true -> lacks ":" text = true ->
  extractPlaceholders text = [].
Proof.
  intros Hs Hc Ha Hl; unfold extractPlaceholders.
  rewrite labelPass_no_colon by exact Hl.
  unfold currencyPass; rewrite currencyBlanks_need_bracket by exact Hs.
  unfold literalPass, patterns; cbn [fold_left fst snd].
  now rewrite doubleCurlyRegex_lacks, angleRegex_lacks, squareRegex_lacks,
    curlyRegex_lacks.
Qed.

(** X12: a text with no square bracket, no brace, no [<] and no colon has an
    empty catalog.  [processFile] passes a document on, by
    [onDocumentParsed], only when the name of the file ends in [.docx], the
    text could be read and its catalog is not empty, and what it passes on
    is the text with that catalog; so it never passes such a text on. *)
Theorem processFile_passes_on :
  forall (fileName : jsstring) (rawText : option jsstring),
    (forall text, rawText = Some text ->
       lacks "[" text = true -> lacks "{" text = true ->
       lacks "<" text = true -> lacks ":" text = true ->
       extractPlaceholders text = []
       /\ exists message, processFile fileName rawText = alerted message)
    /\ (forall content placeholders,
          processFile fileName rawText = documentParsed content placeholders ->
          endsWith fileName ".docx" = true
          /\ rawText = Some content
          /\ placeholders = extractPlaceholders content
          /\ placeholders <> []).
Proof.
  intros fileName rawText; split.
  - intros text -> Hs Hc Ha Hl.
    pose proof (extractPlaceholders_without_syntax text Hs Hc Ha Hl) as He.
    split; auto; unfold processFile; rewrite He.
    destruct (negb _); eexists; reflexivity.
  - intros content placeholders; unfold processFile.
    destruct (endsWith fileName ".docx"); cbn [negb]; [|discriminate].
    destruct rawText as [text|]; [|discriminate].
    destruct (extractPlaceholders text) as [|e l] eqn:E;
      [discriminate|].
    cbn [length]; rewrite Nat2Z.inj_succ.
    destruct (Z.succ _ =? 0) eqn:Z0; [apply Z.eqb_eq in Z0; lia|].
    intros H; injection H as <- <-; repeat split; auto; discriminate.
Qed.

Lemma processFile_passes_on_witness :
  extractPlaceholders "Dear Sir, yours truly" = []
  /\ exists message,
       processFile "letter.docx" (Some ("Dear Sir, yours truly" : jsstring))
       = alerted message.
Proof.
  apply (proj1 (processFile_passes_on "letter.docx"
                  (Some ("Dear Sir, yours truly" : jsstring)))
           "Dear Sir, yours truly" eq_refl); reflexivity.
Defined.

(** ** The party of a label *)

Lemma lastSignature_In p sigs s :
  lastSignature p sigs = Some s -> In s sigs /\ sig_type s = p.
Proof.
  unfold lastSignature.
  assert (L : forall l : list SignatureMatch,
            last (map Some l) None = Some s -> In s l).
  { induction l as [|x l IH]; [discriminate|].
    destruct l as [|y l]; cbn [map last] in *.
    - intros H; injection H as <-; now left.
    - intros H; right; apply IH; exact H. }
  intros H; apply L, filter_In in H; destruct H as [Hin Hp]; split; auto.
  unfold isParty in Hp; destruct (sig_type s), p; auto; discriminate.
Qed.

(** X13: the party [resolveContext] gives to a label is the party of a
    marker of the text, and that marker does not lie 3000 code units or
    more after the label: a party without a marker is never chosen. *)
Theorem resolveContext_party_has_marker :
  forall (sigs : list SignatureMatch) (labelIndex : Z) (p : Party),
    resolveContext sigs labelIndex = Some p ->
    exists s, In s sigs /\ sig_type s = p
              /\ sig_index s - 3000 < labelIndex.
Proof.
  intros sigs labelIndex p; unfold resolveContext.
  destruct (nearbyContext sigs labelIndex) as [q|] eqn:En.
  - intros H; injection H as ->; revert En; unfold nearbyContext.
    set (nearby := filter (fun s => Z.abs (sig_index s - labelIndex) <? 3000)
                     sigs).
    assert (Hn : forall s, In s nearby ->
                   In s sigs /\ sig_index s - 3000 < labelIndex).
    { intros s Hs; apply filter_In in Hs; destruct Hs as [Hs Hd].
      apply Z.ltb_lt in Hd; split; auto; lia. }
    destruct nearby as [|n ns] eqn:E; [discriminate|].
    set (before := filter (fun s => sig_index s <? labelIndex) (n :: ns)).
    assert (Hb : forall s, In s before -> In s (n :: ns))
      by (intros s Hs; now apply filter_In in Hs).
    destruct before as [|b bs] eqn:Eb.
    + destruct (closestSignature_spec labelIndex n ns) as [Hr _].
      destruct (labelIndex <? _); [|discriminate].
      intros H; injection H as <-.
      destruct (Hn _ Hr); eauto.
    + destruct (closestSignature_spec labelIndex b bs) as [Hr _].
      intros H; injection H as <-.
      destruct (Hn _ (Hb _ Hr)); eauto.
  - unfold fallbackContext; cbv beta zeta.
    destruct (lastSignature company sigs) as [c|] eqn:Ec;
      destruct (lastSignature investor sigs) as [i|] eqn:Ei;
      try discriminate;
      try (apply lastSignature_In in Ec; destruct Ec as [Hc1 Hc2]);
      try (apply lastSignature_In in Ei; destruct Ei as [Hi1 Hi2]).
    + destruct (labelIndex >? sig_index i) eqn:E1.
      { intros H; injection H as <-; exists i; repeat split; auto; lia. }
      destruct ((labelIndex >? sig_index c) && _) eqn:E2.
      { intros H; injection H as <-; exists c; repeat split; auto.
        apply andb_true_iff in E2; lia. }
      destruct ((labelIndex >? sig_index c - 500) && _) eqn:E3;
        intros H; [|discriminate H].
      injection H as <-; exists c; repeat split; auto.
      apply andb_true_iff in E3; lia.
    + destruct ((labelIndex >? sig_index c - 500) && _) eqn:E3;
        intros H; [|discriminate H].
      injection H as <-; exists c; repeat split; auto.
      apply andb_true_iff in E3; lia.
    + destruct ((labelIndex >? sig_index i - 500) && _) eqn:E3;
        intros H; [|discriminate H].
      injection H as <-; exists i; repeat split; auto.
      apply andb_true_iff in E3; lia.
Qed.

Lemma resolveContext_party_has_marker_witness :
  exists s, In s (signatureMatches signaturePage) /\ sig_type s = investor
            /\ sig_index s - 3000 < 26.
Proof.
  apply (resolveContext_party_has_marker (signatureMatches signaturePage) 26
           investor).
  reflexivity.
Defined.

(** ** The conversation *)

Lemma Map_get_In {V} (m : JsMap V) (k : jsstring) (v : V) :
  Map_get m k = Some v -> In (k, v) m.
Proof.
  induction m as [|[k' v'] m IH]; simpl; [discriminate|].
  destruct (jsstring_eqb k' k) eqn:E.
  - apply jsstring_eqb_eq in E; subst; intros H; injection H as ->; now left.
  - intros H; right; auto.
Qed.

Lemma Map_has_keys {V} (m : JsMap V) (k : jsstring) :
  In k (Map_keys m) -> Map_has m k = true.
Proof.
  unfold Map_has; destruct (Map_get m k) eqn:G; auto.
  intros H; now apply Map_get_None_keys in G.
Qed.

Section ConversationFacts.

Variable localeCompare : jsstring -> jsstring -> Z.
Variable placeholders : JsMap PlaceholderInfo.

(** What every state of the conversation keeps. *)
Lemma filled_set (filled : JsMap PlaceholderData) k placeholder v :
  NoDup (Map_keys filled) /\ describedBy placeholders filled ->
  Map_get placeholders k = Some placeholder ->
  NoDup (Map_keys (Map_set filled k (mkData placeholder v)))
  /\ describedBy placeholders (Map_set filled k (mkData placeholder v)).
Proof.
  intros [Hnd Hd] Hk; split; [now apply Map_set_NoDup|].
  intros e He; destruct (Map_set_In _ _ _ _ He) as [-> | H]; auto.
  cbn [fst snd info]; now apply Map_get_In.
Qed.

Lemma handleSubmit_filled st reply prompt :
  NoDup (Map_keys (filledPlaceholders st))
  /\ describedBy placeholders (filledPlaceholders st) ->
  let st' := fst (handleSubmit localeCompare placeholders st reply prompt) in
  NoDup (Map_keys (filledPlaceholders st'))
  /\ describedBy placeholders (filledPlaceholders st').
Proof.
  intros H; unfold handleSubmit.
  destruct (currentPlaceholderKey st) as [[|c k]|]; auto.
  destruct (isEmpty _ || _); auto.
  destruct (Map_get placeholders (c :: k)) as [placeholder|] eqn:G; auto.
  destruct reply as [extractedValue aiResponse].
  pose proof (filled_set _ _ _ extractedValue H G) as H'.
  destruct (nextPlaceholderKey _ _ _ _ _) as [[|n next]|];
    try destruct (Map_get placeholders (n :: next));
    try destruct (_ >? 0); exact H'.
Qed.

Lemma handleSkip_filled st prompt :
  filledPlaceholders (fst (handleSkip localeCompare placeholders st prompt))
  = filledPlaceholders st.
Proof.
  unfold handleSkip.
  destruct (currentPlaceholderKey st) as [[|c k]|]; auto.
  destruct (isAIThinking st); auto.
  destruct (nextPlaceholderKey _ _ _ _ _) as [[|n next]|];
    try destruct (Map_get placeholders (n :: next));
    try destruct (_ >? 0); reflexivity.
Qed.

Lemma initialize_filled st prompt :
  filledPlaceholders (initialize localeCompare placeholders st prompt)
  = filledPlaceholders st.
Proof.
  unfold initialize.
  destruct (_ && _); auto.
  destruct (find _ _) as [[|c k]|]; auto.
  destruct (Map_get placeholders (c :: k)); reflexivity.
Qed.

Lemma reachable_filled st :
  reachable localeCompare placeholders st ->
  NoDup (Map_keys (filledPlaceholders st))
  /\ describedBy placeholders (filledPlaceholders st).
Proof.
  induction 1 as [|st prompt _ IH | st v _ IH | st reply prompt _ IH
                  | st prompt _ IH | st k prompt st' _ IH Hf].
  - split; [constructor | intros e []].
  - now rewrite initialize_filled.
  - exact IH.
  - now apply handleSubmit_filled.
  - now rewrite handleSkip_filled.
  - unfold handleFillSpecific in Hf.
    destruct (Map_get placeholders k); [|discriminate].
    injection Hf as <-; exact IH.
Qed.

Lemma filled_complete (filled : JsMap PlaceholderData) :
  NoDup (Map_keys filled) -> describedBy placeholders filled ->
  Z.of_nat (length (keys localeCompare placeholders)) - size filled <= 0 ->
  forall k, In k (Map_keys placeholders) -> Map_has filled k = true.
Proof.
  intros Hnd Hd Hlen k Hk; apply Map_has_keys.
  assert (Hincl : incl (Map_keys filled) (Map_keys placeholders)).
  { intros x Hx; apply in_map_iff in Hx; destruct Hx as [e [<- He]].
    apply in_map_iff; exists (fst e, info (snd e)); split; auto. }
  apply (@NoDup_length_incl _ (Map_keys filled) (Map_keys placeholders) Hnd);
    auto.
  unfold keys, placeholderKeys, size in Hlen.
  rewrite (Permutation_length (sortBy_Permutation _ _)) in Hlen.
  unfold Map_keys in *; rewrite !length_map in *; lia.
Qed.

End ConversationFacts.

(** X14: in every state the conversation reaches, each entry of
    [filledPlaceholders] stands under a key of the catalog and carries the
    descriptor the catalog has for that key, and no key stands twice.
    (Each handler taken from its call to its end.) *)
Theorem conversation_fills_from_catalog :
  forall (localeCompare : jsstring -> jsstring -> Z)
         (placeholders : JsMap PlaceholderInfo) (st : ProcessorState),
    reachable localeCompare placeholders st ->
    NoDup (Map_keys (filledPlaceholders st))
    /\ describedBy placeholders (filledPlaceholders st).
Proof. intros localeCompare placeholders st H; exact (reachable_filled _ _ _ H). Qed.

(** X15: [handleSubmit] and [handleSkip] schedule
    [generateCompletedDocument] only when every key of the catalog has a
    value, and with the map of these values, the one the state then holds;
    no question is open then.  A key that was skipped and has no value
    keeps them from it. *)
Theorem document_generated_when_complete :
  forall (localeCompare : jsstring -> jsstring -> Z)
         (placeholders : JsMap PlaceholderInfo) (st : ProcessorState),
    reachable localeCompare placeholders st ->
    (forall reply prompt st' doc,
        handleSubmit localeCompare placeholders st reply prompt
        = (st', Some doc) ->
        doc = filledPlaceholders st'
        /\ currentPlaceholderKey st' = None
        /\ forall k, In k (Map_keys placeholders) -> Map_has doc k = true)
    /\ (forall prompt st' doc,
           handleSkip localeCompare placeholders st prompt = (st', Some doc) ->
           doc = filledPlaceholders st'
           /\ currentPlaceholderKey st' = None
           /\ forall k, In k (Map_keys placeholders) -> Map_has doc k = true).
Proof.
  intros localeCompare placeholders st Hr.
  pose proof (reachable_filled _ _ _ Hr) as Hinv; split.
  - intros reply prompt st' doc; unfold handleSubmit.
    destruct (currentPlaceholderKey st) as [[|c k]|]; try discriminate.
    destruct (isEmpty _ || _); try discriminate.
    destruct (Map_get placeholders (c :: k)) as [placeholder|] eqn:G;
      try discriminate.
    destruct reply as [extractedValue aiResponse].
    destruct (filled_set placeholders _ _ _ extractedValue Hinv G) as [Hnd Hd].
    destruct (nextPlaceholderKey _ _ _ _ _) as [[|n next]|];
      try (destruct (Map_get placeholders (n :: next)); discriminate);
      (destruct (_ >? 0) eqn:E; [discriminate|]);
      intros H; injection H as <- <-; cbn [filledPlaceholders currentPlaceholderKey];
      repeat split; auto;
      apply (filled_complete localeCompare); auto; rewrite Z.gtb_ltb in E; apply Z.ltb_ge in E; lia.
  - intros prompt st' doc; unfold handleSkip.
    destruct (currentPlaceholderKey st) as [[|c k]|]; try discriminate.
    destruct (isAIThinking st); try discriminate.
    destruct Hinv as [Hnd Hd].
    destruct (nextPlaceholderKey _ _ _ _ _) as [[|n next]|];
      try (destruct (Map_get placeholders (n :: next)); discriminate);
      (destruct (_ >? 0) eqn:E; [discriminate|]);
      intros H; injection H as <- <-; cbn [filledPlaceholders currentPlaceholderKey];
      repeat split; auto;
      apply (filled_complete localeCompare); auto; rewrite Z.gtb_ltb in E; apply Z.ltb_ge in E; lia.
Qed.

Lemma askedState_reachable : reachable byOrderOnly oneQuestion askedState.
Proof.
  exact (reach_input byOrderOnly oneQuestion _ "Acme"
           (reach_initialize byOrderOnly oneQuestion _
              "What is the Company Name?"
              (reach_initial byOrderOnly oneQuestion))).
Defined.

Lemma conversation_fills_from_catalog_witness :
  NoDup (Map_keys (filledPlaceholders answeredState))
  /\ describedBy oneQuestion (filledPlaceholders answeredState).
Proof.
  apply (conversation_fills_from_catalog byOrderOnly oneQuestion answeredState).
  exact (reach_submit byOrderOnly oneQuestion askedState
           ("Acme" : jsstring, None) [] askedState_reachable).
Defined.

Lemma document_generated_when_complete_witness :
  [literalEntry "Company Name" "[Company Name]" "Acme"]
  = filledPlaceholders answeredState
  /\ currentPlaceholderKey answeredState = None
  /\ forall k, In k (Map_keys oneQuestion) ->
       Map_has [literalEntry "Company Name" "[Company Name]" "Acme"] k = true.
Proof.
  apply (proj1 (document_generated_when_complete byOrderOnly oneQuestion
                  askedState askedState_reachable)
           ("Acme" : jsstring, None) [] answeredState).
  reflexivity.
Defined.

(** X16: whatever the conversation over the catalog of a text, the label
    entries of the map it has filled record positions that differ from one
    another, and [handleDownload] takes them in strictly descending order of
    position. *)
Theorem conversation_labels_descend :
  forall (localeCompare : jsstring -> jsstring -> Z) (text : jsstring)
         (st : ProcessorState),
    reachable localeCompare (extractPlaceholders text) st ->
    NoDup (map entryPosition (labelFieldsOf (filledPlaceholders st)))
    /\ StronglySorted (fun a b => entryPosition a > entryPosition b)
         (sortedLabelFields (filledPlaceholders st)).
Proof.
  intros localeCompare text st Hr.
  destruct (reachable_filled _ _ _ Hr) as [Hnd Hd].
  assert (Hp : NoDup (map entryPosition
                        (labelFieldsOf (filledPlaceholders st))))
    by (eapply labelFieldsOf_positions;
        eauto using extractPlaceholders_positions).
  split; auto.
  apply descending_strict.
  - unfold sortedLabelFields; apply sortBy_descending; reflexivity.
  - eapply Permutation_NoDup; [|exact Hp].
    apply Permutation_map, Permutation_sym, sortBy_Permutation.
Qed.

Lemma answer_reachable localeCompare placeholders st v :
  reachable localeCompare placeholders st ->
  reachable localeCompare placeholders (answer localeCompare placeholders st v).
Proof.
  intros H; unfold answer; apply reach_submit, reach_input, H.
Defined.

Lemma conversation_labels_descend_witness :
  map entryPosition
    (sortedLabelFields (filledPlaceholders signatureConversation)) = [26; 8]
  /\ StronglySorted (fun a b => entryPosition a > entryPosition b)
       (sortedLabelFields (filledPlaceholders signatureConversation)).
Proof.
  split; [vm_compute; reflexivity|].
  apply (conversation_labels_descend byOrderOnly signaturePage
           signatureConversation).
  unfold signatureConversation.
  apply answer_reachable, answer_reachable, reach_initialize, reach_initial.
Defined.

(** ** Values written after labels *)

Lemma appendAfterLabel_writes (s L v : jsstring) (j : nat) :
  L <> [] -> startsWith (skipn j s) L = true ->
  writtenAfter L (" " ++ v) s (appendAfterLabel s L v (Z.of_nat j)).
Proof.
  intros HL Hs.
  pose proof (startsWith_length _ _ Hs) as Hlen; rewrite length_skipn in Hlen.
  assert (HLl : (0 < length L)%nat) by (destruct L; [congruence | simpl; lia]).
  exists (firstn j s), (skipn (length L + j) s); split.
  - rewrite <- (firstn_skipn j s) at 1; f_equal.
    rewrite (startsWith_decompose _ _ Hs) at 1; now rewrite skipn_skipn.
  - unfold appendAfterLabel.
    rewrite substring_from_start, substringFrom_skipn.
    replace (Z.to_nat (clamp s (Z.of_nat j))) with j
      by (unfold clamp, len; lia).
    replace (Z.to_nat (clamp s (Z.of_nat j + len L))) with (length L + j)%nat
      by (unfold clamp, len; lia).
    now rewrite <- !app_assoc.
Qed.

Lemma indexOfFrom_includes (L : jsstring) :
  forall s i, 0 <= i -> includes s L = true -> 0 <= indexOfFrom i s L.
Proof.
  induction s as [|c s IH]; intros i Hi.
  - rewrite includes_nil; cbn [indexOfFrom]; destruct L; [|discriminate].
    intros _; cbn; lia.
  - rewrite includes_cons; cbn [indexOfFrom].
    destruct (startsWith (c :: s) L); [lia|]; cbn [orb].
    intros H; apply IH; auto; lia.
Qed.

Lemma replaceLabel_cases (s L v : jsstring) (i : PlaceholderInfo) :
  L <> [] ->
  (replaceLabel s L v i = s /\ includes s L = false)
  \/ (writtenAfter L (" " ++ v) s (replaceLabel s L v i)
      /\ includes s L = true).
Proof.
  intros HL.
  assert (Hocc : forall m, In m (execAll (literal L) s) ->
            writtenAfter L (" " ++ v) s (appendAfterLabel s L v (index m))
            /\ includes s L = true).
  { intros m Hm; destruct (execAll_literal_occurrence _ _ _ Hm) as [j [-> Hj]].
    split; [now apply appendAfterLabel_writes | now apply includes_skipn in Hj]. }
  assert (Hfirst :
            ((if indexOf s L >=? 0
              then appendAfterLabel s L v (indexOf s L) else s) = s
             /\ includes s L = false)
            \/ (writtenAfter L (" " ++ v) s
                  (if indexOf s L >=? 0
                   then appendAfterLabel s L v (indexOf s L) else s)
                /\ includes s L = true)).
  { destruct (indexOf s L >=? 0) eqn:E.
    - apply Z.geb_le in E; right.
      destruct (indexOfFrom_occurrence L s 0) as [j [Hj Hs]]; [lia | exact E |].
      unfold indexOf; rewrite Hj; split;
        [now apply appendAfterLabel_writes | now apply includes_skipn in Hs].
    - left; split; auto.
      destruct (includes s L) eqn:I; auto.
      apply (indexOfFrom_includes L s 0) in I; [|lia].
      unfold indexOf in E; rewrite Z.geb_leb in E; apply Z.leb_gt in E; lia. }
  unfold replaceLabel.
  destruct (context i) as [ctx|]; [|exact Hfirst].
  destruct (position i) as [pos|]; [|exact Hfirst].
  destruct (findMatchingLabel ctx pos [] _) as [labelIndex|] eqn:F.
  - apply findMatchingLabel_In in F; rewrite map_map in F; cbn [fst] in F.
    apply in_map_iff in F; destruct F as [m [<- Hm]]; right; now apply Hocc.
  - destruct (contextSearch s L ctx) as [labelIndex|] eqn:C; [|exact Hfirst].
    unfold contextSearch in C.
    match type of C with
    | option_map index (find ?f ?l) = _ => destruct (find f l) as [m|] eqn:Fd
    end; [|discriminate].
    injection C as <-; apply find_some in Fd; right; now apply Hocc.
Qed.

Example replaceLabel_picks_the_party :
  replaceLabel signaturePage "Address:" "2 Side St"
    (mkInfo "Investor Address" "Address:" [] square (Some investor) (Some 26))
  = "COMPANY" ++ lineFeed ++ "Address:" ++ lineFeed
      ++ "INVESTOR" ++ lineFeed ++ "Address: 2 Side St" ++ lineFeed.
Proof. vm_compute; reflexivity. Qed.

(** ** The reply shown after an answer *)

Section LeftmostMatch.

Variable re : Matcher.
Variable matchesAt : jsstring -> bool.
Hypothesis re_matchesAt : forall prev s, isSome (re prev s) = matchesAt s.
Hypothesis matchesAt_app :
  forall s y, matchesAt s = true -> matchesAt (s ++ y) = true.
Hypothesis matchesAt_nil : matchesAt [] = false.

Lemma testFrom_matchesAt (s : jsstring) :
  forall prev k, matchesAt (skipn k s) = true -> testFrom re prev s = true.
Proof.
  induction s as [|c s IH]; intros prev k H.
  - rewrite skipn_nil in H; congruence.
  - cbn [testFrom]; specialize (re_matchesAt prev (c :: s)).
    destruct (re prev (c :: s)); auto.
    destruct k as [|k]; cbn [skipn] in H; [cbn in re_matchesAt; congruence|].
    now apply (IH _ k).
Qed.

Lemma testFrom_false (s : jsstring) (prev : option ascii) (k : nat) :
  testFrom re prev s = false -> matchesAt (skipn k s) = false.
Proof.
  intros H; destruct (matchesAt (skipn k s)) eqn:E; auto.
  now rewrite (testFrom_matchesAt s prev k E) in H.
Qed.

Lemma execAllFrom_leftmost (s : jsstring) :
  forall i prev,
    match hd_error (execAllFrom re 0 i prev s) with
    | Some m =>
        exists j, index m = i + Z.of_nat j /\ (j < length s)%nat
                  /\ matchesAt (skipn j s) = true
                  /\ forall k, (k < j)%nat -> matchesAt (skipn k s) = false
    | None => forall k, matchesAt (skipn k s) = false
    end.
Proof.
  induction s as [|c s IH]; intros i prev.
  - cbn; intros k; now rewrite skipn_nil.
  - cbn [execAllFrom]; pose proof (re_matchesAt prev (c :: s)) as R.
    destruct (re prev (c :: s)) as [[m g]|].
    + cbn [hd_error]; exists 0%nat; cbn [index length skipn].
      repeat split; [lia | lia | now rewrite <- R | intros k Hk; lia].
    + cbn in R; specialize (IH (i + 1) (Some c)).
      destruct (hd_error (execAllFrom re 0 (i + 1) (Some c) s)) as [m|].
      * destruct IH as [j [Hi [Hj [Hm Hk]]]]; exists (S j); cbn [length].
        repeat split; [lia | lia | exact Hm |].
        intros [|k] Hlt; cbn [skipn]; [congruence | apply Hk; lia].
      * intros [|k]; cbn [skipn]; [congruence | apply IH].
Qed.

Lemma no_match_inside (s a t b : jsstring) :
  s = a ++ t ++ b ->
  (forall k, (k < length a + length t)%nat -> matchesAt (skipn k s) = false) ->
  forall prev, testFrom re prev t = false.
Proof.
  intros Hs Hno prev.
  destruct (testFrom re prev t) eqn:T; auto.
  assert (exists k, (k < length t)%nat /\ matchesAt (skipn k t) = true)
    as [k [Hk Hm]].
  { clear Hs Hno; revert prev T; induction t as [|c t' IH]; intros prev T.
    - cbn [testFrom] in T; pose proof (re_matchesAt prev []) as R.
      destruct (re prev []); [cbn in R; congruence | discriminate].
    - cbn [testFrom] in T; pose proof (re_matchesAt prev (c :: t')) as R.
      destruct (re prev (c :: t')).
      + exists 0%nat; cbn [skipn length]; split; [lia | now rewrite <- R].
      + destruct (IH _ T) as [k [Hk Hm]]; exists (S k); cbn [length skipn].
        split; [lia | exact Hm]. }
  specialize (Hno (length a + k)%nat ltac:(lia)).
  rewrite Hs, skipn_app, skipn_all2, app_nil_l in Hno by lia.
  replace (length a + k - length a)%nat with k in Hno by lia.
  rewrite skipn_app in Hno.
  now rewrite (matchesAt_app _ _ Hm) in Hno.
Qed.

End LeftmostMatch.

Lemma ciStartsWith_app (p s y : jsstring) :
  ciStartsWith s p = true -> ciStartsWith (s ++ y) p = true.
Proof.
  revert s; induction p as [|x p IH]; intros s; auto.
  destruct s as [|c s]; cbn [ciStartsWith app]; [discriminate|].
  rewrite !andb_true_iff; intros [-> H]; auto.
Qed.

Lemma nextHintRegex_prev (prev : option ascii) (s : jsstring) :
  isSome (nextHintRegex prev s) = isSome (nextHintRegex None s).
Proof. reflexivity. Qed.

Lemma nextHintRegex_app (s y : jsstring) :
  isSome (nextHintRegex None s) = true ->
  isSome (nextHintRegex None (s ++ y)) = true.
Proof.
  unfold nextHintRegex; cbn [alternatives]; unfold ciLiteral.
  destruct (ciStartsWith s "Next, I'll need") eqn:E1;
    [now rewrite (ciStartsWith_app _ s y E1)|].
  destruct (ciStartsWith s "Next, I will need") eqn:E2;
    [rewrite (ciStartsWith_app _ s y E2);
     now destruct (ciStartsWith (s ++ y) "Next, I'll need")|].
  destruct (ciStartsWith s "Can you please provide") eqn:E3;
    [rewrite (ciStartsWith_app _ s y E3);
     destruct (ciStartsWith (s ++ y) "Next, I'll need"); auto;
     now destruct (ciStartsWith (s ++ y) "Next, I will need")|].
  destruct (ciStartsWith s "Would you like to continue") eqn:E4;
    [rewrite (ciStartsWith_app _ s y E4);
     destruct (ciStartsWith (s ++ y) "Next, I'll need"); auto;
     destruct (ciStartsWith (s ++ y) "Next, I will need"); auto;
     now destruct (ciStartsWith (s ++ y) "Can you please provide")|].
  discriminate.
Qed.

Lemma nextHintRegex_nil : isSome (nextHintRegex None []) = false.
Proof. reflexivity. Qed.

Lemma trim_decompose (s : jsstring) : exists a b, s = a ++ trim s ++ b.
Proof. apply includes_decompose, includes_trim. Qed.

(** X18: the reply that [handleSubmit] shows after an answer is a piece of
    the assistant's response that holds none of the four phrases leading to
    a next question, in any letter case, and has no white space at its ends;
    a response without such a phrase is shown trimmed and otherwise whole. *)
Theorem cleanedResponse_drops_hint :
  forall aiResponse : jsstring,
    includes aiResponse (cleanedResponse aiResponse) = true
    /\ regexTest nextHintRegex (cleanedResponse aiResponse) = false
    /\ trim (cleanedResponse aiResponse) = cleanedResponse aiResponse
    /\ (regexTest nextHintRegex aiResponse = false ->
        cleanedResponse aiResponse = trim aiResponse).
Proof.
  intros r; unfold cleanedResponse, firstMatch, execAll, regexTest.
  pose proof (execAllFrom_leftmost nextHintRegex _ nextHintRegex_prev
                nextHintRegex_nil r 0 None) as L.
  destruct (hd_error (execAllFrom nextHintRegex 0 0 None r)) as [m|].
  - destruct L as [j [Hi [Hj [Hm Hk]]]].
    rewrite Hi, substring_from_start.
    replace (Z.to_nat (clamp r (0 + Z.of_nat j))) with j
      by (unfold clamp, len; lia).
    destruct (trim_decompose (firstn j r)) as [a [b Hab]].
    assert (Hlen : (length a + length (trim (firstn j r)) <= j)%nat).
    { apply (f_equal (@length ascii)) in Hab.
      rewrite !length_app, length_firstn in Hab; lia. }
    repeat split.
    + apply (includes_trans _ (firstn j r)); [|apply includes_trim].
      rewrite <- (firstn_skipn j r) at 1; apply includes_prefix.
    + apply (no_match_inside nextHintRegex _ nextHintRegex_prev
               nextHintRegex_app nextHintRegex_nil r a _ (b ++ skipn j r)).
      * rewrite <- (firstn_skipn j r) at 1; rewrite Hab at 1.
        now rewrite <- !app_assoc.
      * intros k Hlt; apply Hk; lia.
    + apply trim_idempotent.
    + intros T; exfalso.
      pose proof (testFrom_false nextHintRegex _ nextHintRegex_prev
                    nextHintRegex_nil r None j T) as F.
      congruence.
  - destruct (trim_decompose r) as [a [b Hab]].
    repeat split; auto using includes_trim, trim_idempotent.
    apply (no_match_inside nextHintRegex _ nextHintRegex_prev
             nextHintRegex_app nextHintRegex_nil r a _ b Hab).
    intros k _; apply L.
Qed.

(** ** The next question *)

Lemma find_first {A} (f : A -> bool) (l : list A) (x : A) :
  find f l = Some x ->
  exists before after,
    l = before ++ x :: after /\ f x = true
    /\ forall k, In k before -> f k = false.
Proof.
  induction l as [|y l IH]; [discriminate|]; cbn [find].
  destruct (f y) eqn:E.
  - intros [= ->]; exists [], l; repeat split; auto; intros k [].
  - intros H; destruct (IH H) as [b [a [-> [Hx Hb]]]].
    exists (y :: b), a; repeat split; auto.
    intros k [<- | Hk]; auto.
Qed.

Lemma Map_has_set_same {V} (m : JsMap V) k v : Map_has (Map_set m k v) k = true.
Proof. unfold Map_has; now rewrite Map_get_set_same. Qed.

Lemma nextPlaceholderKey_first localeCompare placeholders filled skipped
    current n :
  nextPlaceholderKey localeCompare placeholders filled skipped current
  = Some n ->
  exists before after,
    placeholderKeys localeCompare placeholders = before ++ n :: after
    /\ Map_has filled n = false /\ Set_has skipped n = false /\ n <> current
    /\ forall k, In k before ->
         Map_has filled k = true \/ Set_has skipped k = true \/ k = current.
Proof.
  unfold nextPlaceholderKey, keys; intros H.
  destruct (find_first _ _ _ H) as [b [a [Hl [Hn Hb]]]].
  exists b, a; split; auto.
  rewrite !andb_true_iff, !negb_true_iff in Hn.
  destruct Hn as [[H1 H2] H3]; apply jsstring_eqb_neq in H3.
  repeat split; auto.
  intros k Hk; specialize (Hb k Hk).
  destruct (Map_has filled k); auto.
  destruct (Set_has skipped k); auto.
  cbn in Hb; rewrite negb_false_iff in Hb; apply jsstring_eqb_eq in Hb; auto.
Qed.



(** ** Keys as they are shown *)

Lemma forallb_rev {A} (f : A -> bool) (l : list A) :
  forallb f l = true -> forallb f (rev l) = true.
Proof.
  rewrite !forallb_forall; intros H x Hx; apply H; now apply in_rev.
Qed.

(** X20: the key shown in questions and in the lists of the page,
    [key.replace(/_\d+$/, '')], is the key without a counter at its end:
    [base_12] is shown as [base], whatever [base] is, and a key that does
    not end in a digit is shown as it is. *)
Theorem displayKey_strips_counter :
  forall base digits k : jsstring,
    digits <> [] -> forallb isDigit digits = true ->
    (forall c r, rev k = c :: r -> isDigit c = false) ->
    displayKey (base ++ "_" ++ digits) = base /\ displayKey k = k.
Proof.
  intros base ds k Hne Hd Hk; split; unfold displayKey.
  - rewrite !rev_app_distr; cbn [rev app list_ascii_of_string].
    rewrite <- app_assoc; cbn [app].
    rewrite takeWhile_app_all by now apply forallb_rev.
    cbn [takeWhile]; replace (isDigit "_") with false by reflexivity.
    rewrite app_nil_r, skipn_app, skipn_all, Nat.sub_diag; cbn [skipn app].
    destruct (rev ds) eqn:E.
    + apply (f_equal (@rev ascii)) in E; rewrite rev_involutive in E.
      now subst.
    + cbn; apply rev_involutive.
  - destruct (rev k) as [|c r] eqn:E; [reflexivity|].
    cbn [takeWhile]; rewrite (Hk c r eq_refl); reflexivity.
Qed.

Lemma displayKey_strips_counter_witness :
  displayKey "Signatory_2" = "Signatory"
  /\ displayKey "Company Name" = "Company Name".
Proof.
  apply (displayKey_strips_counter "Signatory" "2" "Company Name").
  - discriminate.
  - reflexivity.
  - intros c r H; injection H as <- _; reflexivity.
Defined.

(** * Documents with several tokens *)

(** ** The second pass, match by match *)

Lemma literalPass_matches text placeholders :
  literalPass text placeholders
  = fold_left (fun st tm => processLiteralMatch text (fst tm) st (snd tm))
      (literalMatches text) (placeholders, []).
Proof.
  unfold literalPass, literalMatches.
  assert (H : forall ps st,
             fold_left
               (fun st p => fold_left (processLiteralMatch text (snd p))
                              (execAll (fst p) text) st) ps st
             = fold_left
                 (fun st tm => processLiteralMatch text (fst tm) st (snd tm))
                 (flat_map
                    (fun p => map (fun m => (snd p, m)) (execAll (fst p) text))
                    ps) st).
  { induction ps as [|p ps IH]; intros st; cbn [fold_left flat_map]; auto.
    rewrite fold_left_app, IH; f_equal.
    generalize (execAll (fst p) text) as ms.
    intros ms; revert st; induction ms as [|m ms IHm]; intros st;
      cbn [fold_left map fst snd]; auto. }
  apply H.
Qed.

(** What a match does to a catalog, by the key it has. *)
Lemma processLiteralMatch_key text ty placeholders seenFormats m :
  match keyOfMatch text (ty, m) with
  | None =>
      fst (processLiteralMatch text ty (placeholders, seenFormats) m)
      = placeholders
  | Some k =>
      if Set_has seenFormats (matched m)
      then processLiteralMatch text ty (placeholders, seenFormats) m
           = (placeholders, seenFormats)
      else
        processLiteralMatch text ty (placeholders, seenFormats) m
        = (if negb (jsstring_eqb k "Company Name")
              || negb (jsstring_eqb (matched m) "[COMPANY]")
           then match Map_get placeholders k with
                | Some _ => placeholders
                | None =>
                    Map_set placeholders k
                      (mkInfo k (matched m) [] ty None None)
                end
           else Map_set placeholders k (mkInfo k (matched m) [] ty None None),
           Set_add seenFormats (matched m))
  end
  /\ (snd (processLiteralMatch text ty (placeholders, seenFormats) m)
      = seenFormats
      \/ snd (processLiteralMatch text ty (placeholders, seenFormats) m)
         = Set_add seenFormats (matched m)).
Proof.
  unfold keyOfMatch, processLiteralMatch; cbn [fst snd].
  destruct (isBlankKey (trim (group1 m))); cbn [fst snd hd_error option_map];
    [auto|].
  replace (Set_has [] (matched m)) with false by reflexivity.
  destruct (isEmpty (trim (collapseWhitespace false (trim (group1 m)))));
    cbn [fst snd hd_error option_map].
  { destruct (Set_has seenFormats (matched m)); cbn [fst snd]; auto. }
  match goal with
  | |- context [Map_set [] ?k _] => set (key := k)
  end.
  destruct (negb (jsstring_eqb key "Company Name")
            || negb (jsstring_eqb (matched m) "[COMPANY]")) eqn:E;
    cbn [Map_get Map_set fst snd hd_error option_map].
  - rewrite E.
    destruct (Set_has seenFormats (matched m)); cbn [fst snd]; auto.
    destruct (Map_get placeholders key); cbn [fst snd]; auto.
  - rewrite E.
    destruct (Set_has seenFormats (matched m)); cbn [fst snd]; auto.
Qed.

(** Matches with other texts and other keys leave the key free and the
    text unseen. *)
Lemma literal_steps_free text (k token : jsstring) before : forall st,
  (forall tm, In tm before ->
     matched (snd tm) <> token /\ keyOfMatch text tm <> Some k) ->
  Map_get (fst st) k = None -> Set_has (snd st) token = false ->
  let st' :=
    fold_left (fun st tm => processLiteralMatch text (fst tm) st (snd tm))
      before st in
  Map_get (fst st') k = None /\ Set_has (snd st') token = false.
Proof.
  induction before as [|[ty m] before IH]; intros [pl seen] Hb Hk Hs;
    cbn [fold_left fst snd] in *; auto.
  destruct (Hb (ty, m) (or_introl eq_refl)) as [Hm Hkey]; cbn [snd] in Hm.
  destruct (processLiteralMatch_key text ty pl seen m) as [H1 H2].
  apply IH; [intros tm Htm; apply Hb; now right | |].
  - destruct (keyOfMatch text (ty, m)) as [k'|]; [|now rewrite H1].
    assert (Hne : k' <> k) by congruence.
    destruct (Set_has seen (matched m)); rewrite H1; cbn [fst]; auto.
    destruct (negb _ || negb _); [destruct (Map_get pl k'); auto|];
      now rewrite Map_get_set_other.
  - destruct H2 as [-> | ->]; auto.
    rewrite Set_has_add, Hs; cbn [orb].
    apply jsstring_eqb_neq; congruence.
Qed.

(** An entry whose text is seen stays under its key when no [[COMPANY]]
    that comes later has the key. *)
Lemma literal_steps_keep text (k token : jsstring) e after : forall st,
  (k = ("Company Name" : jsstring) ->
   forall tm, In tm after -> keyOfMatch text tm = Some k ->
     matched (snd tm) = ("[COMPANY]" : jsstring) ->
     token = ("[COMPANY]" : jsstring)) ->
  Map_get (fst st) k = Some e -> Set_has (snd st) token = true ->
  Map_get
    (fst (fold_left (fun st tm => processLiteralMatch text (fst tm) st (snd tm))
            after st)) k = Some e.
Proof.
  induction after as [|[ty m] after IH]; intros [pl seen] Ha Hk Hs;
    cbn [fold_left fst snd] in *; auto.
  assert (Hm : k = ("Company Name" : jsstring) ->
               keyOfMatch text (ty, m) = Some k ->
               matched m = ("[COMPANY]" : jsstring) ->
               token = ("[COMPANY]" : jsstring))
    by (intros Hk'; apply (Ha Hk' (ty, m)); now left).
  destruct (processLiteralMatch_key text ty pl seen m) as [H1 H2].
  apply IH; [intros Hk' tm Htm; apply (Ha Hk'); now right | |].
  - destruct (keyOfMatch text (ty, m)) as [k'|]; [|now rewrite H1].
    destruct (Set_has seen (matched m)) eqn:Es; rewrite H1; cbn [fst]; auto.
    destruct (jsstring_eqb k' k) eqn:Ek.
    + apply jsstring_eqb_eq in Ek; subst k'.
      destruct (negb (jsstring_eqb k "Company Name")
                || negb (jsstring_eqb (matched m) "[COMPANY]")) eqn:E.
      * now rewrite Hk.
      * apply orb_false_iff in E; destruct E as [Ec E].
        apply negb_false_iff, jsstring_eqb_eq in Ec.
        apply negb_false_iff, jsstring_eqb_eq in E.
        rewrite (Hm Ec eq_refl E), <- E in Hs; congruence.
    + apply jsstring_eqb_neq in Ek.
      destruct (negb _ || negb _); [destruct (Map_get pl k'); auto|];
        now rewrite Map_get_set_other.
  - destruct H2 as [-> | ->]; auto using Set_has_add_keeps.
Qed.

(** The entry of a token whose key is free when the second pass reaches it
    and is not filed under again. *)
Lemma literal_token_filed text before ty m after k placeholders :
  literalMatches text = before ++ (ty, m) :: after ->
  keyOfMatch text (ty, m) = Some k ->
  Map_get placeholders k = None ->
  (forall tm, In tm before ->
     matched (snd tm) <> matched m /\ keyOfMatch text tm <> Some k) ->
  (k = ("Company Name" : jsstring) ->
   forall tm, In tm after -> keyOfMatch text tm = Some k ->
     matched (snd tm) = ("[COMPANY]" : jsstring) ->
     matched m = ("[COMPANY]" : jsstring)) ->
  Map_get (fst (literalPass text placeholders)) k
  = Some (mkInfo k (matched m) [] ty None None).
Proof.
  intros Hl Hkey Hfree Hb Ha.
  rewrite literalPass_matches, Hl, fold_left_app; cbn [fold_left fst snd].
  destruct (literal_steps_free text k (matched m) before (placeholders, [])
              Hb Hfree eq_refl) as [G S].
  set (st := fold_left _ before _) in *.
  destruct st as [pl seen]; cbn [fst snd] in G, S.
  destruct (processLiteralMatch_key text ty pl seen m) as [H1 _].
  rewrite Hkey, S, G in H1.
  assert (H : processLiteralMatch text ty (pl, seen) m
              = (Map_set pl k (mkInfo k (matched m) [] ty None None),
                 Set_add seen (matched m)))
    by (rewrite H1; now destruct (negb _ || negb _)).
  rewrite H.
  apply (literal_steps_keep text k (matched m)); cbn [fst snd]; auto.
  - apply Map_get_set_same.
  - apply Set_has_add_same.
Qed.

(** A label that resolves to another key leaves the entry of a key as it
    is. *)
Lemma labelPass_keeps text placeholders k e :
  (forall lf m p,
     In lf labelFields -> In m (execAll (fst lf) text) ->
     resolveContext (signatureMatches text) (index m) = Some p ->
     uniqueKey p (snd lf) <> k) ->
  Map_get placeholders k = Some e ->
  Map_get (labelPass text placeholders) k = Some e.
Proof.
  intros Hl.
  apply (labelPass_invariant_In text (fun pl => Map_get pl k = Some e)).
  intros lf m pl Hlf Hm Hpl; unfold processLabelMatch.
  destruct (resolveContext (signatureMatches text) (index m)) as [p|] eqn:R;
    auto.
  specialize (Hl lf m p Hlf Hm R).
  destruct (Map_get pl (uniqueKey p (snd lf)));
    [destruct (negb _); auto|]; now rewrite Map_get_set_other.
Qed.

Lemma literalMatches_opens text tm :
  In tm (literalMatches text) -> opensToken (matched (snd tm)) = true.
Proof.
  unfold literalMatches; rewrite in_flat_map.
  intros [p [Hp Hm]]; apply in_map_iff in Hm; destruct Hm as [m [<- Hm]].
  cbn [snd].
  assert (H : Forall (fun m => opensToken (matched m) = true)
                (execAll (fst p) text)).
  { apply execAllFrom_Forall; intros prev s m0 g i Hre; cbn [matched].
    simpl in Hp; destruct Hp as [<- | [<- | [<- | [<- | []]]]]; cbn [fst] in Hre;
      apply delimited_shape in Hre; subst m0; reflexivity. }
  rewrite Forall_forall in H; auto.
Qed.

Lemma entriesWithFormat_one token catalog k e :
  (length (entriesWithFormat token catalog) <= 1)%nat ->
  Map_get catalog k = Some e -> originalFormat e = token ->
  entriesWithFormat token catalog = [(k, e)].
Proof.
  intros L G Ho.
  assert (H : In (k, e) (entriesWithFormat token catalog)).
  { apply filter_In; split; [now apply Map_get_In|].
    cbn [snd]; apply jsstring_eqb_eq; exact Ho. }
  destruct (entriesWithFormat token catalog) as [|x [|y l]];
    [destruct H | | cbn [length] in L; lia].
  destruct H as [-> | []]; reflexivity.
Qed.

(** C6, as amended: in every document, at most one entry of the catalog has
    a given literal-delimiter token as its [originalFormat].  A token that
    the second pass matches and gives a key has exactly one entry, under
    that key and of the kind of its pattern, when the key is free as the
    pass reaches the token (the first pass has not taken it, no match
    visited earlier has the text of the token or its key) and nothing is
    filed under the key afterwards (no [[COMPANY]] visited later, no
    label). *)
Theorem scanned_token_has_one_entry :
  forall (text : jsstring)
         (before after : list (PlaceholderType * RegExpMatch))
         (ty : PlaceholderType) (m : RegExpMatch) (k : jsstring),
    literalMatches text = before ++ (ty, m) :: after ->
    (forall document : jsstring,
        (length (entriesWithFormat (matched m) (extractPlaceholders document))
         <= 1)%nat)
    /\ (keyOfMatch text (ty, m) = Some k ->
        notTaken text k (matched m) before ->
        notOverwritten text k (matched m) after ->
        entriesWithFormat (matched m) (extractPlaceholders text)
        = [(k, mkInfo k (matched m) [] ty None None)]).
Proof.
  intros text before after ty m k Hl.
  assert (Ho : opensToken (matched m) = true).
  { apply (literalMatches_opens text (ty, m)); rewrite Hl.
    apply in_or_app; right; now left. }
  split; [intros document; now apply extractPlaceholders_formats|].
  intros Hkey [Hc Hb] [Ha Hlab].
  apply entriesWithFormat_one; auto using extractPlaceholders_formats.
  unfold extractPlaceholders.
  apply labelPass_keeps; auto.
  now apply (literal_token_filed text before ty m after).
Qed.

Lemma scanned_token_has_one_entry_witness :
  entriesWithFormat "[Sum]" (extractPlaceholders twoTokens)
  = [("Sum" : jsstring, mkInfo "Sum" "[Sum]" [] square None None)].
Proof.
  apply (proj2 (scanned_token_has_one_entry twoTokens
                  [(square, mkMatch 5 "[Investor Name]" "Investor Name")] []
                  square (mkMatch 26 "[Sum]" "Sum") "Sum" eq_refl)).
  - reflexivity.
  - split; [reflexivity|].
    intros tm [<- | []]; split; vm_compute; discriminate.
  - split; [intros _ tm []|].
    intros lf m p Hlf Hm _; simpl in Hlf.
    destruct Hlf as [<- | [<- | [<- | [<- | []]]]]; vm_compute in Hm;
      destruct Hm.
Defined.

(** ** A double-curly token under the single-curly pattern *)

(** A pattern is tried at a place that no earlier match of it runs over,
    and a match there is one of the scan. *)
Lemma execAllFrom_reaches (re : Matcher) (m g : jsstring) :
  forall (d : nat) (s : jsstring) (skip : nat) (i : Z) (prev : option ascii),
    (skip <= d)%nat -> (d < length s)%nat ->
    (forall p, re p (skipn d s) = Some (m, g)) ->
    (forall x, In x (execAllFrom re skip i prev s) ->
       index x < i + Z.of_nat d ->
       index x + len (matched x) <= i + Z.of_nat d) ->
    In (mkMatch (i + Z.of_nat d) m g) (execAllFrom re skip i prev s).
Proof.
  induction d as [|d IH]; intros s skip i prev Hskip Hd Hre Hno.
  - destruct s as [|c s]; [cbn [length] in Hd; lia|].
    assert (skip = 0%nat) by lia; subst skip.
    cbn [execAllFrom]; cbn [skipn] in Hre; rewrite (Hre prev).
    left; f_equal; lia.
  - destruct s as [|c s]; [cbn [length] in Hd; lia|].
    cbn [length] in Hd; cbn [skipn] in Hre.
    replace (i + Z.of_nat (S d)) with ((i + 1) + Z.of_nat d) in * by lia.
    destruct skip as [|k]; cbn [execAllFrom] in Hno |- *.
    + destruct (re prev (c :: s)) as [[m0 g0]|].
      * right; apply IH; auto; try lia.
        -- specialize (Hno (mkMatch i m0 g0) (or_introl eq_refl)).
           cbn [index matched] in Hno; unfold len in Hno; lia.
        -- intros x Hx; apply Hno; now right.
      * apply IH; auto; lia.
    + apply IH; auto; lia.
Qed.

Lemma execAll_reaches (re : Matcher) (pre tok post m g : jsstring) :
  tok <> [] ->
  (forall p, re p (tok ++ post) = Some (m, g)) ->
  (forall x, In x (execAll re (pre ++ tok ++ post)) ->
     index x < len pre -> index x + len (matched x) <= len pre) ->
  In (mkMatch (len pre) m g) (execAll re (pre ++ tok ++ post)).
Proof.
  intros Hne Hre Hno; unfold execAll, len.
  apply (execAllFrom_reaches re m g (length pre) (pre ++ tok ++ post) 0 0 None).
  - lia.
  - rewrite !length_app; destruct tok; [congruence | cbn [length]; lia].
  - intros p; rewrite skipn_app, skipn_all, Nat.sub_diag; apply Hre.
  - intros x Hx; apply (Hno x Hx).
Qed.



(** ** Rendering and the tokens that occur once *)

Lemma delimitedToken_ends (token : jsstring) :
  delimitedToken token = true ->
  exists o c, hd_error token = Some o
              /\ last (map Some token) None = Some c
              /\ isOneOf "[{<" o = true /\ isOneOf "]}>" c = true.
Proof.
  unfold delimitedToken, opensToken, closesToken.
  rewrite andb_true_iff; intros [Ho Hc].
  destruct token as [|o token']; [discriminate|].
  destruct (rev (o :: token')) as [|c r] eqn:E; [discriminate|].
  exists o, c; repeat split; auto.
  apply (f_equal (@rev ascii)) in E; rewrite rev_involutive in E.
  rewrite E; cbn [rev]; apply last_map_Some_snoc.
Qed.

Lemma countOccurrences_includes (s token : jsstring) :
  countOccurrences s token = 0%nat <-> includes s token = false.
Proof.
  induction s as [|c s IH].
  - rewrite includes_nil; destruct token; cbn; split; congruence.
  - rewrite includes_cons; cbn [countOccurrences].
    destruct (startsWith (c :: s) token); cbn [orb].
    + split; [intros H; lia | discriminate].
    + exact IH.
Qed.

Lemma countOccurrences_app_le (m s token : jsstring) :
  (countOccurrences s token <= countOccurrences (m ++ s) token)%nat.
Proof.
  induction m as [|c m IH]; [apply le_n|].
  change ((c :: m) ++ s) with (c :: m ++ s); cbn [countOccurrences].
  destruct (startsWith (c :: m ++ s) token); lia.
Qed.

Lemma countOccurrences_skipn_le (j : nat) (s token : jsstring) :
  (countOccurrences (skipn j s) token <= countOccurrences s token)%nat.
Proof.
  rewrite <- (firstn_skipn j s) at 2; apply countOccurrences_app_le.
Qed.

Lemma countOccurrences_skips (w s token : jsstring) :
  (forall c, In c w -> hd_error token <> Some c) -> token <> [] ->
  countOccurrences (w ++ s) token = countOccurrences s token.
Proof.
  intros Hw Hne; destruct token as [|t token']; [congruence|].
  induction w as [|x w IH]; auto.
  change ((x :: w) ++ s) with (x :: w ++ s).
  cbn [countOccurrences startsWith].
  rewrite IH by (intros c Hc; apply Hw; now right).
  destruct (Ascii.eqb t x) eqn:E; auto.
  apply Ascii.eqb_eq in E; subst t.
  exfalso; apply (Hw x); [now left | reflexivity].
Qed.

(** Two places where the token stands are two occurrences. *)
Lemma countOccurrences_two (s token : jsstring) (j k : nat) :
  token <> [] -> (j < k)%nat ->
  startsWith (skipn j s) token = true ->
  startsWith (skipn k s) token = true ->
  (2 <= countOccurrences s token)%nat.
Proof.
  intros Hne Hjk Hj Hk.
  pose proof (countOccurrences_skipn_le j s token) as L.
  destruct (skipn j s) as [|c x] eqn:E.
  { destruct token; [congruence | discriminate]. }
  cbn [countOccurrences] in L; rewrite Hj in L.
  assert (Hx : skipn k s = skipn (k - j - 1) x).
  { replace k with ((k - j - 1) + S j)%nat at 1 by lia.
    rewrite <- skipn_skipn.
    replace (skipn (S j) s) with x; auto.
    replace (S j) with (1 + j)%nat by lia.
    now rewrite <- skipn_skipn, E. }
  pose proof (countOccurrences_skipn_le (k - j - 1) x token) as L2.
  rewrite <- Hx in L2.
  destruct (skipn k s) as [|d y]; cbn [countOccurrences] in L2;
    rewrite Hk in L2; lia.
Qed.

Section EditCount.

Variable token : jsstring.
Variables K W : jsstring -> Prop.
Hypothesis token_nonempty : token <> [].
Hypothesis W_safe : forall w, W w -> Safe token w.

(** An edit with safe insertions makes no occurrence of the token. *)
Lemma Edit_count (s s' : jsstring) :
  Edit K W s s' ->
  (countOccurrences s' token <= countOccurrences s token)%nat.
Proof.
  induction 1 as [|c s s' Hk He IH | m w s s' Hw He IH].
  - lia.
  - cbn [countOccurrences].
    destruct (startsWith (c :: s') token) eqn:E; [|lia].
    assert (E' : startsWith (c :: s) token = true).
    { destruct token as [|t token'] eqn:Et; [reflexivity|].
      cbn [startsWith] in *; apply andb_true_iff in E; destruct E as [-> E].
      cbn [andb].
      apply (Edit_prefix_transfer (t :: token') K W) with (s' := s') (q := [t]);
        auto. }
    rewrite E'; lia.
  - destruct (W_safe w Hw) as (_ & Hhd & _ & _).
    rewrite countOccurrences_skips by auto.
    pose proof (countOccurrences_app_le m s token); lia.
Qed.

End EditCount.

Lemma Edit_keep_prefix (K W : jsstring -> Prop) (a s s' : jsstring) :
  (forall k, (k < length a)%nat -> K (skipn k (a ++ s))) ->
  Edit K W s s' -> Edit K W (a ++ s) (a ++ s').
Proof.
  induction a as [|c a IH]; intros Ha He; auto.
  change ((c :: a) ++ s) with (c :: a ++ s).
  change ((c :: a) ++ s') with (c :: a ++ s').
  constructor.
  - apply (Ha 0%nat); cbn [length]; lia.
  - apply IH; auto; intros k Hk; apply (Ha (S k)); cbn [length]; lia.
Qed.

Lemma Edit_same (K W : jsstring -> Prop) (b : jsstring) :
  (forall k, (k < length b)%nat -> K (skipn k b)) -> Edit K W b b.
Proof.
  intros H; rewrite <- (app_nil_r b).
  apply Edit_keep_prefix; [now rewrite app_nil_r | constructor].
Qed.

Lemma indexOfFrom_first (L : jsstring) :
  forall s i, 0 <= i -> 0 <= indexOfFrom i s L ->
    exists j, indexOfFrom i s L = i + Z.of_nat j
              /\ startsWith (skipn j s) L = true
              /\ forall k, (k < j)%nat -> startsWith (skipn k s) L = false.
Proof.
  induction s as [|c s IH]; intros i Hi; cbn [indexOfFrom].
  - destruct (startsWith [] L) eqn:E; [|lia].
    intros _; exists 0%nat; repeat split; [lia | exact E | lia].
  - destruct (startsWith (c :: s) L) eqn:E.
    + intros _; exists 0%nat; repeat split; [lia | exact E | lia].
    + intros H; destruct (IH (i + 1)) as [j [Hj [Hs Hk]]]; [lia | exact H |].
      exists (S j); repeat split; [lia | exact Hs |].
      intros [|k] Hlt; cbn [skipn]; [exact E | apply Hk; lia].
Qed.

(** Replacing the only occurrence of the token leaves none of it. *)
Lemma replaceFirst_eliminates (token s v : jsstring) :
  token <> [] -> plainReplacement v = true -> Safe token v ->
  (countOccurrences s token <= 1)%nat ->
  includes (replaceFirst s token v) token = false.
Proof.
  intros Hne Hv Hs Hc; unfold replaceFirst.
  destruct (indexOf s token <? 0) eqn:E.
  - destruct (includes s token) eqn:I; auto.
    apply (indexOfFrom_includes token s 0) in I; [|lia].
    apply Z.ltb_lt in E; unfold indexOf in E; lia.
  - apply Z.ltb_ge in E.
    destruct (indexOfFrom_first token s 0) as [j [Hj [Hocc Hmin]]];
      [lia | exact E |].
    unfold indexOf; rewrite Hj, getSubstitution_plain by auto.
    pose proof (startsWith_length _ _ Hocc) as Hlen.
    rewrite length_skipn in Hlen.
    assert (HLl : (0 < length token)%nat)
      by (destruct token; [congruence | simpl; lia]).
    rewrite substring_from_start, substringFrom_skipn.
    replace (Z.to_nat (clamp s (0 + Z.of_nat j))) with j
      by (unfold clamp, len; lia).
    replace (Z.to_nat (clamp s (0 + Z.of_nat j + len token)))
      with (length token + j)%nat by (unfold clamp, len; lia).
    assert (Hsplit : s = firstn j s ++ token ++ skipn (length token + j) s).
    { rewrite <- (firstn_skipn j s) at 1; f_equal.
      rewrite (startsWith_decompose _ _ Hocc) at 1; now rewrite skipn_skipn. }
    apply (Edit_eliminates token (fun x => startsWith x token = false)
             (exactly v) Hne) with (s := s).
    + intros w ->; exact Hs.
    + rewrite Hsplit at 1.
      apply Edit_keep_prefix.
      * intros k Hk; rewrite <- Hsplit; apply Hmin.
        rewrite length_firstn in Hk; lia.
      * apply Edit_subst; [reflexivity|].
        apply Edit_same; intros k _; rewrite skipn_skipn.
        destruct (startsWith (skipn (k + (length token + j)) s) token) eqn:F;
          auto.
        pose proof (countOccurrences_two s token j (k + (length token + j))
                      Hne ltac:(lia) Hocc F); lia.
    + auto.
Qed.

Lemma safeValue_Safe_token (token v : jsstring) :
  delimitedToken token = true -> safeValue token v = true ->
  token <> [] /\ plainReplacement v = true
  /\ Safe token v /\ Safe token (" " ++ v).
Proof.
  intros Hd Hs; unfold safeValue in Hs.
  rewrite !andb_true_iff, !negb_true_iff in Hs.
  destruct Hs as [[[Hne Hp] Hv] Hinc].
  destruct (delimitedToken_ends token Hd) as (o & c & Ho & Hc & Do & Dc).
  assert (Hn : v <> []) by (intros ->; discriminate).
  split; [intros ->; discriminate|]; split; [exact Hp|]; split.
  - repeat split; auto.
    + intros x Hx; rewrite Ho; intros E; injection E as E.
      now apply (delimiter_free v x o Hv Hx (or_introl Do)).
    + intros x Hx; rewrite Hc; intros E; injection E as E.
      now apply (delimiter_free v x c Hv Hx (or_intror Dc)).
  - repeat split.
    + discriminate.
    + intros x [<- | Hx]; rewrite Ho; intros E; injection E as E.
      * subst o; discriminate.
      * now apply (delimiter_free v x o Hv Hx (or_introl Do)).
    + intros x [<- | Hx]; rewrite Hc; intros E; injection E as E.
      * subst c; discriminate.
      * now apply (delimiter_free v x c Hv Hx (or_intror Dc)).
    + destruct (includes token (" " ++ v)) eqn:E; auto.
      apply includes_tail in E; congruence.
Qed.

Section RenderAnyToken.

Variable token : jsstring.
Hypothesis token_delimited : delimitedToken token = true.

Lemma replaceNormalized_count (c k v : jsstring) :
  safeValue token v = true ->
  (countOccurrences (replaceNormalized c k v) token
   <= countOccurrences c token)%nat.
Proof.
  intros Hs.
  destruct (safeValue_Safe_token token v token_delimited Hs)
    as (Hne & Hp & Sv & _).
  assert (Hall : forall p c', p <> [] ->
            (countOccurrences (replaceAll (ciLiteral p) c' v) token
             <= countOccurrences c' token)%nat).
  { intros p c' Hpn.
    apply (Edit_count token (noMatchOf p) (exactly v) Hne);
      [intros w ->; exact Sv | now apply replaceAll_Edit]. }
  unfold replaceNormalized.
  assert (Hfold : forall pats c',
            (forall p, In p pats -> p <> []) ->
            (countOccurrences
               (fold_left (fun c p => replaceAll (ciLiteral p) c v) pats c')
               token <= countOccurrences c' token)%nat).
  { induction pats as [|p pats IH]; intros c' Hpats; cbn [fold_left];
      [apply le_n|].
    etransitivity; [apply IH; intros q Hq; apply Hpats; now right|].
    apply Hall, Hpats; now left. }
  etransitivity;
    [apply Hfold; intros p; apply normalizedPattern_nonempty|].
  destruct (jsstring_eqb (displayKey k) "Company Name"); [|apply le_n].
  apply Hall; discriminate.
Qed.

(** No entry with a safe value makes an occurrence of the token. *)
Lemma renderEntry_count (groupKey c : jsstring) (e : Entry) :
  safeValue token (formatValue (info (snd e)) (value (snd e))) = true ->
  (countOccurrences (renderEntry groupKey c e) token
   <= countOccurrences c token)%nat.
Proof.
  destruct e as [k data]; cbn [snd]; intros Hs.
  destruct (safeValue_Safe_token token _ token_delimited Hs)
    as (Hne & Hp & Sv & Sb).
  unfold renderEntry; cbv zeta.
  match goal with
  | |- context [isLabelFormat ?x] => set (L := x)
  end.
  set (v := formatValue (info data) (value data)) in *.
  assert (H1 : (countOccurrences
                  (if isLabelFormat L then replaceLabel c L v (info data)
                   else replaceFirst c L v) token
                <= countOccurrences c token)%nat).
  { destruct (isLabelFormat L) eqn:E.
    - apply (Edit_count token anywhere (exactly (" " ++ v)) Hne);
        [intros w ->; exact Sb|].
      apply replaceLabel_Edit; now apply isLabelFormat_nonempty.
    - apply (Edit_count token anywhere (exactly v) Hne);
        [intros w ->; exact Sv | now apply replaceFirst_Edit]. }
  destruct (negb (isCurrencyBlank (type (info data)))); auto.
  etransitivity; [now apply replaceNormalized_count | exact H1].
Qed.

Lemma renderSteps_count (steps : list (jsstring * Entry)) : forall c,
  (forall ge, In ge steps ->
     safeValue token (formatValue (info (snd (snd ge)))
                        (value (snd (snd ge)))) = true) ->
  (countOccurrences
     (fold_left (fun c ge => renderEntry (fst ge) c (snd ge)) steps c) token
   <= countOccurrences c token)%nat.
Proof.
  induction steps as [|ge steps IH]; intros c Hs; cbn [fold_left];
    [apply le_n|].
  etransitivity; [apply IH; intros; apply Hs; now right|].
  apply renderEntry_count, Hs; now left.
Qed.

Lemma delimitedToken_no_label : isLabelFormat token = false.
Proof.
  pose proof token_delimited as H; unfold delimitedToken, closesToken in H.
  apply andb_true_iff in H; destruct H as [_ H].
  unfold isLabelFormat, endsWith.
  destruct (rev token) as [|c r]; [discriminate|].
  cbn [rev app startsWith list_ascii_of_string].
  destruct (Ascii.eqb ":" c) eqn:E; auto.
  apply Ascii.eqb_eq in E; subst c; discriminate.
Qed.

(** The entry of the token itself, with no party recorded, leaves none of
    it in a text that holds it at most once. *)
Lemma renderEntry_own (groupKey c k : jsstring) (data : PlaceholderData) :
  originalFormat (info data) = token ->
  context (info data) = None ->
  safeValue token (formatValue (info data) (value data)) = true ->
  (countOccurrences c token <= 1)%nat ->
  includes (renderEntry groupKey c (k, data)) token = false.
Proof.
  intros Ho Hctx Hs Hc.
  destruct (safeValue_Safe_token token _ token_delimited Hs)
    as (Hne & Hp & Sv & _).
  apply countOccurrences_includes.
  unfold renderEntry; cbv zeta.
  rewrite Hctx; cbn [isSome]; rewrite andb_false_r, Ho.
  rewrite delimitedToken_no_label.
  set (v := formatValue (info data) (value data)) in *.
  assert (H1 : countOccurrences (replaceFirst c token v) token = 0%nat)
    by (apply countOccurrences_includes, replaceFirst_eliminates; auto).
  destruct (negb (isCurrencyBlank (type (info data)))); auto.
  pose proof (replaceNormalized_count (replaceFirst c token v) k v Hs); lia.
Qed.

End RenderAnyToken.



(** ** A label entry rendered *)

Lemma opener_canonical (o y : ascii) :
  In o (list_ascii_of_string "[{<") ->
  canonicalize o = canonicalize y -> y = o.
Proof.
  intros [<- | [<- | [<- | []]]];
    destruct y as [[|] [|] [|] [|] [|] [|] [|] [|]]; vm_compute; intros H;
    first [reflexivity | discriminate H].
Qed.

Lemma ciLiteral_needs_opener (o : ascii) (p : jsstring) prev (x : jsstring) :
  In o (list_ascii_of_string "[{<") -> lacks o x = true ->
  ciLiteral (o :: p) prev x = None.
Proof.
  intros Ho Hx; rewrite ciLiteral_match.
  destruct x as [|y x]; [reflexivity|]; cbn [ciStartsWith].
  destruct (Ascii.eqb (canonicalize o) (canonicalize y)) eqn:E; auto.
  apply Ascii.eqb_eq, (opener_canonical o y Ho) in E; subst y.
  cbn [lacks forallb] in Hx; now rewrite Ascii.eqb_refl in Hx.
Qed.

Lemma replaceAllFrom_none (re : Matcher) (Q : ascii -> bool) (v whole : jsstring) :
  (forall prev x, forallb Q x = true -> re prev x = None) ->
  forall s i prev,
    forallb Q s = true -> replaceAllFrom re v whole 0 i prev s = s.
Proof.
  intros Hre; induction s as [|c s IH]; intros i prev Hs; [reflexivity|].
  cbn [replaceAllFrom]; rewrite (Hre prev (c :: s) Hs).
  cbn [forallb] in Hs; apply andb_true_iff in Hs; destruct Hs as [_ Hs].
  now rewrite IH.
Qed.

Lemma replaceAll_needs_opener (o : ascii) (p s v : jsstring) :
  In o (list_ascii_of_string "[{<") -> lacks o s = true ->
  replaceAll (ciLiteral (o :: p)) s v = s.
Proof.
  intros Ho Hs; unfold replaceAll.
  apply (replaceAllFrom_none _ (fun c => negb (Ascii.eqb c o))); auto.
  intros prev x Hx; now apply ciLiteral_needs_opener.
Qed.

(** In a text without opening delimiters the normalized spellings of a key
    are not found. *)
Lemma replaceNormalized_plain (c k v : jsstring) :
  (forall o, In o (list_ascii_of_string "[{<") -> lacks o c = true) ->
  replaceNormalized c k v = c.
Proof.
  intros Hc; unfold replaceNormalized, normalizedPatterns.
  assert (H1 : (if jsstring_eqb (displayKey k) "Company Name"
                then replaceAll (ciLiteral "[COMPANY]") c v else c) = c).
  { destruct (jsstring_eqb _ _); auto.
    apply (replaceAll_needs_opener "[" "COMPANY]"); [now left | apply Hc; now left]. }
  rewrite H1.
  assert (Hp : forall p, In p (normalizedPatterns (displayKey k)) ->
            replaceAll (ciLiteral p) c v = c).
  { intros p [<- | [<- | [<- | [<- | []]]]].
    - apply (replaceAll_needs_opener "[" (displayKey k ++ "]"));
        [now left | apply Hc; now left].
    - apply (replaceAll_needs_opener "{" (displayKey k ++ "}"));
        [right; now left | apply Hc; right; now left].
    - apply (replaceAll_needs_opener "{" ("{" ++ displayKey k ++ "}}"));
        [right; now left | apply Hc; right; now left].
    - apply (replaceAll_needs_opener "<" ("<" ++ displayKey k ++ ">>"));
        [right; right; now left | apply Hc; right; right; now left]. }
  fold (normalizedPatterns (displayKey k)).
  induction (normalizedPatterns (displayKey k)) as [|p ps IH];
    cbn [fold_left]; auto.
  rewrite Hp by now left.
  apply IH; intros q Hq; apply Hp; now right.
Qed.

Lemma includes_lacks (o : ascii) (s : jsstring) :
  lacks o s = true -> includes s [o] = false.
Proof.
  rewrite includes_code_unit; unfold lacks.
  induction s as [|c s IH]; cbn [forallb existsb]; auto.
  rewrite andb_true_iff, negb_true_iff; intros [Hc Hs].
  now rewrite Ascii.eqb_sym, Hc, IH.
Qed.

Lemma label_isLabelFormat (label : jsstring) :
  lacks "[" label = true -> isLabelFormat (label ++ ":") = true.
Proof.
  intros Hl; unfold isLabelFormat, endsWith.
  rewrite rev_app_distr; cbn [rev app list_ascii_of_string startsWith].
  rewrite (includes_lacks "[") by (now rewrite lacks_app, Hl).
  reflexivity.
Qed.

Lemma beforeFirstColon_label (label rest : jsstring) :
  lacks ":" label = true -> beforeFirstColon (label ++ ":" ++ rest) = label.
Proof.
  unfold beforeFirstColon, lacks.
  induction label as [|c label IH]; cbn [forallb takeWhile app]; auto.
  rewrite andb_true_iff; intros [-> H]; now rewrite IH.
Qed.

(** The text the label branch looks for is the label with its colon. *)
Lemma renderEntry_label (text k label v : jsstring) (i : PlaceholderInfo) :
  originalFormat i = label ++ ":" ->
  lacks ":" label = true -> lacks "[" label = true ->
  isCurrencyBlank (type i) = false ->
  generateCompletedDocument text [(k, mkData i v)]
  = replaceNormalized
      (replaceLabel text (label ++ ":") (formatValue i v) i) k
      (formatValue i v).
Proof.
  intros Ho Hc Hb Hty.
  unfold generateCompletedDocument, formatGroups, addToGroup.
  cbn [fold_left Map_get Map_set snd fst renderGroup].
  unfold renderEntry; cbv zeta; cbn [info value].
  rewrite Hty; cbn [negb].
  assert (HL : (if includes (groupKeyOf (mkData i v)) ":"
                   && negb (includes (groupKeyOf (mkData i v)) "[")
                   && isSome (context i)
                then beforeFirstColon (groupKeyOf (mkData i v)) ++ ":"
                else originalFormat i) = label ++ ":").
  { destruct (_ && isSome (context i)) eqn:E; [|exact Ho].
    apply andb_true_iff in E; destruct E as [_ E].
    unfold groupKeyOf; cbn [info].
    destruct (context i) as [p|]; [|discriminate].
    rewrite Ho, (label_isLabelFormat label Hb), <- app_assoc.
    now rewrite beforeFirstColon_label. }
  rewrite HL, (label_isLabelFormat label Hb); reflexivity.
Qed.

(** X17: in a text that holds no [[], [{] and [<], a map with the one entry
    of a label (a value without these code units, a label without colon
    and bracket before its colon) is rendered by writing a blank and the
    value right after one occurrence of the label, whichever way the
    occurrence is found, and nothing else of the text changes; a text that
    does not hold the label is handed on unchanged. *)
Theorem label_entry_written_after_label :
  forall (text k label v : jsstring) (i : PlaceholderInfo),
    originalFormat i = label ++ ":" ->
    lacks ":" label = true -> lacks "[" label = true ->
    isCurrencyBlank (type i) = false ->
    (forall o, In o (list_ascii_of_string "[{<") ->
       lacks o text = true /\ lacks o (formatValue i v) = true) ->
    (includes text (label ++ ":") = true ->
     writtenAfter (label ++ ":") (" " ++ formatValue i v) text
       (generateCompletedDocument text [(k, mkData i v)]))
    /\ (includes text (label ++ ":") = false ->
        generateCompletedDocument text [(k, mkData i v)] = text).
Proof.
  intros text k label v i Ho Hc Hb Hty Hplain.
  rewrite (renderEntry_label text k label v i Ho Hc Hb Hty).
  set (fv := formatValue i v) in *.
  assert (HL : label ++ ":" <> []) by (destruct label; discriminate).
  destruct (replaceLabel_cases text (label ++ ":") fv i HL)
    as [[H1 H2] | [H1 H2]].
  - rewrite H1, replaceNormalized_plain by (intros o Hin; apply Hplain, Hin).
    split; intros H; [congruence | reflexivity].
  - rewrite replaceNormalized_plain.
    + split; intros H; [exact H1 | congruence].
    + intros o Hin; destruct (Hplain o Hin) as [Ht Hv].
      destruct H1 as [pre [post [Et ->]]]; rewrite Et in Ht.
      rewrite !lacks_app in Ht |- *.
      apply andb_true_iff in Ht; destruct Ht as [Hpre Ht].
      apply andb_true_iff in Ht; destruct Ht as [Hlab Hpost].
      rewrite Hpre, Hlab; cbn [andb]; rewrite !lacks_app, Hv, Hpost.
      destruct Hin as [<- | [<- | [<- | []]]]; reflexivity.
Qed.

Lemma label_entry_written_after_label_witness :
  writtenAfter "Address:" " 2 Side St" signaturePage
    (generateCompletedDocument signaturePage
       [ ("Investor Address" : jsstring,
          mkData (mkInfo "Investor Address" "Address:" [] square
                    (Some investor) (Some 26)) "2 Side St") ]).
Proof.
  apply (proj1 (label_entry_written_after_label signaturePage
                  "Investor Address" "Address" "2 Side St"
                  (mkInfo "Investor Address" "Address:" [] square
                     (Some investor) (Some 26))
                  eq_refl eq_refl eq_refl eq_refl
                  ltac:(intros o [<- | [<- | [<- | []]]]; split; reflexivity))).
  reflexivity.
Defined.
